(** * Nonagon L2 node: a shallow embedding of the execution pipeline

    The development follows the C++ sources of the node:
    - [core/types.cpp]: modules [Address], [Transaction], [AccountState],
      [BlockHeader], [Block], [TransactionReceipt];
    - the storage layer: modules [Database], [StateTrie], [BlockStore],
      [StateManager];
    - [execution/execution.cpp]: modules [EVM], [TransactionProcessor],
      [BlockProcessor], [ValidityProof], [ZKProver];
    - [crypto.cpp]: module [Blake2b256], the Merkle tree;
    - [consensus/consensus.cpp]: modules [Mempool], [ConsensusEngine].

    Machine integers are modelled as [Z] with the wrap-around of the C++
    unsigned types written out; byte strings are lists of [Z] in [0, 256);
    the C++ maps are stdpp finite maps.  Functions that change an object
    take the object and return the changed one.

    The file has three parts: the model, the notions the properties are
    stated with, and the properties. *)

From Stdlib Require Import ZArith Lia Bool.
From stdpp Require Import base option list sorting gmap fin_maps strings pretty.

Open Scope Z_scope.

(** * The model *)

(** ** Machine words and byte strings *)

Abbreviation byte := Z (only parsing).
Abbreviation Bytes := (list Z) (only parsing).
Abbreviation Hash256 := (list Z) (only parsing).

Definition wrap64 (z : Z) : Z := z mod 2 ^ 64.
Definition add64 (a b : Z) : Z := wrap64 (a + b).
Definition sub64 (a b : Z) : Z := wrap64 (a - b).
Definition mul64 (a b : Z) : Z := wrap64 (a * b).

Definition is_u64 (z : Z) : Prop := 0 <= z < 2 ^ 64.
Definition is_byte (z : Z) : Prop := 0 <= z < 256.

(** [for (int i = 7; i >= 0; --i) push_back((v >> (i * 8)) & 0xFF)] *)
Definition append_uint64 (v : Z) : Bytes :=
  (fun i => Z.land (Z.shiftr v (i * 8)) 255) <$> [7; 6; 5; 4; 3; 2; 1; 0].

(** [for (int i = 0; i < 8 && offset < data.size(); ++i, ++offset)
       v = (v << 8) | data[offset];]
    The result carries the advanced offset. *)
Fixpoint read_uint64_loop (i : nat) (data : Bytes) (offset : nat) (v : Z)
  : Z * nat :=
  match i with
  | O => (v, offset)
  | S i' =>
      match data !! offset with
      | Some b =>
          read_uint64_loop i' data (S offset) (Z.lor (wrap64 (Z.shiftl v 8)) b)
      | None => (v, offset)
      end
  end.

Definition read_uint64 (data : Bytes) (offset : nat) : Z * nat :=
  read_uint64_loop 8 data offset 0.

(** What a function with a [std::optional] result returns: the value,
    [std::nullopt], or no result where the C++ code hands a container a range
    that leaves the buffer it reads from. *)
Inductive decoded (A : Type) :=
  | Decoded (a : A)
  | Nullopt
  | OutOfRange.
Arguments Decoded {A} a.
Arguments Nullopt {A}.
Arguments OutOfRange {A}.

#[global] Instance decoded_ret : MRet decoded := fun A a => Decoded a.

#[global] Instance decoded_bind : MBind decoded := fun A B f x =>
  match x with
  | Decoded a => f a
  | Nullopt => Nullopt
  | OutOfRange => OutOfRange
  end.

(** The lambda [read_bytes] of the decoders: a 64-bit length, then that many
    bytes.  [offset + len] is computed in [size_t]; when it wraps, the test
    against [data.size()] passes and the vector is built from a range whose
    end lies before its start. *)
Definition read_bytes (data : Bytes) (offset : nat) : decoded (Bytes * nat) :=
  let '(len, offset) := read_uint64 data offset in
  if add64 (Z.of_nat offset) len >? Z.of_nat (length data) then Decoded ([], offset)
  else if Z.of_nat offset + len <? 2 ^ 64
  then Decoded (take (Z.to_nat len) (drop offset data), (offset + Z.to_nat len)%nat)
  else OutOfRange.

(** The lambda [append_bytes] of the encoders. *)
Definition append_bytes (b : Bytes) : Bytes :=
  append_uint64 (Z.of_nat (length b)) ++ b.

Definition wrap32 (z : Z) : Z := z mod 2 ^ 32.

(** [for (int i = 3; i >= 0; --i) push_back((v >> (i * 8)) & 0xFF)] *)
Definition append_uint32 (v : Z) : Bytes :=
  (fun i => Z.land (Z.shiftr v (i * 8)) 255) <$> [3; 2; 1; 0].

(** [for (int i = 0; i < n; ++i) v = (v << 8) | data[offset++];] on a 32-bit
    [v].  Every caller has checked that the bytes are there; past the end the
    model stops as [read_uint64_loop] does. *)
Fixpoint read_uint32_loop (i : nat) (data : Bytes) (offset : nat) (v : Z)
  : Z * nat :=
  match i with
  | O => (v, offset)
  | S i' =>
      match data !! offset with
      | Some b =>
          read_uint32_loop i' data (S offset) (Z.lor (wrap32 (Z.shiftl v 8)) b)
      | None => (v, offset)
      end
  end.

Definition read_uint32 (data : Bytes) (offset : nat) : Z * nat :=
  read_uint32_loop 4 data offset 0.

(** The cryptographic primitives of [nonagon/crypto.hpp].  The model is
    parametric in them: what is proved holds for every hash function, Merkle
    root and signature check. *)
Class Crypto := {
  Blake2b256_hash : Bytes -> Hash256;
  Blake2b256_merkle_root : list Hash256 -> Hash256;
  Ed25519_verify : Hash256 -> Bytes -> Bytes -> bool
}.

(** ** core/types.cpp *)

Definition zero_bytes (n : nat) : Bytes := replicate n 0.

Module Address.

Inductive Type_ := Base | Enterprise | Script.

#[global] Instance Type_eq_dec : EqDecision Type_.
Proof. solve_decision. Defined.

(** [static_cast<int>(type)] *)
Definition Type_code (t : Type_) : Z :=
  match t with Base => 0 | Enterprise => 1 | Script => 2 end.

Record t := mk {
  type : Type_;
  payment_credential : Bytes;
  stake_credential : option Bytes;
  is_mainnet : bool
}.

#[global] Instance eq_dec : EqDecision t.
Proof. solve_decision. Defined.

(** [Address{}]: the default member initialisers. *)
Definition default : t := mk Enterprise (zero_bytes 28) None true.

(** One lower-case hexadecimal digit, as its character code. *)
Definition hex_digit (d : Z) : Z := if d <? 10 then 48 + d else 87 + d.

(** [ss << std::hex << std::setfill('0') << std::setw(2) << int(b)] *)
Definition hex_byte (b : Z) : list Z :=
  [hex_digit (b / 16); hex_digit (b mod 16)].

(** [Address::to_hex], as the character codes of the string. *)
Definition to_hex (a : t) : list Z :=
  hex_byte (Type_code (type a))
  ++ concat (hex_byte <$> payment_credential a)
  ++ match stake_credential a with
     | Some sc => concat (hex_byte <$> sc)
     | None => []
     end.

End Address.

Module Transaction.

Record t := mk {
  from : Address.t;
  to : Address.t;
  value : Z;
  nonce : Z;
  data : Bytes;
  gas_limit : Z;
  max_fee_per_gas : Z;
  max_priority_fee_per_gas : Z;
  sender_pubkey : Bytes;
  signature : Bytes
}.

#[global] Instance eq_dec : EqDecision t.
Proof. solve_decision. Defined.

(** The bytes [Transaction::hash] digests: every field but [signature]. *)
Definition hash_preimage (tx : t) : Bytes :=
  Address.to_hex (from tx) ++ Address.to_hex (to tx)
  ++ append_uint64 (value tx)
  ++ append_uint64 (nonce tx)
  ++ append_uint64 (gas_limit tx)
  ++ append_uint64 (max_fee_per_gas tx)
  ++ append_uint64 (max_priority_fee_per_gas tx)
  ++ data tx
  ++ sender_pubkey tx.

(** [Transaction::hash] *)
Definition hash `{Crypto} (tx : t) : Hash256 :=
  Blake2b256_hash (hash_preimage tx).

(** [Transaction::effective_gas_price] *)
Definition effective_gas_price (tx : t) (base_fee : Z) : Z :=
  let priority_fee := max_priority_fee_per_gas tx in
  let max_effective := max_fee_per_gas tx in
  if add64 base_fee priority_fee >? max_effective
  then max_effective
  else add64 base_fee priority_fee.

(** [for (auto b : signature) if (b != 0xFF) { all_ff = false; break; }] *)
Definition all_ff (sig : Bytes) : bool := forallb (fun b => b =? 255) sig.

(** [Transaction::verify_signature] *)
Definition verify_signature `{Crypto} (tx : t) : bool :=
  let tx_hash := hash tx in
  if all_ff (signature tx) then true
  else Ed25519_verify tx_hash (signature tx) (sender_pubkey tx).

(** [Transaction::encode] *)
Definition encode (tx : t) : Bytes :=
  append_bytes (Address.payment_credential (from tx))
  ++ append_bytes (Address.payment_credential (to tx))
  ++ append_uint64 (value tx)
  ++ append_uint64 (nonce tx)
  ++ append_uint64 (gas_limit tx)
  ++ append_uint64 (max_fee_per_gas tx)
  ++ append_uint64 (max_priority_fee_per_gas tx)
  ++ append_bytes (data tx)
  ++ sender_pubkey tx
  ++ signature tx.

(** The address of a freshly constructed [Transaction] after
    [if (bytes.size() == 28) std::copy(..., payment_credential.begin())]. *)
Definition credential_address (bytes : Bytes) : Address.t :=
  Address.mk Address.Enterprise
             (if bool_decide (length bytes = 28%nat) then bytes else zero_bytes 28)
             None true.

(** [Transaction::decode] *)
Definition decode (data : Bytes) : decoded t :=
  if (length data <? 100)%nat then Nullopt
  else
    '(from_bytes, offset) ← read_bytes data 0;
    '(to_bytes, offset) ← read_bytes data offset;
    let '(value, offset) := read_uint64 data offset in
    let '(nonce, offset) := read_uint64 data offset in
    let '(gas_limit, offset) := read_uint64 data offset in
    let '(max_fee_per_gas, offset) := read_uint64 data offset in
    let '(max_priority_fee_per_gas, offset) := read_uint64 data offset in
    '(call_data, offset) ← read_bytes data offset;
    if (length data <? offset + 32)%nat then Nullopt
    else
      let sender_pubkey := take 32 (drop offset data) in
      let offset := (offset + 32)%nat in
      let signature :=
        if (offset + 64 <=? length data)%nat then take 64 (drop offset data)
        else zero_bytes 64 in
      Decoded (mk (credential_address from_bytes) (credential_address to_bytes)
                  value nonce call_data gas_limit max_fee_per_gas
                  max_priority_fee_per_gas sender_pubkey signature).

End Transaction.

Module AccountState.

Record t := mk {
  nonce : Z;
  balance : Z;
  storage_root : Hash256;
  code_hash : Hash256
}.

#[global] Instance eq_dec : EqDecision t.
Proof. solve_decision. Defined.

(** [AccountState{}] *)
Definition default : t := mk 0 0 (zero_bytes 32) (zero_bytes 32).

(** [AccountState::is_contract] *)
Definition is_contract (s : t) : bool :=
  negb (bool_decide (code_hash s = zero_bytes 32)).

(** [AccountState::encode] *)
Definition encode (s : t) : Bytes :=
  append_uint64 (nonce s) ++ append_uint64 (balance s)
  ++ storage_root s ++ code_hash s.

(** [AccountState::decode] *)
Definition decode (data : Bytes) : t :=
  if (length data <? 80)%nat then default
  else
    let '(n, offset) := read_uint64 data 0 in
    let '(b, offset) := read_uint64 data offset in
    let '(sr, offset) :=
      if (offset + 32 <=? length data)%nat
      then (take 32 (drop offset data), (offset + 32)%nat)
      else (zero_bytes 32, offset) in
    let ch :=
      if (offset + 32 <=? length data)%nat
      then take 32 (drop offset data)
      else zero_bytes 32 in
    mk n b sr ch.

(** The values a C++ [AccountState] can hold: 64-bit counters and two
    32-byte arrays. *)
Definition wf (s : t) : Prop :=
  is_u64 (nonce s) /\ is_u64 (balance s)
  /\ length (storage_root s) = 32%nat /\ length (code_hash s) = 32%nat.

End AccountState.

Module BlockHeader.

Record t := mk {
  number : Z;
  parent_hash : Hash256;
  state_root : Hash256;
  transactions_root : Hash256;
  receipts_root : Hash256;
  sequencer : Address.t;
  gas_limit : Z;
  gas_used : Z;
  base_fee : Z;
  timestamp : Z;
  l1_block_number : Z;
  batch_id : Z
}.

#[global] Instance eq_dec : EqDecision t.
Proof. solve_decision. Defined.

(** [BlockHeader{}] *)
Definition default : t :=
  mk 0 (zero_bytes 32) (zero_bytes 32) (zero_bytes 32) (zero_bytes 32)
     Address.default 30000000 0 1000000000 0 0 0.

(** [BlockHeader::encode] *)
Definition encode (h : t) : Bytes :=
  append_uint64 (number h)
  ++ parent_hash h ++ state_root h ++ transactions_root h ++ receipts_root h
  ++ Address.payment_credential (sequencer h)
  ++ append_uint64 (gas_limit h)
  ++ append_uint64 (gas_used h)
  ++ append_uint64 (base_fee h)
  ++ append_uint64 (timestamp h)
  ++ append_uint64 (l1_block_number h)
  ++ append_uint64 (batch_id h).

(** [BlockHeader::hash]: the digest of the same byte sequence, which the C++
    function assembles a second time. *)
Definition hash `{Crypto} (h : t) : Hash256 :=
  Blake2b256_hash
    (append_uint64 (number h)
     ++ parent_hash h ++ state_root h ++ transactions_root h ++ receipts_root h
     ++ Address.payment_credential (sequencer h)
     ++ append_uint64 (gas_limit h)
     ++ append_uint64 (gas_used h)
     ++ append_uint64 (base_fee h)
     ++ append_uint64 (timestamp h)
     ++ append_uint64 (l1_block_number h)
     ++ append_uint64 (batch_id h)).

End BlockHeader.

Module Block.

Record t := mk {
  header : BlockHeader.t;
  transactions : list Transaction.t
}.

#[global] Instance eq_dec : EqDecision t.
Proof. solve_decision. Defined.

(** [Block::compute_transactions_root] *)
Definition compute_transactions_root `{Crypto} (b : t) : Hash256 :=
  Blake2b256_merkle_root (Transaction.hash <$> transactions b).

(** One round of the loop over the transactions in [Block::encode]. *)
Definition encode_transaction (tx : Transaction.t) : Bytes :=
  let tx_bytes := Transaction.encode tx in
  append_uint32 (wrap32 (Z.of_nat (length tx_bytes))) ++ tx_bytes.

(** [Block::encode] *)
Definition encode (b : t) : Bytes :=
  BlockHeader.encode (header b)
  ++ append_uint32 (wrap32 (Z.of_nat (length (transactions b))))
  ++ concat (encode_transaction <$> transactions b).

(** The loop [for (uint32_t i = 0; i < tx_count; ++i)] of [Block::decode];
    [remaining] is [tx_count - i].  Every round that does not return reads
    four bytes, so after [data.size()] rounds the offset is past the end of
    the data and the next round returns [nullopt]: that is the answer when the
    fuel, which [decode] sets to [data.size()], is used up. *)
Fixpoint decode_transactions (fuel : nat) (remaining : Z) (data : Bytes)
  (offset : nat) (transactions : list Transaction.t)
  : decoded (list Transaction.t) :=
  if remaining <=? 0 then Decoded transactions
  else
    match fuel with
    | O => Nullopt
    | S fuel' =>
        if (length data <? offset + 4)%nat then Nullopt
        else
          let '(len, offset) := read_uint32 data offset in
          if Z.of_nat (length data) <? Z.of_nat offset + len then Nullopt
          else
            let tx_bytes := take (Z.to_nat len) (drop offset data) in
            match Transaction.decode tx_bytes with
            | Decoded tx =>
                decode_transactions fuel' (remaining - 1) data
                                    (offset + Z.to_nat len)%nat (transactions ++ [tx])
            | Nullopt => Nullopt
            | OutOfRange => OutOfRange
            end
    end.

(** [Block::decode].  The unchecked reads of the header lie within the 212
    bytes the first test has found. *)
Definition decode (data : Bytes) : decoded t :=
  if (length data <? 212)%nat then Nullopt
  else
    let '(number, offset) := read_uint64 data 0 in
    let parent_hash := take 32 (drop offset data) in
    let offset := (offset + 32)%nat in
    let state_root := take 32 (drop offset data) in
    let offset := (offset + 32)%nat in
    let transactions_root := take 32 (drop offset data) in
    let offset := (offset + 32)%nat in
    let receipts_root := take 32 (drop offset data) in
    let offset := (offset + 32)%nat in
    let sequencer :=
      Address.mk Address.Enterprise (take 28 (drop offset data)) None true in
    let offset := (offset + 28)%nat in
    let '(gas_limit, offset) := read_uint64 data offset in
    let '(gas_used, offset) := read_uint64 data offset in
    let '(base_fee, offset) := read_uint64 data offset in
    let '(timestamp, offset) := read_uint64 data offset in
    let '(l1_block_number, offset) := read_uint64 data offset in
    let '(batch_id, offset) := read_uint64 data offset in
    if (length data <? offset + 4)%nat then Nullopt
    else
      let '(tx_count, offset) := read_uint32 data offset in
      transactions ← decode_transactions (length data) tx_count data offset [];
      Decoded (mk (BlockHeader.mk number parent_hash state_root transactions_root
                                  receipts_root sequencer gas_limit gas_used
                                  base_fee timestamp l1_block_number batch_id)
                  transactions).

End Block.

(** ** Storage layer (namespace [nonagon::storage]) *)

(** [MemoryDatabase]: the ordered map [data_] from keys to values. *)
Module Database.

Abbreviation t := (gmap (list Z) (list Z)).

Record WriteBatch := mkBatch {
  puts : list (Bytes * Bytes);
  deletes : list Bytes
}.

Definition put (key value : Bytes) (db : t) : t := <[key := value]> db.

Definition get (key : Bytes) (db : t) : option Bytes := db !! key.

Definition del (key : Bytes) (db : t) : t := delete key db.

Definition exists_ (key : Bytes) (db : t) : bool := bool_decide (is_Some (db !! key)).

(** [MemoryDatabase::write_batch]: all puts, then all deletes. *)
Definition write_batch (batch : WriteBatch) (db : t) : t :=
  foldl (fun d key => delete key d)
        (foldl (fun d kv => <[kv.1 := kv.2]> d) db (puts batch))
        (deletes batch).

End Database.

(** [StateTrie]: the root and the map of dirty nodes.  The database handle
    [db_] is the one shared with the owning [StateManager], so the operations
    below take that database as an argument. *)
Module StateTrie.

Record t := mk {
  root_ : Hash256;
  dirty_nodes_ : gmap (list Z) (list Z)
}.

(** [db_key.push_back(0x01); db_key.insert(..., key_hash)] *)
Definition db_key (key_hash : Hash256) : Bytes := 1 :: key_hash.

(** [{0x00, 'R', 'O', 'O', 'T'}] *)
Definition root_key : Bytes := [0; 82; 79; 79; 84].

Definition put `{Crypto} (key value : Bytes) (tr : t) : t :=
  mk (root_ tr) (<[Blake2b256_hash key := value]> (dirty_nodes_ tr)).

Definition get `{Crypto} (db : Database.t) (key : Bytes) (tr : t)
  : option Bytes :=
  let key_hash := Blake2b256_hash key in
  match dirty_nodes_ tr !! key_hash with
  | Some v => Some v
  | None => Database.get (db_key key_hash) db
  end.

(** Deletion marks the node with the empty value. *)
Definition del `{Crypto} (key : Bytes) (tr : t) : t :=
  mk (root_ tr) (<[Blake2b256_hash key := []]> (dirty_nodes_ tr)).

(** One round of the loop over [dirty_nodes_] in [StateTrie::commit]. *)
Definition commit_step `{Crypto}
  (acc : Database.WriteBatch * list Hash256) (node : Bytes * Bytes)
  : Database.WriteBatch * list Hash256 :=
  let '(batch, leaf_hashes) := acc in
  let '(key_str, value) := node in
  if bool_decide (value = [])
  then (Database.mkBatch (Database.puts batch)
                         (Database.deletes batch ++ [db_key key_str]),
        leaf_hashes)
  else (Database.mkBatch (Database.puts batch ++ [(db_key key_str, value)])
                         (Database.deletes batch),
        leaf_hashes ++ [Blake2b256_hash (key_str ++ value)]).

(** [StateTrie::commit].  The dirty nodes live in an unordered map; they are
    visited in the order [map_to_list] lists them. *)
Definition commit `{Crypto} (db : Database.t) (tr : t)
  : Hash256 * Database.t * t :=
  let '(batch, leaf_hashes) :=
    foldl commit_step (Database.mkBatch [] [], [])
          (map_to_list (dirty_nodes_ tr)) in
  let db1 := Database.write_batch batch db in
  let root' :=
    match leaf_hashes with
    | [] => root_ tr
    | _ :: _ => Blake2b256_merkle_root leaf_hashes
    end in
  let db2 := Database.put root_key root' db1 in
  (root', db2, mk root' ∅).

(** [StateTrie::get_proof] *)
Definition get_proof `{Crypto} (db : Database.t) (key : Bytes) (tr : t)
  : list Bytes :=
  [Blake2b256_hash key]
  ++ match get db key tr with
     | Some value => [value]
     | None => []
     end
  ++ [root_ tr].

(** [StateTrie::verify_proof].  [proof_root] is filled only when the last
    element of the proof has 32 bytes; otherwise the comparison reads an array
    that was never written, and the model has no answer ([None]). *)
Definition verify_proof (root : Hash256) (key value : Bytes)
  (proof : list Bytes) : option bool :=
  if (length proof <? 3)%nat then Some false
  else
    match last proof with
    | Some back =>
        if bool_decide (length back = 32%nat)
        then Some (bool_decide (root = back))
        else None
    | None => None
    end.

End StateTrie.

(** [BlockStore]: the database handle and the head number. *)
Module BlockStore.

Record t := mk {
  db_ : Database.t;
  head_ : Z
}.

(** [{'H', 'E', 'A', 'D'}] *)
Definition head_key : Bytes := [72; 69; 65; 68].

(** [{'B', 'N'}] followed by the block number. *)
Definition number_key (number : Z) : Bytes := [66; 78] ++ append_uint64 number.

(** [{'B', 'H'}] followed by the block hash. *)
Definition hash_key (hash : Hash256) : Bytes := [66; 72] ++ hash.

(** [{'T', 'X', 'I'}] followed by the transaction hash. *)
Definition tx_key (tx_hash : Hash256) : Bytes := [84; 88; 73] ++ tx_hash.

(** [BlockStore(db)]: the head is loaded from the database when at least
    eight bytes are stored for it. *)
Definition create (db : Database.t) : t :=
  match Database.get head_key db with
  | Some head_data =>
      if (8 <=? length head_data)%nat then mk db (read_uint64 head_data 0).1
      else mk db 0
  | None => mk db 0
  end.

(** [BlockStore::store_block] *)
Definition store_block `{Crypto} (block : Block.t) (bs : t) : bool * t :=
  let block_bytes := Block.encode block in
  let block_hash := BlockHeader.hash (Block.header block) in
  let number := BlockHeader.number (Block.header block) in
  let db1 := Database.put (number_key number) block_bytes (db_ bs) in
  let num_bytes := append_uint64 number in
  let db2 := Database.put (hash_key block_hash) num_bytes db1 in
  if number >? head_ bs
  then (true, mk (Database.put head_key num_bytes db2) number)
  else (true, mk db2 (head_ bs)).

(** [BlockStore::get_block] *)
Definition get_block (number : Z) (bs : t) : decoded Block.t :=
  match Database.get (number_key number) (db_ bs) with
  | None => Nullopt
  | Some data => Block.decode data
  end.

(** [BlockStore::get_block_by_hash] *)
Definition get_block_by_hash (hash : Hash256) (bs : t) : decoded Block.t :=
  match Database.get (hash_key hash) (db_ bs) with
  | None => Nullopt
  | Some num_data =>
      if (length num_data <? 8)%nat then Nullopt
      else get_block (read_uint64 num_data 0).1 bs
  end.

(** [BlockStore::set_head] *)
Definition set_head (number : Z) (bs : t) : t :=
  mk (Database.put head_key (append_uint64 number) (db_ bs)) number.

(** [BlockStore::get_head] *)
Definition get_head (bs : t) : Z := head_ bs.

(** [BlockStore::index_transaction]; [tx_index] is a [uint32_t]. *)
Definition index_transaction (tx_hash : Hash256) (block_number tx_index : Z)
  (bs : t) : t :=
  mk (Database.put (tx_key tx_hash)
                   (append_uint64 block_number ++ append_uint32 tx_index) (db_ bs))
     (head_ bs).

(** [BlockStore::get_tx_location] *)
Definition get_tx_location (tx_hash : Hash256) (bs : t) : option (Z * Z) :=
  match Database.get (tx_key tx_hash) (db_ bs) with
  | None => None
  | Some data =>
      if (length data <? 12)%nat then None
      else Some ((read_uint64 data 0).1, (read_uint32 data 8).1)
  end.

End BlockStore.

Module StateManager.

(** One journal record: the account touched and its state before the write. *)
Record JournalEntry := mkEntry {
  addr : Address.t;
  prev_state : option AccountState.t
}.

Module Snapshot.
Record t := mk {
  state_root : Hash256;
  journal_size : nat
}.
End Snapshot.

(** [journal_] is a vector grown with [push_back]; the head of the list is
    the back of the vector. *)
Record t := mk {
  db_ : Database.t;
  account_trie_ : StateTrie.t;
  journal_ : list JournalEntry
}.

(** [StateManager(db)]: an empty trie with the all-zero root. *)
Definition create (db : Database.t) : t :=
  mk db (StateTrie.mk (zero_bytes 32) ∅) [].

Definition get_account `{Crypto} (a : Address.t) (st : t) : AccountState.t :=
  let key := Address.payment_credential a in
  match StateTrie.get (db_ st) key (account_trie_ st) with
  | Some data => AccountState.decode data
  | None => AccountState.default
  end.

Definition set_account `{Crypto} (a : Address.t) (state : AccountState.t)
  (st : t) : t :=
  let key := Address.payment_credential a in
  let value := AccountState.encode state in
  let prev := StateTrie.get (db_ st) key (account_trie_ st) in
  let entry := mkEntry a (AccountState.decode <$> prev) in
  mk (db_ st)
     (StateTrie.put key value (account_trie_ st))
     (entry :: journal_ st).

Definition get_balance `{Crypto} (a : Address.t) (st : t) : Z :=
  AccountState.balance (get_account a st).

Definition with_balance (s : AccountState.t) (b : Z) : AccountState.t :=
  AccountState.mk (AccountState.nonce s) b
                  (AccountState.storage_root s) (AccountState.code_hash s).

Definition with_nonce (s : AccountState.t) (n : Z) : AccountState.t :=
  AccountState.mk n (AccountState.balance s)
                  (AccountState.storage_root s) (AccountState.code_hash s).

Definition with_code_hash (s : AccountState.t) (h : Hash256) : AccountState.t :=
  AccountState.mk (AccountState.nonce s) (AccountState.balance s)
                  (AccountState.storage_root s) h.

Definition add_balance `{Crypto} (a : Address.t) (amount : Z) (st : t) : t :=
  let state := get_account a st in
  set_account a (with_balance state (add64 (AccountState.balance state) amount)) st.

(** [StateManager::sub_balance] returns [void]: the only result is the store. *)
Definition sub_balance `{Crypto} (a : Address.t) (amount : Z) (st : t) : t :=
  let state := get_account a st in
  if AccountState.balance state >=? amount
  then set_account a (with_balance state (sub64 (AccountState.balance state) amount)) st
  else st.

Definition get_nonce `{Crypto} (a : Address.t) (st : t) : Z :=
  AccountState.nonce (get_account a st).

Definition increment_nonce `{Crypto} (a : Address.t) (st : t) : t :=
  let state := get_account a st in
  set_account a (with_nonce state (add64 (AccountState.nonce state) 1)) st.

(** ['S','T','O','R'] followed by the address payload and the slot. *)
Definition storage_db_key (a : Address.t) (key : Hash256) : Bytes :=
  [83; 84; 79; 82] ++ (Address.payment_credential a ++ key).

(** ['C','O','D','E'] followed by the code hash. *)
Definition code_db_key (h : Hash256) : Bytes := [67; 79; 68; 69] ++ h.

Definition get_storage (a : Address.t) (key : Hash256) (st : t) : Bytes :=
  default [] (Database.get (storage_db_key a key) (db_ st)).

Definition set_storage (a : Address.t) (key : Hash256) (value : Bytes)
  (st : t) : t :=
  mk (Database.put (storage_db_key a key) value (db_ st))
     (account_trie_ st) (journal_ st).

Definition get_code `{Crypto} (a : Address.t) (st : t) : Bytes :=
  let state := get_account a st in
  default [] (Database.get (code_db_key (AccountState.code_hash state)) (db_ st)).

Definition set_code `{Crypto} (a : Address.t) (code : Bytes) (st : t) : t :=
  let code_hash := Blake2b256_hash code in
  let st1 := mk (Database.put (code_db_key code_hash) code (db_ st))
                (account_trie_ st) (journal_ st) in
  let state := get_account a st1 in
  set_account a (with_code_hash state code_hash) st1.

Definition commit `{Crypto} (st : t) : Hash256 * t :=
  let '(root, db', trie') := StateTrie.commit (db_ st) (account_trie_ st) in
  (root, mk db' trie' (journal_ st)).

Definition state_root (st : t) : Hash256 := StateTrie.root_ (account_trie_ st).

Definition snapshot (st : t) : Snapshot.t :=
  Snapshot.mk (StateTrie.root_ (account_trie_ st)) (length (journal_ st)).

(** The body of the [while] loop of [StateManager::revert] for one entry. *)
Definition undo `{Crypto} (entry : JournalEntry) (tr : StateTrie.t) : StateTrie.t :=
  let key := Address.payment_credential (addr entry) in
  match prev_state entry with
  | Some prev => StateTrie.put key (AccountState.encode prev) tr
  | None => StateTrie.del key tr
  end.

(** [while (journal_.size() > snap.journal_size) { ...; journal_.pop_back(); }] *)
Fixpoint revert_loop `{Crypto} (journal : list JournalEntry) (size : nat)
  (tr : StateTrie.t) : list JournalEntry * StateTrie.t :=
  match journal with
  | [] => ([], tr)
  | entry :: rest =>
      if (size <? length journal)%nat
      then revert_loop rest size (undo entry tr)
      else (journal, tr)
  end.

Definition revert `{Crypto} (snap : Snapshot.t) (st : t) : t :=
  let '(journal', trie') :=
    revert_loop (journal_ st) (Snapshot.journal_size snap) (account_trie_ st) in
  mk (db_ st) trie' journal'.

End StateManager.

(** ** execution/execution.cpp (namespace [nonagon::execution]) *)

Module GasCosts.
Definition ZERO : Z := 0.
Definition BASE : Z := 2.
Definition VERYLOW : Z := 3.
Definition LOW : Z := 5.
Definition MID : Z := 8.
Definition HIGH : Z := 10.
Definition SLOAD : Z := 800.
Definition SSTORE_SET : Z := 20000.
Definition CREATE : Z := 32000.
Definition SELFDESTRUCT : Z := 5000.
Definition TRANSACTION : Z := 21000.
Definition TXCREATE : Z := 32000.
Definition TXDATAZERO : Z := 4.
Definition TXDATANONZERO : Z := 16.
End GasCosts.

Definition in_range (lo hi x : Z) : bool := (lo <=? x) && (x <=? hi).

(** [get_opcode_gas_cost] *)
Definition get_opcode_gas_cost (opcode : Z) : Z :=
  if opcode =? 0x00 then GasCosts.ZERO
  else if in_range 0x01 0x03 opcode then GasCosts.VERYLOW
  else if in_range 0x10 0x13 opcode then GasCosts.VERYLOW
  else if in_range 0x14 0x15 opcode then GasCosts.VERYLOW
  else if opcode =? 0x50 then GasCosts.BASE
  else if in_range 0x51 0x52 opcode then GasCosts.VERYLOW
  else if opcode =? 0x54 then GasCosts.SLOAD
  else if opcode =? 0x55 then GasCosts.SSTORE_SET
  else if opcode =? 0x56 then GasCosts.MID
  else if opcode =? 0x57 then GasCosts.HIGH
  else if opcode =? 0x5B then 1
  else if (opcode =? 0xF3) || (opcode =? 0xFD) then GasCosts.ZERO
  else if opcode =? 0xFE then GasCosts.ZERO
  else if opcode =? 0xFF then GasCosts.SELFDESTRUCT
  else if in_range 0x60 0x7F opcode then GasCosts.VERYLOW
  else if in_range 0x80 0x8F opcode then GasCosts.VERYLOW
  else if in_range 0x90 0x9F opcode then GasCosts.VERYLOW
  else GasCosts.BASE.

(** [using uint256 = std::array<uint64_t, 4>]; word 0 is the most
    significant one. *)
Module uint256.

Record t := mk { w0 : Z; w1 : Z; w2 : Z; w3 : Z }.

Definition zero : t := mk 0 0 0 0.

(** [w[i] |= v] *)
Definition or_at (w : t) (i : Z) (v : Z) : t :=
  if i =? 0 then mk (Z.lor (w0 w) v) (w1 w) (w2 w) (w3 w)
  else if i =? 1 then mk (w0 w) (Z.lor (w1 w) v) (w2 w) (w3 w)
  else if i =? 2 then mk (w0 w) (w1 w) (Z.lor (w2 w) v) (w3 w)
  else mk (w0 w) (w1 w) (w2 w) (Z.lor (w3 w) v).

(** [out[i * 8 + j] = (w[i] >> (56 - j * 8)) & 0xFF] for [i < 4], [j < 8]. *)
Definition to_bytes (w : t) : Bytes :=
  append_uint64 (w0 w) ++ append_uint64 (w1 w)
  ++ append_uint64 (w2 w) ++ append_uint64 (w3 w).

(** [for i < min(bs.size(), 32): val[i / 8] |= uint64(bs[i]) << (56 - (i % 8) * 8)] *)
Definition of_bytes (bs : Bytes) : t :=
  foldl (fun w ib => or_at w (Z.of_nat ib.1 / 8)
                       (wrap64 (Z.shiftl ib.2 (56 - (Z.of_nat ib.1 mod 8) * 8))))
        zero (imap (fun i b => (i, b)) (take 32 bs)).

(** The immediate of a [PUSHn]:
    [val[(31 - i) / 8] |= uint64(code[pc + 1 + i]) << (56 - ((31 - i) % 8) * 8)]. *)
Definition of_push (bs : Bytes) : t :=
  foldl (fun w ib => or_at w ((31 - Z.of_nat ib.1) / 8)
                       (wrap64 (Z.shiftl ib.2 (56 - ((31 - Z.of_nat ib.1) mod 8) * 8))))
        zero (imap (fun i b => (i, b)) bs).

End uint256.

Module Log.
Record t := mk {
  address : Address.t;
  topics : list Hash256;
  data : Bytes
}.
End Log.

Module ExecutionContext.
Record t := mk {
  caller : Address.t;
  origin : Address.t;
  coinbase : Address.t;
  block_number : Z;
  timestamp : Z;
  gas_limit : Z;
  gas_price : Z;
  base_fee : Z;
  chain_id : Z;
  block_hash : Hash256
}.
End ExecutionContext.

Module ExecutionResult.
Record t := mk {
  success : bool;
  gas_used : Z;
  return_data : Bytes;
  error : string;
  created_address : option Address.t;
  logs : list Log.t
}.

(** [ExecutionResult result;] *)
Definition default : t := mk false 0 [] "" None [].
End ExecutionResult.

(** What running the model of a loop can yield: the value the C++ code
    returns, or no answer because the fuel ran out or because the code reached
    an opcode whose case is not part of the modelled fragment. *)
Inductive outcome (A : Type) :=
  | Done (a : A)
  | OutOfFuel
  | NotModelled.
Arguments Done {A} a.
Arguments OutOfFuel {A}.
Arguments NotModelled {A}.

Module EVM.

(** [EVM::ExecutionState]; the head of [stack] is [stack.back()]. *)
Module ExecutionState.
Record t := mk {
  memory : Bytes;
  stack : list uint256.t;
  gas_remaining : Z;
  pc : nat;
  stopped : bool;
  reverted : bool;
  return_data : Bytes
}.
End ExecutionState.
Import ExecutionState.

(** The opcodes that have a [case] in the [switch] of [execute_code]. *)
Definition has_case (opcode : Z) : bool :=
  in_range 0x00 0x0A opcode || in_range 0x10 0x1D opcode
  || in_range 0x30 0x3B opcode || in_range 0x3D 0x3E opcode
  || in_range 0x40 0x48 opcode || in_range 0x50 0x52 opcode
  || in_range 0x54 0x5B opcode || in_range 0x60 0x7F opcode
  || in_range 0x80 0x9F opcode || in_range 0xA0 0xA4 opcode
  || in_range 0xF0 0xF5 opcode || (opcode =? 0xFA)
  || in_range 0xFD 0xFF opcode.

(** The window [memory[offset, offset + size)] that RETURN and REVERT copy
    when [offset + size <= memory.size()]. *)
Definition return_window (s : t) (offset_w size_w : uint256.t) : Bytes :=
  let offset := uint256.w3 offset_w in
  let size := uint256.w3 size_w in
  if add64 offset size <=? Z.of_nat (length (memory s))
  then take (Z.to_nat size) (drop (Z.to_nat offset) (memory s))
  else return_data s.

(** One pass through the [switch (opcode)] of [EVM::execute_code], for the
    fragment STOP, POP, SLOAD, SSTORE, JUMPDEST, PUSH1..PUSH32, RETURN, REVERT,
    INVALID and the [default] case.  [error] is [result.error].  The other
    cases of the switch are not modelled. *)
Definition step `{Crypto} (address : Address.t) (code : Bytes)
  (is_static : bool) (opcode : Z) (s : t) (error : string)
  (sm : StateManager.t) : option (t * string * StateManager.t) :=
  if opcode =? 0x00 then
    Some (mk (memory s) (stack s) (gas_remaining s) (pc s) true (reverted s)
             (return_data s), error, sm)
  else if opcode =? 0x50 then
    Some (mk (memory s) (tail (stack s)) (gas_remaining s) (pc s) (stopped s)
             (reverted s) (return_data s), error, sm)
  else if opcode =? 0x54 then
    match stack s with
    | key_w :: rest =>
        let val_bytes := StateManager.get_storage address (uint256.to_bytes key_w) sm in
        Some (mk (memory s) (uint256.of_bytes val_bytes :: rest) (gas_remaining s)
                 (pc s) (stopped s) (reverted s) (return_data s), error, sm)
    | [] => Some (s, error, sm)
    end
  else if opcode =? 0x55 then
    if is_static then
      Some (mk (memory s) (stack s) (gas_remaining s) (pc s) (stopped s) true
               (return_data s), "State modification in static call", sm)
    else
      match stack s with
      | key_w :: val_w :: rest =>
          Some (mk (memory s) rest (gas_remaining s) (pc s) (stopped s)
                   (reverted s) (return_data s), error,
                StateManager.set_storage address (uint256.to_bytes key_w)
                                         (uint256.to_bytes val_w) sm)
      | _ => Some (s, error, sm)
      end
  else if opcode =? 0x5B then Some (s, error, sm)
  else if in_range 0x60 0x7F opcode then
    let n := Z.to_nat (opcode - 0x60 + 1) in
    let val := uint256.of_push (take n (drop (pc s + 1) code)) in
    Some (mk (memory s) (val :: stack s) (gas_remaining s) (pc s + n)%nat
             (stopped s) (reverted s) (return_data s), error, sm)
  else if opcode =? 0xF3 then
    match stack s with
    | offset_w :: size_w :: rest =>
        Some (mk (memory s) rest (gas_remaining s) (pc s) true (reverted s)
                 (return_window s offset_w size_w), error, sm)
    | _ =>
        Some (mk (memory s) (stack s) (gas_remaining s) (pc s) true (reverted s)
                 (return_data s), error, sm)
    end
  else if opcode =? 0xFD then
    match stack s with
    | offset_w :: size_w :: rest =>
        Some (mk (memory s) rest (gas_remaining s) (pc s) (stopped s) true
                 (return_window s offset_w size_w), error, sm)
    | _ =>
        Some (mk (memory s) (stack s) (gas_remaining s) (pc s) (stopped s) true
                 (return_data s), error, sm)
    end
  else if opcode =? 0xFE then
    Some (mk (memory s) (stack s) (gas_remaining s) (pc s) (stopped s) true
             (return_data s), "Invalid opcode", sm)
  else if has_case opcode then None
  else
    Some (mk (memory s) (stack s) (gas_remaining s) (pc s) (stopped s) true
             (return_data s), "Unknown opcode: 0x" +:+ pretty opcode, sm).

(** The [while] loop of [EVM::execute_code] and the lines after it. *)
Fixpoint run `{Crypto} (fuel : nat) (address : Address.t) (code : Bytes)
  (is_static : bool) (gas_limit : Z) (s : t) (error : string)
  (sm : StateManager.t) : outcome (ExecutionResult.t * StateManager.t) :=
  if stopped s || reverted s || negb (pc s <? length code)%nat then
    Done (ExecutionResult.mk (negb (reverted s))
                             (sub64 gas_limit (gas_remaining s))
                             (return_data s) error None [], sm)
  else
    match fuel, code !! pc s with
    | S fuel', Some opcode =>
        let gas_cost := get_opcode_gas_cost opcode in
        if gas_remaining s <? gas_cost then
          Done (ExecutionResult.mk false gas_limit [] "Out of gas" None [], sm)
        else
          let s1 := mk (memory s) (stack s) (sub64 (gas_remaining s) gas_cost)
                       (pc s) (stopped s) (reverted s) (return_data s) in
          match step address code is_static opcode s1 error sm with
          | Some (s2, error', sm') =>
              run fuel' address code is_static gas_limit
                  (mk (memory s2) (stack s2) (gas_remaining s2) (pc s2 + 1)%nat
                      (stopped s2) (reverted s2) (return_data s2))
                  error' sm'
          | None => NotModelled
          end
    | _, _ => OutOfFuel
    end.

(** [EVM::execute_code].  The precompile registry is empty: the constructor
    registers none and no caller of [register_precompile] exists. *)
Definition execute_code `{Crypto} (fuel : nat) (caller address : Address.t)
  (code input : Bytes) (value gas_limit : Z) (is_static : bool)
  (sm : StateManager.t) : outcome (ExecutionResult.t * StateManager.t) :=
  match code with
  | [] => Done (ExecutionResult.mk true 0 [] "" None [], sm)
  | _ :: _ =>
      run fuel address code is_static gas_limit
          (mk [] [] gas_limit 0 false false []) "" sm
  end.

(** [EVM::create] *)
Definition create `{Crypto} (fuel : nat) (from : Address.t) (code : Bytes)
  (value gas_limit : Z) (sm : StateManager.t)
  : outcome (ExecutionResult.t * StateManager.t) :=
  let nonce := StateManager.get_nonce from sm in
  let address_preimage := Address.payment_credential from ++ append_uint64 nonce in
  let hash := Blake2b256_hash address_preimage in
  let contract_addr := Address.mk Address.Script (take 28 hash) None true in
  let sm1 := if value >? 0 then StateManager.add_balance contract_addr value sm
             else sm in
  match execute_code fuel from contract_addr code [] value
                     (sub64 gas_limit GasCosts.CREATE) false sm1 with
  | Done (init_result, sm2) =>
      let gas_used := add64 GasCosts.CREATE (ExecutionResult.gas_used init_result) in
      if ExecutionResult.success init_result then
        Done (ExecutionResult.mk true gas_used [] "" (Some contract_addr)
                (ExecutionResult.logs init_result),
              StateManager.set_code contract_addr
                (ExecutionResult.return_data init_result) sm2)
      else
        Done (ExecutionResult.mk false gas_used [] (ExecutionResult.error init_result)
                None [], sm2)
  | OutOfFuel => OutOfFuel
  | NotModelled => NotModelled
  end.

(** [EVM::execute_transaction] *)
Definition execute_transaction `{Crypto} (fuel : nat) (tx : Transaction.t)
  (ctx : ExecutionContext.t) (sm : StateManager.t)
  : outcome (ExecutionResult.t * StateManager.t) :=
  let from := Transaction.from tx in
  let price := Transaction.effective_gas_price tx (ExecutionContext.base_fee ctx) in
  let sm1 := StateManager.increment_nonce from sm in
  let gas_cost := mul64 (Transaction.gas_limit tx) price in
  if StateManager.get_balance from sm1 <? add64 (Transaction.value tx) gas_cost then
    Done (ExecutionResult.mk false 0 [] "Insufficient balance" None [], sm1)
  else
    let sm2 := StateManager.sub_balance from (add64 (Transaction.value tx) gas_cost) sm1 in
    let is_create :=
      bool_decide (Address.payment_credential (Transaction.to tx) = zero_bytes 28) in
    let executed :=
      if is_create then
        create fuel from (Transaction.data tx) (Transaction.value tx)
               (Transaction.gas_limit tx) sm2
      else
        let sm3 := StateManager.add_balance (Transaction.to tx) (Transaction.value tx) sm2 in
        match StateManager.get_code (Transaction.to tx) sm3 with
        | [] => Done (ExecutionResult.mk true GasCosts.TRANSACTION [] "" None [], sm3)
        | code =>
            execute_code fuel from (Transaction.to tx) code (Transaction.data tx)
                         (Transaction.value tx) (Transaction.gas_limit tx) false sm3
        end in
    match executed with
    | Done (result, sm4) =>
        let gas_refund :=
          mul64 (sub64 (Transaction.gas_limit tx) (ExecutionResult.gas_used result)) price in
        let sm5 := StateManager.add_balance from gas_refund sm4 in
        let gas_payment := mul64 (ExecutionResult.gas_used result) price in
        let sm6 := StateManager.add_balance (ExecutionContext.coinbase ctx) gas_payment sm5 in
        Done (result, sm6)
    | OutOfFuel => OutOfFuel
    | NotModelled => NotModelled
    end.



End EVM.

Module TransactionReceipt.
Record t := mk {
  transaction_hash : Hash256;
  block_number : Z;
  transaction_index : Z;
  from : Address.t;
  to : Address.t;
  success : bool;
  status : Z;
  gas_used : Z;
  cumulative_gas_used : Z;
  contract_address : option Address.t;
  logs : list Log.t
}.

(** [TransactionReceipt receipt;]: the default member initialisers. *)
Definition default : t :=
  mk (zero_bytes 32) 0 0 Address.default Address.default false 0 0 0 None [].
(** [TransactionReceipt::hash] *)
Definition hash `{Crypto} (r : t) : Hash256 :=
  Blake2b256_hash
    (transaction_hash r ++ append_uint64 (block_number r)
     ++ [if success r then 1 else 0]
     ++ append_uint64 (cumulative_gas_used r)
     ++ concat ((fun log => Address.payment_credential (Log.address log)
                            ++ concat (Log.topics log) ++ Log.data log)
                <$> logs r)
     ++ match contract_address r with
        | Some a => Address.payment_credential a
        | None => []
        end).
End TransactionReceipt.

Module TransactionProcessor.

Module ValidationResult.
Record t := mk { valid : bool; error : string }.
End ValidationResult.

(** [ProcessResult]; [gas_used] has no initialiser, [None] stands for the
    member that was never assigned. *)
Module ProcessResult.
Record t := mk {
  receipt : TransactionReceipt.t;
  gas_used : option Z;
  success : bool;
  error : string
}.
End ProcessResult.

(** [TransactionProcessor::intrinsic_gas] *)
Definition intrinsic_gas (tx : Transaction.t) : Z :=
  let gas := GasCosts.TRANSACTION in
  let gas :=
    if bool_decide (Address.payment_credential (Transaction.to tx) = zero_bytes 28)
    then add64 gas GasCosts.TXCREATE else gas in
  foldl (fun gas b => add64 gas (if b =? 0 then GasCosts.TXDATAZERO
                                 else GasCosts.TXDATANONZERO))
        gas (Transaction.data tx).

(** [TransactionProcessor::validate] *)
Definition validate `{Crypto} (tx : Transaction.t) (base_fee : Z)
  (sm : StateManager.t) : ValidationResult.t :=
  let expected_nonce := StateManager.get_nonce (Transaction.from tx) sm in
  if negb (Transaction.nonce tx =? expected_nonce) then
    ValidationResult.mk false "Invalid nonce"
  else
    let cost := add64 (Transaction.value tx)
                  (mul64 (Transaction.gas_limit tx) (Transaction.max_fee_per_gas tx)) in
    if StateManager.get_balance (Transaction.from tx) sm <? cost then
      ValidationResult.mk false "Insufficient balance"
    else if Transaction.gas_limit tx <? intrinsic_gas tx then
      ValidationResult.mk false "Gas limit too low"
    else if Transaction.max_fee_per_gas tx <? base_fee then
      ValidationResult.mk false "Max fee below base fee"
    else ValidationResult.mk true "".

(** [TransactionProcessor::process] *)
Definition process `{Crypto} (fuel : nat) (tx : Transaction.t)
  (ctx : ExecutionContext.t) (sm : StateManager.t)
  : outcome (ProcessResult.t * StateManager.t) :=
  let validation := validate tx (ExecutionContext.base_fee ctx) sm in
  if negb (ValidationResult.valid validation) then
    Done (ProcessResult.mk TransactionReceipt.default None false
            (ValidationResult.error validation), sm)
  else
    match EVM.execute_transaction fuel tx ctx sm with
    | Done (exec_result, sm') =>
        let receipt :=
          TransactionReceipt.mk (Transaction.hash tx) 0 0
            Address.default Address.default
            (ExecutionResult.success exec_result) 0
            (ExecutionResult.gas_used exec_result) 0
            (ExecutionResult.created_address exec_result)
            (ExecutionResult.logs exec_result) in
        Done (ProcessResult.mk receipt
                (Some (ExecutionResult.gas_used exec_result))
                (ExecutionResult.success exec_result)
                (ExecutionResult.error exec_result), sm')
    | OutOfFuel => OutOfFuel
    | NotModelled => NotModelled
    end.


End TransactionProcessor.

Module BlockProcessor.

Definition BASE_FEE_CHANGE_DENOMINATOR : Z := 8.
Definition ELASTICITY_MULTIPLIER : Z := 2.

(** [BlockProcessor::validate_block] *)
Definition validate_block `{Crypto} (block : Block.t) : bool :=
  if BlockHeader.gas_used (Block.header block)
     >? BlockHeader.gas_limit (Block.header block) then false
  else if bool_decide (Block.compute_transactions_root block
                       <> BlockHeader.transactions_root (Block.header block))
  then false
  else true.

(** [BlockProcessor::calculate_base_fee].  [None] stands for the division by
    [parent_gas_target = 0], which the first branch reaches when the parent
    gas limit is below 2; the second branch has
    [parent_gas_target > parent_gas_used >= 0]. *)
Definition calculate_base_fee (parent : BlockHeader.t) (parent_gas_used : Z)
  : option Z :=
  let parent_base_fee := BlockHeader.base_fee parent in
  let parent_gas_target := BlockHeader.gas_limit parent / ELASTICITY_MULTIPLIER in
  if parent_gas_used =? parent_gas_target then Some parent_base_fee
  else if parent_gas_used >? parent_gas_target then
    if parent_gas_target =? 0 then None
    else
      let gas_delta := sub64 parent_gas_used parent_gas_target in
      let fee_delta :=
        mul64 parent_base_fee gas_delta / parent_gas_target
        / BASE_FEE_CHANGE_DENOMINATOR in
      Some (add64 parent_base_fee (Z.max fee_delta 1))
  else
    let gas_delta := sub64 parent_gas_target parent_gas_used in
    let fee_delta :=
      mul64 parent_base_fee gas_delta / parent_gas_target
      / BASE_FEE_CHANGE_DENOMINATOR in
    if fee_delta >=? parent_base_fee then Some 0
    else Some (sub64 parent_base_fee fee_delta).

Module BlockResult.
(** [BlockProcessor::BlockResult].  The two roots have no initialiser;
    [None] stands for a root that was never assigned. *)
Record t := mk {
  state_root : option Hash256;
  receipts_root : option Hash256;
  receipts : list TransactionReceipt.t;
  total_gas_used : Z;
  valid : bool;
  error : string
}.
End BlockResult.

(** What [process_block] can yield: a result and the store it leaves, or no
    result because the loop added a [gas_used] that [process] never assigned,
    or because a transaction's execution gave no answer in the model. *)
Inductive block_outcome :=
  | Processed (result : BlockResult.t) (sm : StateManager.t)
  | UnassignedRead
  | NoAnswer.

Definition with_position (receipt : TransactionReceipt.t)
  (cumulative_gas block_number transaction_index : Z) : TransactionReceipt.t :=
  TransactionReceipt.mk (TransactionReceipt.transaction_hash receipt)
    block_number transaction_index
    (TransactionReceipt.from receipt) (TransactionReceipt.to receipt)
    (TransactionReceipt.success receipt) (TransactionReceipt.status receipt)
    (TransactionReceipt.gas_used receipt) cumulative_gas
    (TransactionReceipt.contract_address receipt) (TransactionReceipt.logs receipt).

(** The [for] loop of [process_block] over the transactions still to run;
    [None] when it adds a [gas_used] that [process] never assigned. *)
Fixpoint process_transactions `{Crypto} (fuel : nat) (header : BlockHeader.t)
  (txs : list Transaction.t) (sm : StateManager.t) (cumulative_gas : Z)
  (receipts : list TransactionReceipt.t)
  : option (outcome (list TransactionReceipt.t * Z * StateManager.t)) :=
  match txs with
  | [] => Some (Done (receipts, cumulative_gas, sm))
  | tx :: rest =>
      let ctx :=
        ExecutionContext.mk (Transaction.from tx) (Transaction.from tx)
          (BlockHeader.sequencer header) (BlockHeader.number header)
          (BlockHeader.timestamp header) (BlockHeader.gas_limit header)
          (Transaction.effective_gas_price tx (BlockHeader.base_fee header))
          (BlockHeader.base_fee header) 1 (BlockHeader.hash header) in
      match TransactionProcessor.process fuel tx ctx sm with
      | Done (tx_result, sm') =>
          match TransactionProcessor.ProcessResult.gas_used tx_result with
          | None => None
          | Some gas_used =>
              let cumulative_gas := add64 cumulative_gas gas_used in
              let receipt :=
                with_position (TransactionProcessor.ProcessResult.receipt tx_result)
                  cumulative_gas (BlockHeader.number header)
                  (Z.of_nat (length receipts)) in
              process_transactions fuel header rest sm' cumulative_gas
                                   (receipts ++ [receipt])
          end
      | OutOfFuel => Some OutOfFuel
      | NotModelled => Some NotModelled
      end
  end.

(** [BlockProcessor::process_block] *)
Definition process_block `{Crypto} (fuel : nat) (block : Block.t)
  (sm : StateManager.t) : block_outcome :=
  if negb (validate_block block) then
    Processed (BlockResult.mk None None [] 0 false "Invalid block") sm
  else
    match process_transactions fuel (Block.header block) (Block.transactions block)
                               sm 0 [] with
    | Some (Done (receipts, cumulative_gas, sm')) =>
        let '(state_root, sm'') := StateManager.commit sm' in
        let receipts_root :=
          Blake2b256_merkle_root (TransactionReceipt.hash <$> receipts) in
        Processed (BlockResult.mk (Some state_root) (Some receipts_root) receipts
                                  cumulative_gas true "") sm''
    | Some _ => NoAnswer
    | None => UnassignedRead
    end.

End BlockProcessor.

(** [ValidityProof] *)
Module ValidityProof.

Record t := mk {
  batch_id : Z;
  start_block : Z;
  end_block : Z;
  pre_state_root : Hash256;
  post_state_root : Hash256;
  transactions_root : Hash256;
  state_proof : list Hash256;
  execution_trace : list Hash256;
  commitment : Hash256;
  proof_hash : Hash256;
  verification_key : Hash256
}.

(** [ValidityProof::compute_commitment] *)
Definition compute_commitment `{Crypto} (p : t) : Hash256 :=
  Blake2b256_hash
    (append_uint64 (batch_id p) ++ append_uint64 (start_block p)
     ++ append_uint64 (end_block p)
     ++ pre_state_root p ++ post_state_root p ++ transactions_root p
     ++ concat (state_proof p)).

End ValidityProof.

Module ZKProver.

Record t := mk { verification_key_ : Hash256 }.

(** The bytes of ["NONAGON_ZK_VK"]. *)
Definition vk_data : Bytes := [78; 79; 78; 65; 71; 79; 78; 95; 90; 75; 95; 86; 75].

(** [ZKProver::ZKProver] *)
Definition create `{Crypto} : t := mk (Blake2b256_hash vk_data).

(** [ZKProver::build_state_proof] *)
Definition build_state_proof `{Crypto} (pre post : Hash256) : list Hash256 :=
  [pre; Blake2b256_hash (pre ++ post); post].

(** [ZKProver::generate_proof_hash]: one hash and three more rounds. *)
Definition generate_proof_hash `{Crypto} (z : t) (commitment : Hash256)
  (trace : list Hash256) : Hash256 :=
  let data := commitment ++ verification_key_ z ++ concat trace in
  let result := Blake2b256_hash data in
  let result := Blake2b256_hash (result ++ commitment) in
  let result := Blake2b256_hash (result ++ commitment) in
  Blake2b256_hash (result ++ commitment).

(** [ZKProver::generate_proof].  With no blocks the three metadata members
    of the proof are never assigned and the commitment is computed from them;
    [None] stands for that. *)
Definition generate_proof `{Crypto} (z : t) (blocks : list Block.t)
  (pre_state_root post_state_root : Hash256)
  (receipts : list TransactionReceipt.t) : option ValidityProof.t :=
  match blocks, last blocks with
  | front :: _, Some back =>
      let transactions_root :=
        Blake2b256_merkle_root (Block.compute_transactions_root <$> blocks) in
      let state_proof := build_state_proof pre_state_root post_state_root in
      let execution_trace := TransactionReceipt.hash <$> receipts in
      let proof :=
        ValidityProof.mk (BlockHeader.batch_id (Block.header front))
          (BlockHeader.number (Block.header front))
          (BlockHeader.number (Block.header back))
          pre_state_root post_state_root transactions_root
          state_proof execution_trace
          (zero_bytes 32) (zero_bytes 32) (zero_bytes 32) in
      let commitment := ValidityProof.compute_commitment proof in
      Some (ValidityProof.mk (ValidityProof.batch_id proof)
              (ValidityProof.start_block proof) (ValidityProof.end_block proof)
              pre_state_root post_state_root transactions_root
              state_proof execution_trace commitment
              (generate_proof_hash z commitment execution_trace)
              (verification_key_ z))
  | _, _ => None
  end.

(** [ZKProver::verify_proof] *)
Definition verify_proof `{Crypto} (z : t) (proof : ValidityProof.t) : bool :=
  if bool_decide (ValidityProof.verification_key proof <> verification_key_ z)
  then false
  else if bool_decide (ValidityProof.compute_commitment proof
                       <> ValidityProof.commitment proof)
  then false
  else if bool_decide
            (generate_proof_hash z (ValidityProof.commitment proof)
               (ValidityProof.execution_trace proof)
             <> ValidityProof.proof_hash proof)
  then false
  else if (length (ValidityProof.state_proof proof) <? 2)%nat then false
  else if bool_decide (head (ValidityProof.state_proof proof)
                       <> Some (ValidityProof.pre_state_root proof))
  then false
  else true.

(** [ZKProver::generate_l1_proof] *)
Definition generate_l1_proof (proof : ValidityProof.t) : Bytes :=
  ValidityProof.commitment proof ++ ValidityProof.proof_hash proof
  ++ ValidityProof.pre_state_root proof ++ ValidityProof.post_state_root proof.

End ZKProver.

(** ** crypto.cpp: the Merkle tree over [Blake2b256::hash] *)

Module Blake2b256.
Section Merkle.
Context `{Crypto}.

(** [Blake2b256::combine_hashes] *)
Definition combine_hashes (left right : Hash256) : Hash256 :=
  Blake2b256_hash (left ++ right).

(** [current.push_back(current.back())] *)
Definition push_back_last (current : list Hash256) : list Hash256 :=
  match last current with
  | Some h => current ++ [h]
  | None => current
  end.

(** [for (i = 0; i < current.size(); i += 2)
       next.push_back(combine_hashes(current[i], current[i + 1]));]
    The loops below only run it on vectors of even size. *)
Fixpoint next_level (current : list Hash256) : list Hash256 :=
  match current with
  | l :: r :: rest => combine_hashes l r :: next_level rest
  | _ => []
  end.

(** [if (current.size() > 1 && current.size() % 2 != 0)
       current.push_back(current.back());] *)
Definition pad_level (current : list Hash256) : list Hash256 :=
  if (1 <? length current)%nat && Nat.odd (length current)
  then push_back_last current else current.

(** [while (current.size() > 1) { ... }] of [merkle_root].  Every pass at
    least halves the vector but for one element, which bounds the loop by the
    size of the vector. *)
Fixpoint root_loop (fuel : nat) (current : list Hash256) : list Hash256 :=
  match fuel with
  | O => current
  | S fuel' =>
      if (1 <? length current)%nat
      then root_loop fuel' (pad_level (next_level current))
      else current
  end.

(** [Blake2b256::merkle_root] *)
Definition merkle_root (leaves : list Hash256) : Hash256 :=
  match leaves with
  | [] => zero_bytes 32
  | [leaf] => leaf
  | _ =>
      let current :=
        if Nat.odd (length leaves) then push_back_last leaves else leaves in
      default (zero_bytes 32) (head (root_loop (length current) current))
  end.

(** The [while] loop of [merkle_proof]. *)
Fixpoint proof_loop (fuel : nat) (current : list Hash256) (idx : nat)
  (proof : list Hash256) : list Hash256 :=
  match fuel with
  | O => proof
  | S fuel' =>
      if (1 <? length current)%nat then
        let sibling_idx := if Nat.even idx then (idx + 1)%nat else (idx - 1)%nat in
        let proof' :=
          match current !! sibling_idx with
          | Some sibling => proof ++ [sibling]
          | None => proof
          end in
        proof_loop fuel' (pad_level (next_level current)) (idx / 2)%nat proof'
      else proof
  end.

(** [Blake2b256::merkle_proof] *)
Definition merkle_proof (leaves : list Hash256) (index : nat) : list Hash256 :=
  if bool_decide (leaves = []) || (length leaves <=? index)%nat then []
  else
    let current :=
      if Nat.odd (length leaves) then push_back_last leaves else leaves in
    proof_loop (length current) current index [].

(** One pass of the [for] loop of [verify_merkle_proof]. *)
Definition verify_step (state : Hash256 * nat) (sibling : Hash256) : Hash256 * nat :=
  let '(current, idx) := state in
  (if Nat.even idx then combine_hashes current sibling
   else combine_hashes sibling current,
   (idx / 2)%nat).

(** [Blake2b256::verify_merkle_proof] *)
Definition verify_merkle_proof (leaf : Hash256) (proof : list Hash256)
  (index : nat) (root : Hash256) : bool :=
  bool_decide ((foldl verify_step (leaf, index) proof).1 = root).

End Merkle.
End Blake2b256.

(** ** consensus/consensus.cpp: the mempool *)

Module Mempool.

Inductive AddResult :=
  | Added
  | Replaced
  | AlreadyKnown
  | Underpriced
  | NonceTooLow
  | NonceTooHigh
  | InsufficientFunds
  | PoolFull
  | Invalid.

#[global] Instance AddResult_eq_dec : EqDecision AddResult.
Proof. solve_decision. Defined.

Module SenderTxs.
Record t := mk {
  by_nonce : gmap Z Transaction.t;
  pending_nonce : Z
}.
(** The value-initialised entry [by_sender_[key]] creates. *)
Definition default : t := mk ∅ 0.
End SenderTxs.

Module TxPriority.
Record t := mk {
  hash : Hash256;
  effective_price : Z
}.
End TxPriority.

(** [std::priority_queue<TxPriority>] as the list of its elements in the
    order they leave the queue: highest [effective_price] first.  The order
    among equal prices is not fixed by the C++ container; here they leave in
    arrival order. *)
Fixpoint pq_push (x : TxPriority.t) (q : list TxPriority.t) : list TxPriority.t :=
  match q with
  | [] => [x]
  | y :: q' =>
      if TxPriority.effective_price y <? TxPriority.effective_price x
      then x :: y :: q'
      else y :: pq_push x q'
  end.

Record t := mk {
  max_size_ : Z;
  by_sender_ : gmap (list Z) SenderTxs.t;
  by_hash_ : gmap (list Z) Transaction.t;
  priority_queue_ : list TxPriority.t
}.

(** [Mempool(max_size)] *)
Definition create (max_size : Z) : t := mk max_size ∅ ∅ [].

(** [by_nonce.begin()->first]: the least nonce of a non-empty map. *)
Definition first_nonce (by_nonce : gmap Z Transaction.t) : option Z :=
  foldr (fun kv acc => match acc with
                       | Some m => Some (Z.min kv.1 m)
                       | None => Some kv.1
                       end)
        None (map_to_list by_nonce).

(** [while (by_nonce.find(pending_nonce) != by_nonce.end()) pending_nonce++;]
    The loop meets each key of the map at most once, which bounds it. *)
Fixpoint advance_pending (fuel : nat) (by_nonce : gmap Z Transaction.t)
  (pending : Z) : Z :=
  match fuel with
  | O => pending
  | S fuel' =>
      match by_nonce !! pending with
      | Some _ => advance_pending fuel' by_nonce (add64 pending 1)
      | None => pending
      end
  end.

(** [Mempool::add_transaction] *)
Definition add_transaction `{Crypto} (tx : Transaction.t) (sender_balance : Z)
  (pool : t) : AddResult * t :=
  let hash_str := Transaction.hash tx in
  if bool_decide (is_Some (by_hash_ pool !! hash_str)) then (AlreadyKnown, pool)
  else
    let required :=
      add64 (Transaction.value tx)
            (mul64 (Transaction.gas_limit tx) (Transaction.max_fee_per_gas tx)) in
    if sender_balance <? required then (InsufficientFunds, pool)
    else if Z.of_nat (size (by_hash_ pool)) >=? max_size_ pool then (PoolFull, pool)
    else
      let sender_key := Address.to_hex (Transaction.from tx) in
      let sender_txs := default SenderTxs.default (by_sender_ pool !! sender_key) in
      match SenderTxs.by_nonce sender_txs !! Transaction.nonce tx with
      | Some existing =>
          if Transaction.max_fee_per_gas tx
             <=? mul64 (Transaction.max_fee_per_gas existing) 110 / 100
          then
            (Underpriced,
             mk (max_size_ pool) (<[sender_key := sender_txs]> (by_sender_ pool))
                (by_hash_ pool) (priority_queue_ pool))
          else
            let old_hash_str := Transaction.hash existing in
            let sender_txs' :=
              SenderTxs.mk (<[Transaction.nonce tx := tx]> (SenderTxs.by_nonce sender_txs))
                           (SenderTxs.pending_nonce sender_txs) in
            (Replaced,
             mk (max_size_ pool)
                (<[sender_key := sender_txs']> (by_sender_ pool))
                (<[hash_str := tx]> (delete old_hash_str (by_hash_ pool)))
                (priority_queue_ pool))
      | None =>
          let by_nonce' := <[Transaction.nonce tx := tx]> (SenderTxs.by_nonce sender_txs) in
          let pending' :=
            if bool_decide (first_nonce by_nonce' = Some (SenderTxs.pending_nonce sender_txs))
            then advance_pending (S (size by_nonce')) by_nonce'
                                 (SenderTxs.pending_nonce sender_txs)
            else SenderTxs.pending_nonce sender_txs in
          (Added,
           mk (max_size_ pool)
              (<[sender_key := SenderTxs.mk by_nonce' pending']> (by_sender_ pool))
              (<[hash_str := tx]> (by_hash_ pool))
              (pq_push (TxPriority.mk hash_str (Transaction.max_fee_per_gas tx))
                       (priority_queue_ pool)))
      end.

(** [Mempool::remove_transaction] *)
Definition remove_transaction (hash : Hash256) (pool : t) : bool * t :=
  match by_hash_ pool !! hash with
  | None => (false, pool)
  | Some tx =>
      let sender_key := Address.to_hex (Transaction.from tx) in
      let by_sender' :=
        match by_sender_ pool !! sender_key with
        | Some sender_txs =>
            let by_nonce' := delete (Transaction.nonce tx) (SenderTxs.by_nonce sender_txs) in
            if bool_decide (by_nonce' = ∅)
            then delete sender_key (by_sender_ pool)
            else <[sender_key := SenderTxs.mk by_nonce' (SenderTxs.pending_nonce sender_txs)]>
                   (by_sender_ pool)
        | None => by_sender_ pool
        end in
      (true, mk (max_size_ pool) by_sender' (delete hash (by_hash_ pool))
                (priority_queue_ pool))
  end.

(** [Mempool::get_transaction] *)
Definition get_transaction (hash : Hash256) (pool : t) : option Transaction.t :=
  by_hash_ pool !! hash.

(** The key order of [std::map<uint64_t, Transaction>]. *)
Definition nonce_le (x y : Z * Transaction.t) : Prop := x.1 <= y.1.

#[global] Instance nonce_le_dec x y : Decision (nonce_le x y).
Proof. unfold nonce_le. apply _. Defined.

(** [Mempool::get_pending_for]: the sender's transactions in nonce order. *)
Definition get_pending_for (a : Address.t) (pool : t) : list Transaction.t :=
  match by_sender_ pool !! Address.to_hex a with
  | None => []
  | Some sender_txs =>
      snd <$> merge_sort nonce_le (map_to_list (SenderTxs.by_nonce sender_txs))
  end.

(** [Mempool::size] *)
Definition size_ (pool : t) : nat := size (by_hash_ pool).

(** [Mempool::rebuild_priority_queue]: the queue is emptied and refilled from
    [by_hash_], visited in the order [map_to_list] lists it. *)
Definition rebuild_priority_queue (base_fee : Z) (pool : t) : list TxPriority.t :=
  foldl (fun q kv =>
           pq_push (TxPriority.mk kv.1 (Transaction.effective_gas_price kv.2 base_fee)) q)
        [] (map_to_list (by_hash_ pool)).

(** The [while] loop of [Mempool::get_block_transactions].  It returns the
    selected transactions and what is left of the queue. *)
Fixpoint select_loop (queue : list TxPriority.t)
  (by_hash : gmap (list Z) Transaction.t) (gas_limit base_fee : Z)
  (result : list Transaction.t) (selected_hashes : gset (list Z)) (gas_used : Z)
  : list Transaction.t * list TxPriority.t :=
  match queue with
  | [] => (result, [])
  | top :: queue' =>
      if gas_used <? gas_limit then
        let hash_str := TxPriority.hash top in
        match by_hash !! hash_str with
        | None => select_loop queue' by_hash gas_limit base_fee result selected_hashes gas_used
        | Some tx =>
            if bool_decide (hash_str ∈ selected_hashes) then
              select_loop queue' by_hash gas_limit base_fee result selected_hashes gas_used
            else if add64 gas_used (Transaction.gas_limit tx) >? gas_limit then
              select_loop queue' by_hash gas_limit base_fee result selected_hashes gas_used
            else if Transaction.effective_gas_price tx base_fee <? base_fee then
              select_loop queue' by_hash gas_limit base_fee result selected_hashes gas_used
            else
              select_loop queue' by_hash gas_limit base_fee (result ++ [tx])
                          ({[hash_str]} ∪ selected_hashes)
                          (add64 gas_used (Transaction.gas_limit tx))
        end
      else (result, queue)
  end.

(** [Mempool::get_block_transactions] *)
Definition get_block_transactions (gas_limit base_fee : Z) (pool : t)
  : list Transaction.t * t :=
  let queue := rebuild_priority_queue base_fee pool in
  let '(result, queue') :=
    select_loop queue (by_hash_ pool) gas_limit base_fee [] ∅ 0 in
  (result, mk (max_size_ pool) (by_sender_ pool) (by_hash_ pool) queue').

(** [Mempool::get_pending_nonce] *)
Definition get_pending_nonce (a : Address.t) (pool : t) : Z :=
  match by_sender_ pool !! Address.to_hex a with
  | Some sender_txs => SenderTxs.pending_nonce sender_txs
  | None => 0
  end.

(** [Mempool::remove_confirmed] *)
Definition remove_confirmed (hashes : list Hash256) (pool : t) : t :=
  foldl (fun pool hash => (remove_transaction hash pool).2) pool hashes.

Module Stats.
Record t := mk {
  pending_count : nat;
  queued_count : nat;
  min_gas_price : Z;
  max_gas_price : Z
}.
End Stats.

(** [Mempool::get_stats]; [UINT64_MAX] is [2 ^ 64 - 1]. *)
Definition get_stats (pool : t) : Stats.t :=
  let '(min_gas_price, max_gas_price) :=
    foldl (fun stats kv =>
             let fee := Transaction.max_fee_per_gas kv.2 in
             (if fee <? stats.1 then fee else stats.1,
              if fee >? stats.2 then fee else stats.2))
          (2 ^ 64 - 1, 0) (map_to_list (by_hash_ pool)) in
  Stats.mk (size (by_hash_ pool)) 0
           (if min_gas_price =? 2 ^ 64 - 1 then 0 else min_gas_price)
           max_gas_price.

End Mempool.

(** ** consensus/consensus.cpp: the rotating sequencer set *)

Module ConsensusEngine.

Inductive SequencerStatus := Active | Standby | Slashed | Exiting.

#[global] Instance SequencerStatus_eq_dec : EqDecision SequencerStatus.
Proof. solve_decision. Defined.

Module Sequencer.
Record t := mk {
  address : Address.t;
  public_key : Bytes;
  stake : Z;
  last_block_produced : Z;
  status : SequencerStatus;
  blocks_produced : Z;
  missed_slots : Z
}.
Definition with_status (s : t) (st : SequencerStatus) : t :=
  mk (address s) (public_key s) (stake s) (last_block_produced s) st
     (blocks_produced s) (missed_slots s).
End Sequencer.

(** The two members of [ConsensusConfig] that the sequencer set reads. *)
Module ConsensusConfig.
Record t := mk {
  max_sequencers : Z;
  min_stake : Z
}.
End ConsensusConfig.

Record t := mk {
  config_ : ConsensusConfig.t;
  sequencers_ : list Sequencer.t;
  active_set_ : list Sequencer.t
}.

(** [ConsensusEngine(config)] *)
Definition create (config : ConsensusConfig.t) : t := mk config [] [].

(** The comparator handed to [std::sort]: [a.stake > b.stake]. *)
Definition stake_gt (a b : Sequencer.t) : bool :=
  Sequencer.stake a >? Sequencer.stake b.

(** [std::sort] with that comparator, as the insertion sort the standard
    library runs on short ranges: an element moves in front of exactly the
    elements the comparator puts it before.  The comparator never looks at
    the address, so sequencers of equal stake keep their relative order. *)
Fixpoint sort_insert (x : Sequencer.t) (sorted : list Sequencer.t)
  : list Sequencer.t :=
  match sorted with
  | [] => [x]
  | y :: rest => if stake_gt x y then x :: y :: rest else y :: sort_insert x rest
  end.

Definition sort_by_stake (l : list Sequencer.t) : list Sequencer.t :=
  foldl (fun sorted x => sort_insert x sorted) [] l.

Definition eligible_b (config : ConsensusConfig.t) (s : Sequencer.t) : bool :=
  (bool_decide (Sequencer.status s = Active)
   || bool_decide (Sequencer.status s = Standby))
  && (Sequencer.stake s >=? ConsensusConfig.min_stake config).

(** [ConsensusEngine::update_active_set] *)
Definition update_active_set (e : t) : t :=
  let eligible := filter (fun s => eligible_b (config_ e) s = true) (sequencers_ e) in
  let sorted := sort_by_stake eligible in
  let count := Nat.min (length sorted)
                       (Z.to_nat (ConsensusConfig.max_sequencers (config_ e))) in
  mk (config_ e) (sequencers_ e)
     ((fun s => Sequencer.with_status s Active) <$> take count sorted).

(** [*it = seq] at the first sequencer with that address. *)
Fixpoint replace_first (seq : Sequencer.t) (l : list Sequencer.t)
  : option (list Sequencer.t) :=
  match l with
  | [] => None
  | s :: rest =>
      if bool_decide (Sequencer.address s = Sequencer.address seq)
      then Some (seq :: rest)
      else cons s <$> replace_first seq rest
  end.

(** [ConsensusEngine::register_sequencer] *)
Definition register_sequencer (seq : Sequencer.t) (e : t) : bool * t :=
  if Sequencer.stake seq <? ConsensusConfig.min_stake (config_ e) then (false, e)
  else
    let sequencers' :=
      match replace_first seq (sequencers_ e) with
      | Some l => l
      | None => sequencers_ e ++ [seq]
      end in
    (true, update_active_set (mk (config_ e) sequencers' (active_set_ e))).

(** [ConsensusEngine::total_active_stake] *)
Definition total_active_stake (e : t) : Z :=
  let total := foldl (fun total s => add64 total (Sequencer.stake s)) 0 (active_set_ e) in
  if total >? 0 then total else 1.

(** The [for] loop of [get_leader_for_slot]; [None] when it runs off the end. *)
Fixpoint leader_walk (slot_stake cumulative : Z) (l : list Sequencer.t)
  : option Address.t :=
  match l with
  | [] => None
  | seq :: rest =>
      let cumulative := add64 cumulative (Sequencer.stake seq) in
      if slot_stake <? cumulative then Some (Sequencer.address seq)
      else leader_walk slot_stake cumulative rest
  end.

(** [ConsensusEngine::get_leader_for_slot] *)
Definition get_leader_for_slot (slot : Z) (e : t) : Address.t :=
  match active_set_ e with
  | [] => Address.default
  | first :: _ =>
      let total_stake := total_active_stake e in
      let slot_stake := slot mod total_stake in
      match leader_walk slot_stake 0 (active_set_ e) with
      | Some a => a
      | None => Sequencer.address first
      end
  end.

(** [it = std::find_if(...)] by address followed by an assignment to a member
    of [*it]: the first sequencer with the address is changed; [None] when
    [it == sequencers_.end()]. *)
Fixpoint change_first (f : Sequencer.t -> Sequencer.t) (addr : Address.t)
  (l : list Sequencer.t) : option (list Sequencer.t) :=
  match l with
  | [] => None
  | s :: rest =>
      if bool_decide (Sequencer.address s = addr) then Some (f s :: rest)
      else cons s <$> change_first f addr rest
  end.

Definition with_stake (s : Sequencer.t) (stake : Z) : Sequencer.t :=
  Sequencer.mk (Sequencer.address s) (Sequencer.public_key s) stake
               (Sequencer.last_block_produced s) (Sequencer.status s)
               (Sequencer.blocks_produced s) (Sequencer.missed_slots s).

(** [ConsensusEngine::unregister_sequencer] *)
Definition unregister_sequencer (addr : Address.t) (e : t) : bool * t :=
  match change_first (fun s => Sequencer.with_status s Exiting) addr (sequencers_ e) with
  | Some sequencers' =>
      (true, update_active_set (mk (config_ e) sequencers' (active_set_ e)))
  | None => (false, e)
  end.

(** [ConsensusEngine::update_stake] *)
Definition update_stake (addr : Address.t) (new_stake : Z) (e : t) : t :=
  match change_first (fun s => with_stake s new_stake) addr (sequencers_ e) with
  | Some sequencers' => update_active_set (mk (config_ e) sequencers' (active_set_ e))
  | None => e
  end.

(** [ConsensusEngine::get_active_sequencers] *)
Definition get_active_sequencers (e : t) : list Sequencer.t := active_set_ e.

(** [ConsensusEngine::is_my_slot] *)
Definition is_my_slot (slot : Z) (my_addr : Address.t) (e : t) : bool :=
  bool_decide (get_leader_for_slot slot e = my_addr).

(** [for (uint64_t s = current_slot + 1; s < current_slot + 10000; ++s)], with
    [bound] for [current_slot + 10000]; the result of running off the loop is
    [UINT64_MAX].  The loop makes fewer than 10000 rounds, the fuel
    [next_slot_for] gives it. *)
Fixpoint next_slot_loop (fuel : nat) (addr : Address.t) (s bound : Z) (e : t) : Z :=
  match fuel with
  | O => 2 ^ 64 - 1
  | S fuel' =>
      if s <? bound then
        if bool_decide (get_leader_for_slot s e = addr) then s
        else next_slot_loop fuel' addr (add64 s 1) bound e
      else 2 ^ 64 - 1
  end.

(** [ConsensusEngine::next_slot_for] *)
Definition next_slot_for (addr : Address.t) (current_slot : Z) (e : t) : Z :=
  next_slot_loop (Z.to_nat 10000) addr (add64 current_slot 1)
                 (add64 current_slot 10000) e.

Module SlashingEvidence.

Inductive Type_ := DoubleSign | InvalidBlock | Unavailability | DataWithholding.

Record t := mk {
  type : Type_;
  sequencer : Address.t;
  block_number : Z;
  evidence_data : Bytes;
  slash_amount : Z
}.

End SlashingEvidence.

Module ValidationResult.
Record t := mk { valid : bool; error : string }.
End ValidationResult.

(** The engine with the members the functions above do not touch: the chain
    state and the slashing queue.  [head_hash_] has no initialiser, so a new
    engine holds an arbitrary one. *)
Record chain := mkChain {
  engine : t;
  chain_head_ : Z;
  head_hash_ : Hash256;
  l1_checkpoints_ : list Hash256;
  pending_slashings_ : list SlashingEvidence.t
}.

Definition with_engine (c : chain) (e : t) : chain :=
  mkChain e (chain_head_ c) (head_hash_ c) (l1_checkpoints_ c) (pending_slashings_ c).

(** [ConsensusEngine::produce_block]; [now] is the clock reading, in seconds.
    The members the function does not assign keep the defaults of
    [BlockHeader]. *)
Definition produce_block `{Crypto} (now : Z) (sequencer : Address.t)
  (parent_hash : Hash256) (txs : list Transaction.t) (state_root : Hash256)
  (c : chain) : option Block.t :=
  let total_gas :=
    foldl (fun total tx => add64 total (Transaction.gas_limit tx)) 0 txs in
  let transactions_root :=
    Block.compute_transactions_root (Block.mk BlockHeader.default txs) in
  Some (Block.mk
          (BlockHeader.mk (add64 (chain_head_ c) 1) parent_hash state_root
                          transactions_root
                          (BlockHeader.receipts_root BlockHeader.default)
                          sequencer
                          (BlockHeader.gas_limit BlockHeader.default)
                          total_gas
                          (BlockHeader.base_fee BlockHeader.default)
                          now
                          (BlockHeader.l1_block_number BlockHeader.default)
                          (BlockHeader.batch_id BlockHeader.default))
          txs).

(** [ConsensusEngine::validate_block] *)
Definition validate_block `{Crypto} (block : Block.t) (c : chain)
  : ValidationResult.t :=
  let header := Block.header block in
  if negb (BlockHeader.number header =? add64 (chain_head_ c) 1) then
    ValidationResult.mk false "Invalid block number"
  else if negb (bool_decide (BlockHeader.parent_hash header = head_hash_ c)) then
    ValidationResult.mk false "Parent hash mismatch"
  else
    let slot := BlockHeader.number header in
    let expected_leader := get_leader_for_slot slot (engine c) in
    if negb (bool_decide (BlockHeader.sequencer header = expected_leader)) then
      ValidationResult.mk false "Invalid sequencer for slot"
    else if negb (bool_decide (Block.compute_transactions_root block
                               = BlockHeader.transactions_root header)) then
      ValidationResult.mk false "Transactions root mismatch"
    else if BlockHeader.gas_used header >? BlockHeader.gas_limit header then
      ValidationResult.mk false "Gas used exceeds limit"
    else ValidationResult.mk true "".

(** [ConsensusEngine::get_canonical_head] *)
Definition get_canonical_head (c : chain) : Hash256 := head_hash_ c.

(** [ConsensusEngine::process_block].  The callbacks registered with
    [on_new_block] run outside the engine's state and are not part of the
    model. *)
Definition process_block `{Crypto} (block : Block.t) (c : chain) : bool * chain :=
  let validation := validate_block block c in
  if negb (ValidationResult.valid validation) then (false, c)
  else
    (true,
     mkChain (engine c) (BlockHeader.number (Block.header block))
             (BlockHeader.hash (Block.header block))
             (l1_checkpoints_ c) (pending_slashings_ c)).

(** [ConsensusEngine::set_l1_checkpoint] *)
Definition set_l1_checkpoint (block_number : Z) (block_hash : Hash256)
  (c : chain) : chain :=
  let checkpoints :=
    if (100 <? length (l1_checkpoints_ c))%nat then tail (l1_checkpoints_ c)
    else l1_checkpoints_ c in
  mkChain (engine c) (chain_head_ c) (head_hash_ c) (checkpoints ++ [block_hash])
          (pending_slashings_ c).

(** [ConsensusEngine::report_misbehavior] *)
Definition report_misbehavior (evidence : SlashingEvidence.t) (c : chain) : chain :=
  let e := engine c in
  let e' :=
    match change_first (fun s => Sequencer.with_status s Slashed)
                       (SlashingEvidence.sequencer evidence) (sequencers_ e) with
    | Some sequencers' => update_active_set (mk (config_ e) sequencers' (active_set_ e))
    | None => e
    end in
  mkChain e' (chain_head_ c) (head_hash_ c) (l1_checkpoints_ c)
          (pending_slashings_ c ++ [evidence]).

(** [ConsensusEngine::get_pending_slashings] *)
Definition get_pending_slashings (c : chain) : list SlashingEvidence.t :=
  pending_slashings_ c.



End ConsensusEngine.

(** * Notions used in the statements

    Nothing below is part of the node: these are the observations, the
    specification-side definitions and the literal inputs the properties are
    stated with. *)

(** ** Concrete data for running the model

    A stand-in for the primitives of [crypto.hpp], so that the model can be
    evaluated on literal inputs: a positional checksum in place of Blake2b,
    the checksum of the concatenated leaves in place of the Merkle root, and a
    signature scheme whose only valid signature is the message digest
    followed by the public key. *)

Definition checksum (data : Bytes) : Z :=
  foldl (fun acc b => (acc * 257 + b + 1) mod 2305843009213693951) 0 data.

Definition checksum_bytes (data : Bytes) : Hash256 :=
  let c := checksum data in
  (fun i => Z.land (Z.shiftr c (Z.of_nat i * 8)) 255) <$> reverse (seq 0 32).

#[global] Instance test_crypto : Crypto := {|
  Blake2b256_hash := checksum_bytes;
  Blake2b256_merkle_root leaves := checksum_bytes (concat leaves);
  Ed25519_verify h sig pk := bool_decide (sig = h ++ pk)
|}.

Module Scenario.

(** Addresses [0x…01] and [0x…02] of the specification's seed tests, and a
    sequencer address. *)
Definition addr_of (last : Z) : Address.t :=
  Address.mk Address.Enterprise (replicate 27 0 ++ [last]) None true.

Definition A : Address.t := addr_of 1.
Definition B : Address.t := addr_of 2.
Definition coinbase : Address.t := addr_of 9.

Definition ff_signature : Bytes := replicate 64 255.
Definition zero_signature : Bytes := replicate 64 0.

(** A plain transfer from [A] to [B] with the given nonce, fee cap and
    signature. *)
Definition transfer (nonce max_fee : Z) (sig : Bytes) : Transaction.t :=
  Transaction.mk A B 1000 nonce [] 21000 max_fee 0 (replicate 32 7) sig.

End Scenario.

(** ** The state store *)

Section StoreNotions.
Context `{Crypto}.

(** The bytes the trie returns for a hashed key, and the account they
    decode to. *)
Definition raw_at (db : Database.t) (tr : StateTrie.t) (key_hash : Hash256)
  : option Bytes :=
  match StateTrie.dirty_nodes_ tr !! key_hash with
  | Some v => Some v
  | None => db !! StateTrie.db_key key_hash
  end.

Definition view_at (db : Database.t) (tr : StateTrie.t) (key_hash : Hash256)
  : AccountState.t :=
  match raw_at db tr key_hash with
  | Some data => AccountState.decode data
  | None => AccountState.default
  end.

(** Every account the store holds is a value of the C++ type. *)
Definition accounts_wf (st : StateManager.t) : Prop :=
  forall key_hash,
    AccountState.wf
      (view_at (StateManager.db_ st) (StateManager.account_trie_ st) key_hash).

(** The mutations of the state store. *)
Inductive mutation :=
  | SetAccount (a : Address.t) (s : AccountState.t)
  | AddBalance (a : Address.t) (amount : Z)
  | SubBalance (a : Address.t) (amount : Z)
  | IncrementNonce (a : Address.t)
  | SetStorage (a : Address.t) (key : Hash256) (value : Bytes)
  | SetCode (a : Address.t) (code : Bytes).

Definition apply_mutation (m : mutation) (st : StateManager.t) : StateManager.t :=
  match m with
  | SetAccount a s => StateManager.set_account a s st
  | AddBalance a amount => StateManager.add_balance a amount st
  | SubBalance a amount => StateManager.sub_balance a amount st
  | IncrementNonce a => StateManager.increment_nonce a st
  | SetStorage a key value => StateManager.set_storage a key value st
  | SetCode a code => StateManager.set_code a code st
  end.

Definition apply_mutations (ms : list mutation) (st : StateManager.t)
  : StateManager.t :=
  foldl (fun st m => apply_mutation m st) st ms.

(** Undoing a run of journal entries, most recent first. *)
Definition rewind (entries : list StateManager.JournalEntry) (tr : StateTrie.t)
  : StateTrie.t :=
  foldl (fun tr entry => StateManager.undo entry tr) tr entries.

(** [st] can be taken back to [st0]: its journal extends that of [st0], and
    undoing the extension gives back every account of [st0]. *)
Definition restorable (st0 st : StateManager.t) : Prop :=
  exists entries,
    StateManager.journal_ st = entries ++ StateManager.journal_ st0
    /\ forall kh,
         view_at (StateManager.db_ st) (rewind entries (StateManager.account_trie_ st)) kh
         = view_at (StateManager.db_ st0) (StateManager.account_trie_ st0) kh.

(** The Merkle leaf [StateTrie::commit] computes for one account entry. *)
Definition account_leaf (a : Address.t) (s : AccountState.t) : Hash256 :=
  Blake2b256_hash (Blake2b256_hash (Address.payment_credential a)
                   ++ AccountState.encode s).

End StoreNotions.

(** What the caller of [sub_balance] is told, in the specification's words
    and in the code. *)
Module SubBalanceOutcome.

Inductive t :=
  | BalanceUnderflow
  | Completed (st : StateManager.t).

(** The specification: underflow fails with [BalanceUnderflow]; otherwise the
    balance is decreased. *)
Definition spec_sub_balance `{Crypto} (a : Address.t) (amount : Z)
  (st : StateManager.t) : t :=
  if StateManager.get_balance a st <? amount then BalanceUnderflow
  else Completed
         (StateManager.set_account a
            (StateManager.with_balance (StateManager.get_account a st)
               (StateManager.get_balance a st - amount)) st).

(** The code: a [void] function returns normally on every input. *)
Definition code_sub_balance `{Crypto} (a : Address.t) (amount : Z)
  (st : StateManager.t) : t :=
  Completed (StateManager.sub_balance a amount st).

End SubBalanceOutcome.

(** Stores used as literal inputs. *)
Module StoreScenario.

(** An account with the given balance, written to a fresh store. *)
Definition account_with (bal : Z) : AccountState.t :=
  AccountState.mk 0 bal (zero_bytes 32) (zero_bytes 32).

Definition funded (a : Address.t) (bal : Z) : StateManager.t :=
  StateManager.set_account a (account_with bal) (StateManager.create ∅).

Definition slot0 : Hash256 := zero_bytes 32.

(** Two histories that write the same two accounts, in opposite order, with
    a commit after each write. *)
Definition history_AB : Hash256 * StateManager.t :=
  let st1 := StateManager.set_account Scenario.A (account_with 100) (StateManager.create ∅) in
  let st2 := (StateManager.commit st1).2 in
  StateManager.commit (StateManager.set_account Scenario.B (account_with 200) st2).

Definition history_BA : Hash256 * StateManager.t :=
  let st1 := StateManager.set_account Scenario.B (account_with 200) (StateManager.create ∅) in
  let st2 := (StateManager.commit st1).2 in
  StateManager.commit (StateManager.set_account Scenario.A (account_with 100) st2).

End StoreScenario.

(** ** The transaction processor *)

(** The validation the specification lists, in its order and with its error
    names, next to the code's result read in those names. *)
Module ProcessSpec.

Inductive ValidationError :=
  | BadNonce
  | FeeTooLow
  | IntrinsicTooLow
  | InsufficientFunds
  | BadSignature.

Definition spec_validate `{Crypto} (tx : Transaction.t) (base_fee : Z)
  (sm : StateManager.t) : option ValidationError :=
  if negb (Transaction.nonce tx =? StateManager.get_nonce (Transaction.from tx) sm)
  then Some BadNonce
  else if Transaction.max_fee_per_gas tx <? base_fee then Some FeeTooLow
  else if Transaction.gas_limit tx <? TransactionProcessor.intrinsic_gas tx
  then Some IntrinsicTooLow
  else if StateManager.get_balance (Transaction.from tx) sm
          <? Transaction.value tx
             + Transaction.gas_limit tx * Transaction.max_fee_per_gas tx
  then Some InsufficientFunds
  else if negb (Transaction.verify_signature tx) then Some BadSignature
  else None.

(** The error strings of [TransactionProcessor::validate]. *)
Definition error_named (e : string) : option ValidationError :=
  if bool_decide (e = "Invalid nonce") then Some BadNonce
  else if bool_decide (e = "Insufficient balance") then Some InsufficientFunds
  else if bool_decide (e = "Gas limit too low") then Some IntrinsicTooLow
  else if bool_decide (e = "Max fee below base fee") then Some FeeTooLow
  else None.

Definition code_validate `{Crypto} (tx : Transaction.t) (base_fee : Z)
  (sm : StateManager.t) : option ValidationError :=
  let v := TransactionProcessor.validate tx base_fee sm in
  if TransactionProcessor.ValidationResult.valid v then None
  else error_named (TransactionProcessor.ValidationResult.error v).

End ProcessSpec.

(** What [process] returns when validation fails with the error [e]. *)
Definition rejected (e : string) : TransactionProcessor.ProcessResult.t :=
  TransactionProcessor.ProcessResult.mk TransactionReceipt.default None false e.

(** The 64-bit cost [validate] compares the balance with. *)
Definition validation_cost (tx : Transaction.t) : Z :=
  add64 (Transaction.value tx)
        (mul64 (Transaction.gas_limit tx) (Transaction.max_fee_per_gas tx)).

(** A contract call used as literal input. *)
Module ExecScenario.

Definition contract : Address.t :=
  Address.mk Address.Script (replicate 27 0 ++ [0xCC]) None true.

(** PUSH1 1, PUSH1 0, SSTORE, PUSH1 0, PUSH1 0, REVERT *)
Definition reverting_code : Bytes :=
  [0x60; 1; 0x60; 0; 0x55; 0x60; 0; 0x60; 0; 0xFD].

(** PUSH1 1, PUSH1 0, SSTORE, PUSH1 1, PUSH1 1, SSTORE *)
Definition two_stores_code : Bytes :=
  [0x60; 1; 0x60; 0; 0x55; 0x60; 1; 0x60; 1; 0x55].

(** Base fee 1, coinbase [0x…09]. *)
Definition ctx (base_fee : Z) : ExecutionContext.t :=
  ExecutionContext.mk Scenario.A Scenario.A Scenario.coinbase 1 0 30000000 1
                      base_fee 1 (zero_bytes 32).

(** [A] holds 10^9 units and the contract holds the given code. *)
Definition world (code : Bytes) : StateManager.t :=
  StateManager.set_code contract code (StoreScenario.funded Scenario.A 1000000000).

(** A call from [A] to the contract: no value, fee cap 2, no tip. *)
Definition call_tx (gas : Z) : Transaction.t :=
  Transaction.mk Scenario.A contract 0 0 [] gas 2 0 (replicate 32 7)
                 Scenario.ff_signature.

(** A transfer whose gas limit is below the intrinsic 21000. *)
Definition low_gas_tx : Transaction.t :=
  Transaction.mk Scenario.A Scenario.B 1000 0 [] 20000 2 0 (replicate 32 7)
                 Scenario.ff_signature.

(** The word [1] as SSTORE writes it. *)
Definition one_word : Bytes := uint256.to_bytes (uint256.mk 0 0 0 1).

End ExecScenario.

(** ** The mempool *)

Section PoolNotions.
Context `{Crypto}.

(** The transaction pooled under the sender key and nonce of [tx], if any. *)
Definition pooled_at (tx : Transaction.t) (pool : Mempool.t)
  : option Transaction.t :=
  Mempool.SenderTxs.by_nonce
    (default Mempool.SenderTxs.default
       (Mempool.by_sender_ pool !! Address.to_hex (Transaction.from tx)))
  !! Transaction.nonce tx.

(** The 64-bit amount [add_transaction] compares the sender balance with. *)
Definition required_funds (tx : Transaction.t) : Z :=
  add64 (Transaction.value tx)
        (mul64 (Transaction.gas_limit tx) (Transaction.max_fee_per_gas tx)).

(** The three guards [add_transaction] runs before it looks at the nonce. *)
Definition admissible (tx : Transaction.t) (sender_balance : Z)
  (pool : Mempool.t) : Prop :=
  Mempool.by_hash_ pool !! Transaction.hash tx = None
  /\ required_funds tx <= sender_balance
  /\ Z.of_nat (size (Mempool.by_hash_ pool)) < Mempool.max_size_ pool.

End PoolNotions.

(** The summed gas limit of a list of transactions, as an unbounded integer. *)
Definition sum_gas (l : list Transaction.t) : Z :=
  foldr (fun tx acc => Transaction.gas_limit tx + acc) 0 l.



(** No gas limit in the pool is large enough to wrap the 64-bit gas counter. *)
Definition gas_fits (gas_limit : Z) (tx : Transaction.t) : Prop :=
  0 <= Transaction.gas_limit tx /\ gas_limit + Transaction.gas_limit tx < 2 ^ 64.

#[global] Instance gas_fits_dec (gas_limit : Z) (tx : Transaction.t) :
  Decision (gas_fits gas_limit tx).
Proof. unfold gas_fits. apply _. Defined.

(** Pools used as literal inputs. *)
Module PoolScenario.

Definition balance : Z := 1000000000000000000.

(** [A]'s transfer with the given nonce and fee cap. *)
Definition tx (nonce max_fee : Z) : Transaction.t :=
  Scenario.transfer nonce max_fee Scenario.ff_signature.

(** A pool that holds [A]'s transaction with nonce 0 and fee cap 10^9. *)
Definition pool0 : Mempool.t :=
  (Mempool.add_transaction (tx 0 1000000000) balance (Mempool.create 10000)).2.

(** The same pool after [A] has also submitted nonce 2. *)
Definition pool02 : Mempool.t :=
  (Mempool.add_transaction (tx 2 1000000000) balance pool0).2.

(** A transaction whose gas limit is 1000 short of 2^64: its 64-bit cost
    [value + gas_limit * max_fee] wraps to 0. *)
Definition huge_gas_tx : Transaction.t :=
  Transaction.mk Scenario.B Scenario.A 1000 0 [] (2 ^ 64 - 1000) 1 0
                 (replicate 32 8) Scenario.ff_signature.

(** A transfer of [A] that pays a tip, so that it leaves the queue first. *)
Definition tipped_tx : Transaction.t :=
  Transaction.mk Scenario.A Scenario.B 0 0 [] 21000 2 1
                 (replicate 32 7) Scenario.ff_signature.

Definition pool_huge : Mempool.t :=
  (Mempool.add_transaction huge_gas_tx 0
     (Mempool.add_transaction tipped_tx balance (Mempool.create 10000)).2).2.

End PoolScenario.

(** ** The rotating sequencer set *)

(** The leader rule in the specification's words: order the active set by
    descending stake, sequencers of equal stake by their address bytes, and
    take the first sequencer whose running total of stake exceeds
    [slot mod total_stake]. *)
Module LeaderSpec.

Import ConsensusEngine.

(** Bytewise (lexicographic) order. *)
Fixpoint bytes_ltb (a b : Bytes) : bool :=
  match a, b with
  | [], _ :: _ => true
  | x :: a', y :: b' => (x <? y) || ((x =? y) && bytes_ltb a' b')
  | _, [] => false
  end.

Definition spec_before (a b : Sequencer.t) : bool :=
  (Sequencer.stake a >? Sequencer.stake b)
  || ((Sequencer.stake a =? Sequencer.stake b)
      && bytes_ltb (Address.payment_credential (Sequencer.address a))
                   (Address.payment_credential (Sequencer.address b))).

Fixpoint spec_insert (x : Sequencer.t) (sorted : list Sequencer.t)
  : list Sequencer.t :=
  match sorted with
  | [] => [x]
  | y :: rest => if spec_before x y then x :: y :: rest else y :: spec_insert x rest
  end.

Definition spec_order (l : list Sequencer.t) : list Sequencer.t :=
  foldr spec_insert [] l.

Fixpoint spec_walk (v running : Z) (l : list Sequencer.t) : option Address.t :=
  match l with
  | [] => None
  | seq :: rest =>
      let running := running + Sequencer.stake seq in
      if v <? running then Some (Sequencer.address seq)
      else spec_walk v running rest
  end.

Definition spec_leader (slot : Z) (active : list Sequencer.t) : option Address.t :=
  let ordered := spec_order active in
  let total := foldr (fun s acc => Sequencer.stake s + acc) 0 ordered in
  spec_walk (slot mod total) 0 ordered.

End LeaderSpec.

Section SequencerNotions.

Import ConsensusEngine.

(** The summed stake of a list of sequencers, as an unbounded integer. *)
Fixpoint sum_stake (l : list Sequencer.t) : Z :=
  match l with
  | [] => 0
  | s :: rest => Sequencer.stake s + sum_stake rest
  end.

(** [a] may stand before [b] in an order of descending stake. *)
Definition stake_ge (a b : Sequencer.t) : Prop :=
  Sequencer.stake b <= Sequencer.stake a.

Definition stake_nonneg (s : Sequencer.t) : Prop := 0 <= Sequencer.stake s.

End SequencerNotions.

#[global] Instance stake_nonneg_dec (s : ConsensusEngine.Sequencer.t) :
  Decision (stake_nonneg s).
Proof. unfold stake_nonneg. apply _. Defined.

(** Sequencer registries used as literal inputs. *)
Module SequencerScenario.

Import ConsensusEngine.

Definition config : ConsensusConfig.t := ConsensusConfig.mk 21 1.

Definition sequencer (a : Address.t) (stake : Z) : Sequencer.t :=
  Sequencer.mk a (replicate 32 0) stake 0 Standby 0 0.

(** Two sequencers with stakes 3 and 1. *)
Definition engine31 : t :=
  (register_sequencer (sequencer Scenario.B 1)
     (register_sequencer (sequencer Scenario.A 3) (create config)).2).2.

(** Two sequencers of equal stake; the one with the larger address
    registers first. *)
Definition engine_tie : t :=
  (register_sequencer (sequencer Scenario.A 5)
     (register_sequencer (sequencer Scenario.B 5) (create config)).2).2.

End SequencerScenario.

(** ** Serialisation

    The values the C++ types can hold, and what is left of a value once it has
    gone through its encoder and decoder: the decoders rebuild an address from
    its payment credential alone. *)

(** The payment credential is all that [a] carries: an enterprise address on
    the main network. *)
Definition plain_address (a : Address.t) : Prop :=
  Address.type a = Address.Enterprise /\ Address.stake_credential a = None
  /\ Address.is_mainnet a = true.


Definition tx_wf (tx : Transaction.t) : Prop :=
  is_u64 (Transaction.value tx) /\ is_u64 (Transaction.nonce tx)
  /\ is_u64 (Transaction.gas_limit tx)
  /\ is_u64 (Transaction.max_fee_per_gas tx)
  /\ is_u64 (Transaction.max_priority_fee_per_gas tx)
  /\ length (Address.payment_credential (Transaction.from tx)) = 28%nat
  /\ length (Address.payment_credential (Transaction.to tx)) = 28%nat
  /\ length (Transaction.sender_pubkey tx) = 32%nat
  /\ length (Transaction.signature tx) = 64%nat
  /\ Z.of_nat (length (Transaction.data tx)) < 2 ^ 64 - 216.

Definition tx_on_wire (tx : Transaction.t) : Transaction.t :=
  Transaction.mk
    (Transaction.credential_address (Address.payment_credential (Transaction.from tx)))
    (Transaction.credential_address (Address.payment_credential (Transaction.to tx)))
    (Transaction.value tx) (Transaction.nonce tx) (Transaction.data tx)
    (Transaction.gas_limit tx) (Transaction.max_fee_per_gas tx)
    (Transaction.max_priority_fee_per_gas tx)
    (Transaction.sender_pubkey tx) (Transaction.signature tx).


Definition header_wf (h : BlockHeader.t) : Prop :=
  is_u64 (BlockHeader.number h)
  /\ length (BlockHeader.parent_hash h) = 32%nat
  /\ length (BlockHeader.state_root h) = 32%nat
  /\ length (BlockHeader.transactions_root h) = 32%nat
  /\ length (BlockHeader.receipts_root h) = 32%nat
  /\ length (Address.payment_credential (BlockHeader.sequencer h)) = 28%nat
  /\ is_u64 (BlockHeader.gas_limit h) /\ is_u64 (BlockHeader.gas_used h)
  /\ is_u64 (BlockHeader.base_fee h) /\ is_u64 (BlockHeader.timestamp h)
  /\ is_u64 (BlockHeader.l1_block_number h) /\ is_u64 (BlockHeader.batch_id h).

Definition block_wf (b : Block.t) : Prop :=
  header_wf (Block.header b)
  /\ Z.of_nat (length (Block.transactions b)) < 2 ^ 32
  /\ Forall (fun tx => tx_wf tx
                       /\ Z.of_nat (length (Transaction.data tx)) < 2 ^ 32 - 216)
            (Block.transactions b).

Definition header_on_wire (h : BlockHeader.t) : BlockHeader.t :=
  BlockHeader.mk (BlockHeader.number h) (BlockHeader.parent_hash h)
    (BlockHeader.state_root h) (BlockHeader.transactions_root h)
    (BlockHeader.receipts_root h)
    (Address.mk Address.Enterprise
       (Address.payment_credential (BlockHeader.sequencer h)) None true)
    (BlockHeader.gas_limit h) (BlockHeader.gas_used h) (BlockHeader.base_fee h)
    (BlockHeader.timestamp h) (BlockHeader.l1_block_number h)
    (BlockHeader.batch_id h).

Definition block_on_wire (b : Block.t) : Block.t :=
  Block.mk (header_on_wire (Block.header b)) (tx_on_wire <$> Block.transactions b).

(** A block used as literal input: two transfers of [A]. *)
Module WireScenario.

Definition header : BlockHeader.t :=
  BlockHeader.mk 7 (replicate 32 1) (replicate 32 2) (replicate 32 3)
                 (replicate 32 4) Scenario.coinbase 30000000 42000 1000000000
                 1700000000 12 0.

Definition block : Block.t :=
  Block.mk header [Scenario.transfer 0 5 Scenario.ff_signature;
                   Scenario.transfer 1 5 Scenario.ff_signature].

End WireScenario.

(** ** The block store *)

(** A block store opened again on the database of [bs] starts from the head
    [bs] has in memory. *)
Definition head_persisted (bs : BlockStore.t) : Prop :=
  BlockStore.get_head (BlockStore.create (BlockStore.db_ bs)) = BlockStore.get_head bs.

(** Literal inputs for the storage layer. *)
Module StorageScenario.

(** Three puts, two of them to the key [[1]], and the delete of the key [[2]]
    that the same batch puts. *)
Definition batch : Database.WriteBatch :=
  Database.mkBatch [([1], [10]); ([2], [20]); ([1], [11])] [[2]].

Definition db : Database.t := {[ [3] := [30] ]}.

(** [A] funded, then [B] funded: a journal of two entries. *)
Definition two_writes : StateManager.t :=
  StateManager.set_account Scenario.B (StoreScenario.account_with 200)
    (StoreScenario.funded Scenario.A 100).

Definition contract_code : Bytes := [0x60; 1; 0x60; 0; 0x55].

End StorageScenario.

(** ** The sequencer registry *)

Section RegistryNotions.

Import ConsensusEngine.

(** The addresses of a list of sequencers, in order. *)
Definition addresses (l : list Sequencer.t) : list Address.t :=
  Sequencer.address <$> l.

(** No address is registered twice. *)
Definition registry_wf (e : t) : Prop := NoDup (addresses (sequencers_ e)).

(** What [update_active_set] requires of a sequencer it selects. *)
Definition eligible (config : ConsensusConfig.t) (s : Sequencer.t) : Prop :=
  (Sequencer.status s = Active \/ Sequencer.status s = Standby)
  /\ ConsensusConfig.min_stake config <= Sequencer.stake s.

End RegistryNotions.

#[global] Instance sequencer_eq_dec : EqDecision ConsensusEngine.Sequencer.t.
Proof. solve_decision. Defined.
(** A chain used as literal input: the engine with stakes 3 and 1 at height
    0, a block that [A], the leader of slot 1, produces on it, and an evidence
    against [A]. *)
Module ChainScenario.

Import ConsensusEngine.

Definition chain0 : chain :=
  mkChain SequencerScenario.engine31 0 (zero_bytes 32) [] [].

Definition block1 : Block.t :=
  default (Block.mk BlockHeader.default [])
    (produce_block 1700000000 Scenario.A (zero_bytes 32)
       [Scenario.transfer 0 5 Scenario.ff_signature] (replicate 32 9) chain0).

Definition evidence (amount : Z) : SlashingEvidence.t :=
  SlashingEvidence.mk SlashingEvidence.DoubleSign Scenario.A 1 [] amount.


End ChainScenario.

(** ** The two indexes of the mempool *)

Section PoolIndexNotions.
Context `{Crypto}.

(** [by_hash_] and [by_sender_] index the same transactions: every
    transaction filed under a hash has that hash and is filed under its sender
    and nonce, and the other way round. *)
Definition pool_consistent (pool : Mempool.t) : Prop :=
  (forall h tx,
     Mempool.by_hash_ pool !! h = Some tx ->
     h = Transaction.hash tx /\ pooled_at tx pool = Some tx)
  /\ (forall key sender_txs n tx,
        Mempool.by_sender_ pool !! key = Some sender_txs ->
        Mempool.SenderTxs.by_nonce sender_txs !! n = Some tx ->
        key = Address.to_hex (Transaction.from tx)
        /\ n = Transaction.nonce tx
        /\ Mempool.by_hash_ pool !! Transaction.hash tx = Some tx).

End PoolIndexNotions.

(** The sender [a] has a transaction with nonce [n] in the pool. *)
Definition sender_has (a : Address.t) (n : Z) (pool : Mempool.t) : Prop :=
  is_Some (Mempool.SenderTxs.by_nonce
             (default Mempool.SenderTxs.default
                (Mempool.by_sender_ pool !! Address.to_hex a)) !! n).

(** [n] is the least nonce [a] has in the pool. *)
Definition lowest_nonce (a : Address.t) (n : Z) (pool : Mempool.t) : Prop :=
  sender_has a n pool /\ forall n', sender_has a n' pool -> n <= n'.

(** The order in which transactions leave the priority queue: the effective
    price at [base_fee] does not go up. *)
Definition price_ge (base_fee : Z) (x y : Transaction.t) : Prop :=
  Transaction.effective_gas_price y base_fee
  <= Transaction.effective_gas_price x base_fee.

(** The same order on the entries of the priority queue. *)
Definition queue_ge (x y : Mempool.TxPriority.t) : Prop :=
  Mempool.TxPriority.effective_price y <= Mempool.TxPriority.effective_price x.

(** A queue entry carries the effective price of the transaction pooled
    under its hash. *)
Definition queue_faithful (by_hash : gmap (list Z) Transaction.t) (base_fee : Z)
  (e : Mempool.TxPriority.t) : Prop :=
  forall tx, by_hash !! Mempool.TxPriority.hash e = Some tx ->
    Mempool.TxPriority.effective_price e = Transaction.effective_gas_price tx base_fee.

(** A parent header used as literal input: gas limit 30000000, base fee
    10^9. *)
Module FeeScenario.

Definition parent : BlockHeader.t :=
  BlockHeader.mk 7 (zero_bytes 32) (zero_bytes 32) (zero_bytes 32) (zero_bytes 32)
                 Scenario.coinbase 30000000 0 1000000000 1700000000 0 0.

End FeeScenario.

Section ReachNotions.
Context `{Crypto}.


End ReachNotions.

(** A level the loops meet: a single root, or an even number of nodes. *)
Definition level_ok (current : list Hash256) : Prop :=
  length current = 1%nat \/ (2 <= length current /\ Nat.even (length current) = true)%nat.


(** Blocks and leaves used as literal inputs of the prover and the Merkle
    tree. *)
Module ProofScenario.

Definition leaves : list Hash256 := [replicate 32 1; replicate 32 2; replicate 32 3].

Definition pre_root : Hash256 := replicate 32 4.
Definition post_root : Hash256 := replicate 32 5.

End ProofScenario.

(** The running total of the gas the receipts report, from [start], in
    64-bit arithmetic. *)
Definition gas_total (start : Z) (receipts : list TransactionReceipt.t) : Z :=
  foldl (fun total r => add64 total (TransactionReceipt.gas_used r)) start receipts.

(** A block used as literal input: [A]'s transfer with the fee cap at the
    base fee [produce_block] sets, and a store in which [A] can pay for it. *)
Module BlockScenario.

Definition block : Block.t :=
  default (Block.mk BlockHeader.default [])
    (ConsensusEngine.produce_block 1700000000 Scenario.A (zero_bytes 32)
       [Scenario.transfer 0 1000000000 Scenario.ff_signature] (replicate 32 9)
       ChainScenario.chain0).



End BlockScenario.

(** * Properties *)

(** Closed goals over literal inputs are settled by evaluation. *)
Ltac by_evaluation := vm_compute; first [reflexivity | congruence | tauto].

(** ** Transaction signatures *)

Lemma all_ff_replicate (n : nat) : Transaction.all_ff (replicate n 255) = true.
Proof. induction n as [|n IH]; [reflexivity | exact IH]. Qed.

Lemma all_ff_true (sig : Bytes) :
  Transaction.all_ff sig = true -> sig = replicate (length sig) 255.
Proof.
  induction sig as [|b sig IH]; [done|]. cbn.
  intros [Hb Hsig]%andb_prop. apply Z.eqb_eq in Hb. subst b.
  f_equal. by apply IH.
Qed.

(** C7: [verify_signature] accepts every transaction whose 64-byte signature
    is all [0xFF], whatever its contents and public key; for any other
    64-byte signature it returns the result of [Ed25519::verify] on the
    transaction hash, the signature and the sender's public key. *)
Theorem verify_signature_dev_bypass `{Crypto} (tx : Transaction.t) :
  length (Transaction.signature tx) = 64%nat ->
  (Transaction.signature tx = replicate 64 255 ->
   Transaction.verify_signature tx = true)
  /\ (Transaction.signature tx <> replicate 64 255 ->
      Transaction.verify_signature tx
      = Ed25519_verify (Transaction.hash tx) (Transaction.signature tx)
                       (Transaction.sender_pubkey tx)).
Proof.
  intros Hlen. unfold Transaction.verify_signature. split.
  - intros ->. by rewrite all_ff_replicate.
  - intros Hne.
    destruct (Transaction.all_ff (Transaction.signature tx)) eqn:Hff; [|done].
    apply all_ff_true in Hff. rewrite Hlen in Hff. done.
Qed.

Lemma verify_signature_dev_bypass_witness :
  Transaction.verify_signature (Scenario.transfer 0 5 Scenario.ff_signature) = true
  /\ Transaction.verify_signature (Scenario.transfer 0 5 Scenario.zero_signature)
     = false.
Proof.
  split.
  - apply (verify_signature_dev_bypass (Scenario.transfer 0 5 Scenario.ff_signature));
      reflexivity.
  - etrans.
    + apply (verify_signature_dev_bypass (Scenario.transfer 0 5 Scenario.zero_signature));
        [reflexivity|discriminate].
    + by_evaluation.
Defined.

(** ** Byte-level encoding of account states *)

Section Encoding.

#[local] Arguments append_uint64 : simpl never.

Lemma be_step (x : Z) :
  0 <= x < 2 ^ 64 ->
  Z.lor (wrap64 (Z.shiftl (Z.shiftr x 8) 8)) (Z.land x 255) = x.
Proof.
  intros Hx. unfold wrap64.
  assert (Hsh : Z.shiftl (Z.shiftr x 8) 8 = Z.ldiff x (Z.ones 8)).
  { symmetry. apply Z.ldiff_ones_r. lia. }
  rewrite Z.mod_small.
  - rewrite Hsh. change 255 with (Z.ones 8). apply Z.lor_ldiff_and.
  - rewrite Z.shiftl_mul_pow2, Z.shiftr_div_pow2 by lia.
    change (2 ^ 8) with 256. split; [|]; Z.div_mod_to_equations; lia.
Qed.

Lemma shiftr_u64 (v n : Z) : 0 <= n -> is_u64 v -> 0 <= Z.shiftr v n < 2 ^ 64.
Proof.
  intros Hn [Hlo Hhi]. rewrite Z.shiftr_div_pow2 by lia.
  assert (0 < 2 ^ n) by (apply Z.pow_pos_nonneg; lia).
  split.
  - apply Z.div_pos; lia.
  - apply Z.le_lt_trans with v; [|lia]. apply Z.div_le_upper_bound; nia.
Qed.

Lemma be_next (v n : Z) :
  0 <= n -> is_u64 v ->
  Z.lor (wrap64 (Z.shiftl (Z.shiftr v (n + 8)) 8)) (Z.land (Z.shiftr v n) 255)
  = Z.shiftr v n.
Proof.
  intros Hn Hv.
  replace (Z.shiftr v (n + 8)) with (Z.shiftr (Z.shiftr v n) 8)
    by (rewrite Z.shiftr_shiftr by lia; reflexivity).
  apply be_step. by apply shiftr_u64.
Qed.

(** Reading back the eight bytes [append_uint64] wrote. *)
Lemma read_append_uint64 (v : Z) (rest : Bytes) :
  is_u64 v -> read_uint64 (append_uint64 v ++ rest) 0 = (v, 8%nat).
Proof.
  intros Hv. unfold read_uint64, append_uint64. cbn.
  f_equal.
  assert (H64 : Z.shiftr v 64 = 0).
  { rewrite Z.shiftr_div_pow2 by lia. apply Z.div_small. exact Hv. }
  change (7 * 8) with 56. change (6 * 8) with 48. change (5 * 8) with 40.
  change (4 * 8) with 32. change (3 * 8) with 24. change (2 * 8) with 16.
  change (1 * 8) with 8. change (0 * 8) with 0.
  replace (Z.shiftl 0 8) with (Z.shiftl (Z.shiftr v (56 + 8)) 8)
    by (change (56 + 8) with 64; rewrite H64; reflexivity).
  rewrite (be_next v 56) by (done || lia).
  change (Z.shiftr v 56) with (Z.shiftr v (48 + 8)).
  rewrite (be_next v 48) by (done || lia).
  change (Z.shiftr v 48) with (Z.shiftr v (40 + 8)).
  rewrite (be_next v 40) by (done || lia).
  change (Z.shiftr v 40) with (Z.shiftr v (32 + 8)).
  rewrite (be_next v 32) by (done || lia).
  change (Z.shiftr v 32) with (Z.shiftr v (24 + 8)).
  rewrite (be_next v 24) by (done || lia).
  change (Z.shiftr v 24) with (Z.shiftr v (16 + 8)).
  rewrite (be_next v 16) by (done || lia).
  change (Z.shiftr v 16) with (Z.shiftr v (8 + 8)).
  rewrite (be_next v 8) by (done || lia).
  change (Z.shiftr v 8) with (Z.shiftr v (0 + 8)).
  rewrite (be_next v 0) by (done || lia).
  apply Z.shiftr_0_r.
Qed.

Lemma read_skip (i : nat) (pre data : Bytes) (offset : nat) (v : Z) :
  read_uint64_loop i (pre ++ data) (length pre + offset) v
  = prod_map id (fun o => (length pre + o)%nat) (read_uint64_loop i data offset v).
Proof.
  revert offset v. induction i as [|i IH]; intros offset v; [reflexivity|].
  cbn [read_uint64_loop]. rewrite lookup_app_r by lia.
  replace (length pre + offset - length pre)%nat with offset by lia.
  destruct (data !! offset) as [b|]; [|reflexivity].
  replace (S (length pre + offset)) with (length pre + S offset)%nat by lia.
  apply IH.
Qed.

Lemma length_append_uint64 (v : Z) : length (append_uint64 v) = 8%nat.
Proof. reflexivity. Qed.

Lemma length_encode (s : AccountState.t) :
  length (AccountState.encode s)
  = (16 + length (AccountState.storage_root s)
        + length (AccountState.code_hash s))%nat.
Proof.
  unfold AccountState.encode. rewrite !length_app, !length_append_uint64. lia.
Qed.

Lemma encode_nonempty (s : AccountState.t) : AccountState.encode s <> [].
Proof. intros E. apply (f_equal length) in E. rewrite length_encode in E. cbn in E. lia. Qed.

(** Round trip: decoding an encoded well-formed account state gives it back. *)
Lemma decode_encode (s : AccountState.t) :
  AccountState.wf s -> AccountState.decode (AccountState.encode s) = s.
Proof.
  destruct s as [n b sr ch]. intros (Hn & Hb & Hsr & Hch).
  cbn [AccountState.nonce AccountState.balance AccountState.storage_root
       AccountState.code_hash] in Hn, Hb, Hsr, Hch.
  unfold AccountState.decode.
  rewrite length_encode. cbn [AccountState.storage_root AccountState.code_hash].
  rewrite Hsr, Hch. cbn [Nat.ltb Nat.leb Nat.add].
  unfold AccountState.encode. cbn [AccountState.nonce AccountState.balance
    AccountState.storage_root AccountState.code_hash].
  rewrite read_append_uint64 by done.
  pose proof (read_skip 8 (append_uint64 n) (append_uint64 b ++ sr ++ ch) 0 0) as Hr.
  rewrite length_append_uint64 in Hr. cbn [Nat.add] in Hr.
  unfold read_uint64 at 1. rewrite Hr.
  fold (read_uint64 (append_uint64 b ++ sr ++ ch) 0).
  rewrite read_append_uint64 by done. cbn [prod_map id fst snd Nat.add].
  change (48 <=? 80)%nat with true. cbn iota beta.
  change (48 + 32 <=? 80)%nat with true. cbn iota.
  f_equal.
  - change 16%nat with (8 + 8)%nat.
    rewrite <- drop_drop.
    rewrite (drop_app_length' (append_uint64 n)) by reflexivity.
    rewrite (drop_app_length' (append_uint64 b)) by reflexivity.
    by rewrite take_app_length'.
  - change 48%nat with (8 + (8 + 32))%nat.
    rewrite <- !drop_drop.
    rewrite (drop_app_length' (append_uint64 n)) by reflexivity.
    rewrite (drop_app_length' (append_uint64 b)) by reflexivity.
    rewrite (drop_app_length' sr) by done.
    by rewrite take_ge by lia.
Qed.

Lemma wrap64_u64 (v : Z) : is_u64 (wrap64 v).
Proof. unfold is_u64, wrap64. apply Z.mod_pos_bound. lia. Qed.

Lemma land_shiftr_wrap (v k : Z) :
  0 <= k <= 56 ->
  Z.land (Z.shiftr (wrap64 v) k) 255 = Z.land (Z.shiftr v k) 255.
Proof.
  intros Hk. apply Z.bits_inj'. intros n Hn.
  rewrite !Z.land_spec, !Z.shiftr_spec by lia.
  change 255 with (Z.ones 8).
  destruct (Z.ltb_spec n 8).
  - unfold wrap64. rewrite Z.mod_pow2_bits_low by lia. reflexivity.
  - rewrite Z.ones_spec_high by lia. by rewrite !andb_false_r.
Qed.

(** The bytes written for a counter depend on its low 64 bits only. *)
Lemma append_uint64_wrap (v : Z) : append_uint64 (wrap64 v) = append_uint64 v.
Proof.
  unfold append_uint64. cbn [fmap list_fmap].
  rewrite !land_shiftr_wrap by lia. reflexivity.
Qed.

(** Whatever state is encoded, decoding the bytes gives a well-formed one. *)
Lemma decode_encode_wf (s : AccountState.t) :
  AccountState.wf (AccountState.decode (AccountState.encode s)).
Proof.
  destruct s as [n b sr ch].
  unfold AccountState.decode.
  destruct (Nat.ltb_spec (length (AccountState.encode (AccountState.mk n b sr ch))) 80)
    as [Hshort|Hlong].
  { repeat split; cbn; lia. }
  rewrite length_encode in *.
  cbn [AccountState.storage_root AccountState.code_hash] in *.
  unfold AccountState.encode. cbn [AccountState.nonce AccountState.balance
    AccountState.storage_root AccountState.code_hash].
  rewrite <- (append_uint64_wrap n), <- (append_uint64_wrap b).
  rewrite read_append_uint64 by apply wrap64_u64.
  pose proof (read_skip 8 (append_uint64 (wrap64 n))
                (append_uint64 (wrap64 b) ++ sr ++ ch) 0 0) as Hr.
  rewrite length_append_uint64 in Hr. cbn [Nat.add] in Hr.
  unfold read_uint64 at 1. rewrite Hr.
  fold (read_uint64 (append_uint64 (wrap64 b) ++ sr ++ ch) 0).
  rewrite read_append_uint64 by apply wrap64_u64. cbn [prod_map id fst snd Nat.add].
  repeat match goal with
         | |- context [(?a <=? ?b)%nat] =>
             destruct (Nat.leb_spec a b); [|cbn in *; lia]
         end.
  repeat split; cbn [AccountState.nonce AccountState.balance
                     AccountState.storage_root AccountState.code_hash];
    try apply wrap64_u64;
    rewrite length_take, length_drop, !length_app, !length_append_uint64; lia.
Qed.

End Encoding.

(** ** The state store *)

Section StateStore.
Context `{Crypto}.

#[local] Arguments append_uint64 : simpl never.
#[local] Arguments AccountState.encode : simpl never.
#[local] Arguments AccountState.decode : simpl never.

Lemma trie_get_put (db : Database.t) (key value : Bytes) (tr : StateTrie.t) :
  StateTrie.get db key (StateTrie.put key value tr) = Some value.
Proof. unfold StateTrie.get, StateTrie.put. cbn. by rewrite lookup_insert_eq. Qed.

Lemma trie_get_put_ne (db : Database.t) (key key' value : Bytes) (tr : StateTrie.t) :
  Blake2b256_hash key <> Blake2b256_hash key' ->
  StateTrie.get db key' (StateTrie.put key value tr) = StateTrie.get db key' tr.
Proof.
  intros Hne. unfold StateTrie.get, StateTrie.put. cbn.
  by rewrite lookup_insert_ne.
Qed.

Lemma get_account_set_account (a : Address.t) (s : AccountState.t)
  (st : StateManager.t) :
  AccountState.wf s ->
  StateManager.get_account a (StateManager.set_account a s st) = s.
Proof.
  intros Hwf. unfold StateManager.get_account, StateManager.set_account. cbn.
  rewrite trie_get_put. by apply decode_encode.
Qed.

Lemma get_account_set_account_ne (a b : Address.t) (s : AccountState.t)
  (st : StateManager.t) :
  Blake2b256_hash (Address.payment_credential a)
  <> Blake2b256_hash (Address.payment_credential b) ->
  StateManager.get_account b (StateManager.set_account a s st)
  = StateManager.get_account b st.
Proof.
  intros Hne. unfold StateManager.get_account, StateManager.set_account. cbn.
  by rewrite trie_get_put_ne.
Qed.

(** C9 (amended): [sub_balance] returns nothing.  When the balance is below
    the amount the call leaves the store exactly as it was (no journal entry,
    no write) and reports no error; otherwise the account's balance is the old
    balance minus the amount, its other fields unchanged. *)
Theorem sub_balance_silent_on_underflow (a : Address.t) (amount : Z)
  (st : StateManager.t) :
  AccountState.wf (StateManager.get_account a st) ->
  0 <= amount ->
  (StateManager.get_balance a st < amount ->
   StateManager.sub_balance a amount st = st)
  /\ (amount <= StateManager.get_balance a st ->
      StateManager.get_account a (StateManager.sub_balance a amount st)
      = StateManager.with_balance (StateManager.get_account a st)
          (StateManager.get_balance a st - amount)).
Proof.
  intros Hwf Hamount. unfold StateManager.sub_balance, StateManager.get_balance.
  split; intros Hcmp.
  - destruct (Z.geb_spec (AccountState.balance (StateManager.get_account a st)) amount);
      [lia | reflexivity].
  - destruct (Z.geb_spec (AccountState.balance (StateManager.get_account a st)) amount);
      [|lia].
    destruct Hwf as (Hn & Hb & Hsr & Hch).
    assert (Hsub : sub64 (AccountState.balance (StateManager.get_account a st)) amount
                   = AccountState.balance (StateManager.get_account a st) - amount).
    { unfold sub64, wrap64. apply Z.mod_small. unfold is_u64 in Hb. lia. }
    rewrite Hsub. apply get_account_set_account.
    repeat split; cbn; try done; unfold is_u64 in *; lia.
Qed.

Lemma revert_loop_same (journal : list StateManager.JournalEntry) (tr : StateTrie.t) :
  StateManager.revert_loop journal (length journal) tr = (journal, tr).
Proof.
  destruct journal as [|e rest]; [reflexivity|].
  cbn [StateManager.revert_loop]. by rewrite Nat.ltb_irrefl.
Qed.

(** *** Snapshots and the journal *)

Lemma get_account_view (a : Address.t) (st : StateManager.t) :
  StateManager.get_account a st
  = view_at (StateManager.db_ st) (StateManager.account_trie_ st)
            (Blake2b256_hash (Address.payment_credential a)).
Proof. reflexivity. Qed.

Lemma view_at_put (db : Database.t) (tr : StateTrie.t) (key value : Bytes)
  (key_hash : Hash256) :
  view_at db (StateTrie.put key value tr) key_hash
  = if decide (Blake2b256_hash key = key_hash) then AccountState.decode value
    else view_at db tr key_hash.
Proof.
  unfold view_at, raw_at, StateTrie.put. cbn.
  rewrite lookup_insert. by case_decide.
Qed.

Lemma view_at_undo (db : Database.t) (tr : StateTrie.t)
  (entry : StateManager.JournalEntry) (key_hash : Hash256) :
  view_at db (StateManager.undo entry tr) key_hash
  = if decide (Blake2b256_hash
                 (Address.payment_credential (StateManager.addr entry)) = key_hash)
    then match StateManager.prev_state entry with
         | Some prev => AccountState.decode (AccountState.encode prev)
         | None => AccountState.default
         end
    else view_at db tr key_hash.
Proof.
  unfold StateManager.undo. destruct (StateManager.prev_state entry).
  - apply view_at_put.
  - unfold StateTrie.del. apply (view_at_put db tr _ []).
Qed.

(** Stores that agree on every account still agree after the same entries
    are undone. *)
Lemma view_at_rewind (entries : list StateManager.JournalEntry) :
  forall db1 tr1 db2 tr2,
    (forall kh, view_at db1 tr1 kh = view_at db2 tr2 kh) ->
    forall kh, view_at db1 (rewind entries tr1) kh = view_at db2 (rewind entries tr2) kh.
Proof.
  induction entries as [|entry entries IH]; intros db1 tr1 db2 tr2 Hv kh; [apply Hv|].
  cbn [rewind foldl]. apply IH. intros kh'.
  rewrite !view_at_undo. case_decide; [reflexivity|apply Hv].
Qed.

Lemma revert_loop_rewind (entries journal : list StateManager.JournalEntry)
  (tr : StateTrie.t) :
  StateManager.revert_loop (entries ++ journal) (length journal) tr
  = (journal, rewind entries tr).
Proof.
  revert tr. induction entries as [|entry entries IH]; intros tr.
  - apply revert_loop_same.
  - cbn [app StateManager.revert_loop].
    destruct (Nat.ltb_spec (length journal) (length (entry :: entries ++ journal)))
      as [_|Hge]; [apply IH|].
    cbn in Hge. rewrite length_app in Hge. lia.
Qed.

Lemma restorable_refl (st : StateManager.t) : restorable st st.
Proof. by exists []. Qed.

Lemma set_account_restorable (st0 st : StateManager.t) (a : Address.t)
  (s : AccountState.t) :
  accounts_wf st -> restorable st0 st ->
  accounts_wf (StateManager.set_account a s st)
  /\ restorable st0 (StateManager.set_account a s st).
Proof.
  intros Hwf (entries & Hj & Hv). split.
  - intros kh. unfold StateManager.set_account. cbn.
    rewrite view_at_put. case_decide; [apply decode_encode_wf|apply Hwf].
  - eexists (_ :: entries). unfold StateManager.set_account at 1. cbn.
    split; [by rewrite Hj|].
    intros kh. rewrite <- Hv. unfold StateManager.set_account. cbn.
    apply view_at_rewind. clear kh. intros kh.
    rewrite view_at_undo. cbn. case_decide as Hk; [|by rewrite view_at_put, decide_False].
    subst kh.
    specialize (Hwf (Blake2b256_hash (Address.payment_credential a))).
    unfold view_at, raw_at in *. unfold StateTrie.get, Database.get.
    destruct (StateTrie.dirty_nodes_ _ !! _) as [v|]; cbn.
    + by apply decode_encode.
    + destruct (_ !! _) as [v|]; cbn; [by apply decode_encode|reflexivity].
Qed.

(** A database write under a key that is not an account key changes no
    account and no journal. *)
Lemma db_put_restorable (st0 st : StateManager.t) (key value : Bytes) :
  (forall kh, key <> StateTrie.db_key kh) ->
  accounts_wf st -> restorable st0 st ->
  let st' := StateManager.mk (Database.put key value (StateManager.db_ st))
               (StateManager.account_trie_ st) (StateManager.journal_ st) in
  accounts_wf st' /\ restorable st0 st'.
Proof.
  intros Hkey Hwf (entries & Hj & Hv). cbn zeta.
  assert (Hsame : forall tr kh,
            view_at (Database.put key value (StateManager.db_ st)) tr kh
            = view_at (StateManager.db_ st) tr kh).
  { intros tr kh. unfold view_at, raw_at, Database.put.
    by rewrite lookup_insert_ne. }
  split.
  - intros kh. cbn. rewrite Hsame. apply Hwf.
  - exists entries. cbn. split; [done|]. intros kh. by rewrite Hsame.
Qed.

Lemma apply_mutation_restorable (st0 st : StateManager.t) (m : mutation) :
  accounts_wf st -> restorable st0 st ->
  accounts_wf (apply_mutation m st) /\ restorable st0 (apply_mutation m st).
Proof.
  intros Hwf Hr. destruct m as [a s|a n|a n|a|a k v|a c]; cbn [apply_mutation].
  - by apply set_account_restorable.
  - by apply set_account_restorable.
  - unfold StateManager.sub_balance.
    destruct (_ >=? _); [by apply set_account_restorable|done].
  - by apply set_account_restorable.
  - apply (db_put_restorable st0 st); [|done..].
    intros kh. unfold StateManager.storage_db_key, StateTrie.db_key. discriminate.
  - unfold StateManager.set_code.
    destruct (db_put_restorable st0 st
                (StateManager.code_db_key (Blake2b256_hash c)) c) as [Hwf' Hr'];
      [|done..|by apply set_account_restorable].
    intros kh. unfold StateManager.code_db_key, StateTrie.db_key. discriminate.
Qed.

Lemma apply_mutations_restorable (ms : list mutation) :
  forall st0 st,
    accounts_wf st -> restorable st0 st ->
    restorable st0 (apply_mutations ms st).
Proof.
  induction ms as [|m ms IH]; intros st0 st Hwf Hr; [done|].
  cbn [apply_mutations foldl].
  destruct (apply_mutation_restorable st0 st m Hwf Hr) as [Hwf' Hr'].
  by apply IH.
Qed.

(** The part of revert isolation the journal does provide: after any
    sequence of mutations, reverting to the snapshot gives back every
    account, hence every balance and nonce. *)
Lemma revert_restores_accounts (st : StateManager.t) (ms : list mutation)
  (a : Address.t) :
  accounts_wf st ->
  StateManager.get_account a
    (StateManager.revert (StateManager.snapshot st) (apply_mutations ms st))
  = StateManager.get_account a st.
Proof.
  intros Hwf.
  destruct (apply_mutations_restorable ms st st Hwf (restorable_refl st))
    as (entries & Hj & Hv).
  rewrite !get_account_view. rewrite <- Hv.
  unfold StateManager.revert, StateManager.snapshot. cbn.
  rewrite Hj, revert_loop_rewind. reflexivity.
Qed.

(** C3, at the write the journal misses: a contract-storage write made after
    a snapshot is still read back after reverting to that snapshot, whatever
    the slot held when the snapshot was taken. *)
Theorem revert_keeps_storage_write (a : Address.t) (key : Hash256)
  (value : Bytes) (st : StateManager.t) :
  StateManager.get_storage a key
    (StateManager.revert (StateManager.snapshot st)
       (StateManager.set_storage a key value st))
  = value.
Proof.
  unfold StateManager.revert, StateManager.snapshot, StateManager.set_storage.
  cbn. rewrite revert_loop_same. cbn.
  unfold StateManager.get_storage, Database.get, Database.put. cbn.
  by rewrite lookup_insert_eq.
Qed.

(** C4, at the commits that follow an earlier commit: once the store has
    been committed, writing one account and committing again returns the
    Merkle root of that single entry, whatever other accounts the store
    holds. *)
Theorem commit_root_covers_only_dirty (st0 : StateManager.t) (a : Address.t)
  (s : AccountState.t) :
  (StateManager.commit
     (StateManager.set_account a s (StateManager.commit st0).2)).1
  = Blake2b256_merkle_root [account_leaf a s].
Proof.
  unfold StateManager.commit at 2.
  destruct (StateTrie.commit (StateManager.db_ st0) (StateManager.account_trie_ st0))
    as [[root db'] trie'] eqn:E.
  assert (Hd : StateTrie.dirty_nodes_ trie' = ∅).
  { unfold StateTrie.commit in E.
    destruct (foldl _ _ _) as [batch leaves] in E. by inversion E. }
  unfold StateManager.commit, StateManager.set_account, StateTrie.commit. cbn.
  rewrite Hd, insert_empty, map_to_list_singleton. cbn.
  rewrite bool_decide_eq_false_2 by apply encode_nonempty.
  reflexivity.
Qed.

End StateStore.

(** *** The state store on concrete inputs *)

Lemma sub_balance_silent_on_underflow_witness :
  StateManager.sub_balance Scenario.A 150 (StoreScenario.funded Scenario.A 100)
  = StoreScenario.funded Scenario.A 100
  /\ StateManager.get_account Scenario.A
       (StateManager.sub_balance Scenario.A 30 (StoreScenario.funded Scenario.A 100))
     = StoreScenario.account_with 70.
Proof.
  assert (Hwf : AccountState.wf
                  (StateManager.get_account Scenario.A
                     (StoreScenario.funded Scenario.A 100))).
  { repeat split; vm_compute; congruence. }
  split.
  - apply (sub_balance_silent_on_underflow Scenario.A 150 _ Hwf); [lia|].
    vm_compute. reflexivity.
  - etrans.
    + apply (sub_balance_silent_on_underflow Scenario.A 30 _ Hwf); [lia|].
      vm_compute. congruence.
    + vm_compute. reflexivity.
Defined.

(** C9, as stated, fails: on an underflow the specification reports
    [BalanceUnderflow], the code returns normally with the store untouched. *)
Lemma sub_balance_underflow_not_reported :
  SubBalanceOutcome.spec_sub_balance Scenario.A 150 (StoreScenario.funded Scenario.A 100)
  = SubBalanceOutcome.BalanceUnderflow
  /\ SubBalanceOutcome.code_sub_balance Scenario.A 150 (StoreScenario.funded Scenario.A 100)
     = SubBalanceOutcome.Completed (StoreScenario.funded Scenario.A 100)
  /\ SubBalanceOutcome.code_sub_balance Scenario.A 150 (StoreScenario.funded Scenario.A 100)
     <> SubBalanceOutcome.spec_sub_balance Scenario.A 150 (StoreScenario.funded Scenario.A 100).
Proof.
  assert (Hs : SubBalanceOutcome.spec_sub_balance Scenario.A 150
                 (StoreScenario.funded Scenario.A 100)
               = SubBalanceOutcome.BalanceUnderflow) by (vm_compute; reflexivity).
  assert (Hc : SubBalanceOutcome.code_sub_balance Scenario.A 150
                 (StoreScenario.funded Scenario.A 100)
               = SubBalanceOutcome.Completed (StoreScenario.funded Scenario.A 100))
    by (vm_compute; reflexivity).
  split; [exact Hs|]. split; [exact Hc|].
  rewrite Hs, Hc. discriminate.
Qed.

(** C3 on a concrete store: slot 0 of [A] is empty at the snapshot and holds
    the written byte after the revert. *)
Lemma storage_write_survives_revert_example :
  let st := StoreScenario.funded Scenario.A 100 in
  let snap := StateManager.snapshot st in
  StateManager.get_storage Scenario.A StoreScenario.slot0 st = []
  /\ StateManager.get_storage Scenario.A StoreScenario.slot0
       (StateManager.revert snap
          (StateManager.set_storage Scenario.A StoreScenario.slot0 [1] st))
     = [1].
Proof. split; vm_compute; reflexivity. Qed.

(** C4 on concrete histories: both leave the same two accounts in the store,
    yet the roots returned by the last [commit] differ, and each is the root
    of the one entry written last. *)
Lemma commit_root_depends_on_history :
  (forall a, StateManager.get_account a StoreScenario.history_AB.2
             = StateManager.get_account a StoreScenario.history_BA.2)
  /\ StoreScenario.history_AB.1
     = Blake2b256_merkle_root [account_leaf Scenario.B (StoreScenario.account_with 200)]
  /\ StoreScenario.history_BA.1
     = Blake2b256_merkle_root [account_leaf Scenario.A (StoreScenario.account_with 100)]
  /\ StoreScenario.history_AB.1 <> StoreScenario.history_BA.1.
Proof.
  split; [|split; [|split]].
  - intros a. unfold StateManager.get_account.
    assert (Ht : StateTrie.dirty_nodes_ (StateManager.account_trie_ StoreScenario.history_AB.2)
                 = StateTrie.dirty_nodes_ (StateManager.account_trie_ StoreScenario.history_BA.2))
      by (vm_compute; reflexivity).
    assert (Hdb : delete StateTrie.root_key (StateManager.db_ StoreScenario.history_AB.2)
                  = delete StateTrie.root_key (StateManager.db_ StoreScenario.history_BA.2))
      by (vm_compute; reflexivity).
    assert (Hacc : forall kh,
               StateManager.db_ StoreScenario.history_AB.2 !! StateTrie.db_key kh
               = StateManager.db_ StoreScenario.history_BA.2 !! StateTrie.db_key kh).
    { intros kh.
      rewrite <- (lookup_delete_ne (StateManager.db_ StoreScenario.history_AB.2)
                    StateTrie.root_key (StateTrie.db_key kh)) by discriminate.
      rewrite <- (lookup_delete_ne (StateManager.db_ StoreScenario.history_BA.2)
                    StateTrie.root_key (StateTrie.db_key kh)) by discriminate.
      by rewrite Hdb. }
    unfold StateTrie.get. rewrite Ht.
    destruct (_ !! _); [reflexivity|]. unfold Database.get. by rewrite Hacc.
  - vm_compute. reflexivity.
  - vm_compute. reflexivity.
  - vm_compute. congruence.
Qed.

(** ** The transaction processor *)

Section Processor.
Context `{Crypto}.

(** C1 (amended): [process] checks, in this order, the nonce ("Invalid
    nonce"), the balance against the 64-bit cost [value + gas_limit * max_fee]
    ("Insufficient balance"), the gas limit against the intrinsic gas ("Gas
    limit too low") and the fee cap against the base fee ("Max fee below base
    fee").  The first failing check ends the call with [success = false], that
    error and an untouched store; when the four pass the transaction is
    executed. *)
Theorem process_validation_order (fuel : nat) (tx : Transaction.t)
  (ctx : ExecutionContext.t) (sm : StateManager.t) :
  let sender := Transaction.from tx in
  let nonce_ok := Transaction.nonce tx = StateManager.get_nonce sender sm in
  let funds_ok := validation_cost tx <= StateManager.get_balance sender sm in
  let gas_ok := TransactionProcessor.intrinsic_gas tx <= Transaction.gas_limit tx in
  let fee_ok := ExecutionContext.base_fee ctx <= Transaction.max_fee_per_gas tx in
  (~ nonce_ok ->
   TransactionProcessor.process fuel tx ctx sm = Done (rejected "Invalid nonce", sm))
  /\ (nonce_ok -> ~ funds_ok ->
      TransactionProcessor.process fuel tx ctx sm
      = Done (rejected "Insufficient balance", sm))
  /\ (nonce_ok -> funds_ok -> ~ gas_ok ->
      TransactionProcessor.process fuel tx ctx sm
      = Done (rejected "Gas limit too low", sm))
  /\ (nonce_ok -> funds_ok -> gas_ok -> ~ fee_ok ->
      TransactionProcessor.process fuel tx ctx sm
      = Done (rejected "Max fee below base fee", sm))
  /\ (nonce_ok -> funds_ok -> gas_ok -> fee_ok ->
      exists outcome_,
        EVM.execute_transaction fuel tx ctx sm = outcome_
        /\ match outcome_, TransactionProcessor.process fuel tx ctx sm with
           | Done (exec_result, sm'), Done (result, sm'') =>
               sm'' = sm'
               /\ TransactionProcessor.ProcessResult.success result
                  = ExecutionResult.success exec_result
               /\ TransactionProcessor.ProcessResult.gas_used result
                  = Some (ExecutionResult.gas_used exec_result)
               /\ TransactionProcessor.ProcessResult.error result
                  = ExecutionResult.error exec_result
           | OutOfFuel, OutOfFuel => True
           | NotModelled, NotModelled => True
           | _, _ => False
           end).
Proof.
  cbn zeta. unfold validation_cost.
  assert (Hrej : forall e,
             TransactionProcessor.validate tx (ExecutionContext.base_fee ctx) sm
             = TransactionProcessor.ValidationResult.mk false e ->
             TransactionProcessor.process fuel tx ctx sm = Done (rejected e, sm)).
  { intros e Hv. unfold TransactionProcessor.process. by rewrite Hv. }
  unfold TransactionProcessor.validate in Hrej.
  destruct (Z.eqb_spec (Transaction.nonce tx)
              (StateManager.get_nonce (Transaction.from tx) sm)) as [Hn|Hn];
    cbn [negb] in Hrej.
  2:{ repeat split; try (intros; done). intros _. by apply Hrej. }
  destruct (Z.ltb_spec (StateManager.get_balance (Transaction.from tx) sm)
              (add64 (Transaction.value tx)
                 (mul64 (Transaction.gas_limit tx) (Transaction.max_fee_per_gas tx))))
    as [Hf|Hf].
  { repeat split; try (intros; lia). intros _ _. by apply Hrej. }
  destruct (Z.ltb_spec (Transaction.gas_limit tx)
              (TransactionProcessor.intrinsic_gas tx)) as [Hg|Hg].
  { repeat split; try (intros; lia). intros _ _ _. by apply Hrej. }
  destruct (Z.ltb_spec (Transaction.max_fee_per_gas tx)
              (ExecutionContext.base_fee ctx)) as [Hb|Hb].
  { repeat split; try (intros; lia). intros _ _ _ _. by apply Hrej. }
  repeat split; try (intros; lia).
  intros _ _ _ _. eexists; split; [reflexivity|].
  unfold TransactionProcessor.process, TransactionProcessor.validate.
  destruct (Z.eqb_spec (Transaction.nonce tx)
              (StateManager.get_nonce (Transaction.from tx) sm)); [|done].
  destruct (Z.ltb_spec (StateManager.get_balance (Transaction.from tx) sm)
              (add64 (Transaction.value tx)
                 (mul64 (Transaction.gas_limit tx) (Transaction.max_fee_per_gas tx))));
    [lia|].
  destruct (Z.ltb_spec (Transaction.gas_limit tx)
              (TransactionProcessor.intrinsic_gas tx)); [lia|].
  destruct (Z.ltb_spec (Transaction.max_fee_per_gas tx)
              (ExecutionContext.base_fee ctx)); [lia|].
  cbn [TransactionProcessor.ValidationResult.valid negb].
  destruct (EVM.execute_transaction fuel tx ctx sm) as [[r s']| |]; cbn; done.
Qed.

End Processor.

(** *** The processor on concrete inputs *)

Lemma process_validation_order_witness :
  let funded := StoreScenario.funded Scenario.A 1000000000 in
  let paid := Scenario.transfer 0 2 Scenario.ff_signature in
  TransactionProcessor.process 100
    (Scenario.transfer 5 2 Scenario.ff_signature) (ExecScenario.ctx 1) funded
  = Done (rejected "Invalid nonce", funded)
  /\ TransactionProcessor.process 100
       (Scenario.transfer 0 1 Scenario.ff_signature) (ExecScenario.ctx 10)
       (StateManager.create ∅)
     = Done (rejected "Insufficient balance", StateManager.create ∅)
  /\ TransactionProcessor.process 100 ExecScenario.low_gas_tx (ExecScenario.ctx 1)
       funded
     = Done (rejected "Gas limit too low", funded)
  /\ TransactionProcessor.process 100 paid (ExecScenario.ctx 10) funded
     = Done (rejected "Max fee below base fee", funded)
  /\ exists outcome_,
       EVM.execute_transaction 100 paid (ExecScenario.ctx 1) funded = outcome_
       /\ match outcome_,
               TransactionProcessor.process 100 paid (ExecScenario.ctx 1) funded with
          | Done (exec_result, sm'), Done (result, sm'') =>
              sm'' = sm'
              /\ TransactionProcessor.ProcessResult.success result
                 = ExecutionResult.success exec_result
              /\ TransactionProcessor.ProcessResult.gas_used result
                 = Some (ExecutionResult.gas_used exec_result)
              /\ TransactionProcessor.ProcessResult.error result
                 = ExecutionResult.error exec_result
          | OutOfFuel, OutOfFuel => True
          | NotModelled, NotModelled => True
          | _, _ => False
          end.
Proof.
  intros funded paid.
  destruct (process_validation_order 100
              (Scenario.transfer 5 2 Scenario.ff_signature) (ExecScenario.ctx 1)
              funded) as (Hnonce & _).
  destruct (process_validation_order 100
              (Scenario.transfer 0 1 Scenario.ff_signature) (ExecScenario.ctx 10)
              (StateManager.create ∅)) as (_ & Hfunds & _).
  destruct (process_validation_order 100 ExecScenario.low_gas_tx
              (ExecScenario.ctx 1) funded) as (_ & _ & Hgas & _).
  destruct (process_validation_order 100 paid (ExecScenario.ctx 10) funded)
    as (_ & _ & _ & Hfee & _).
  destruct (process_validation_order 100 paid (ExecScenario.ctx 1) funded)
    as (_ & _ & _ & _ & Hexec).
  split; [|split; [|split; [|split]]].
  - apply Hnonce. by_evaluation.
  - apply Hfunds; by_evaluation.
  - apply Hgas; by_evaluation.
  - apply Hfee; by_evaluation.
  - apply Hexec; by_evaluation.
Defined.

(** C1, as stated, fails.  A transaction whose fee cap is below the base fee
    and whose sender cannot pay is [FeeTooLow] in the specification's order;
    the code answers "Insufficient balance".  And a transaction whose
    signature does not verify, [BadSignature] in the specification, passes
    [validate] and is executed. *)
Lemma process_validation_order_counterexample :
  (let tx := Scenario.transfer 0 1 Scenario.ff_signature in
   let sm := StateManager.create ∅ in
   ProcessSpec.spec_validate tx 10 sm = Some ProcessSpec.FeeTooLow
   /\ ProcessSpec.code_validate tx 10 sm = Some ProcessSpec.InsufficientFunds)
  /\ (let tx := Scenario.transfer 0 2 Scenario.zero_signature in
      let sm := StoreScenario.funded Scenario.A 1000000000 in
      Transaction.verify_signature tx = false
      /\ ProcessSpec.spec_validate tx 1 sm = Some ProcessSpec.BadSignature
      /\ ProcessSpec.code_validate tx 1 sm = None
      /\ match TransactionProcessor.process 100 tx (ExecScenario.ctx 1) sm with
         | Done (r, sm') =>
             TransactionProcessor.ProcessResult.success r = true
             /\ StateManager.get_nonce Scenario.A sm' = 1
             /\ StateManager.get_balance Scenario.B sm' = 1000
         | _ => False
         end).
Proof.
  split; cbn zeta.
  - split; by_evaluation.
  - split; [by_evaluation|]. split; [by_evaluation|]. split; [by_evaluation|].
    vm_compute. repeat split.
Qed.

(** C2 at a reverting call and at a call that runs out of gas.  The
    contract stores 1 in slot 0 and then executes REVERT (first case) or a
    second SSTORE it cannot pay for (second case).  The receipt reports
    failure and the sender's nonce is incremented, but the storage write of
    the failed frame is still there afterwards; after the REVERT the sender
    has paid for the 20012 gas used only, the other 79988 are refunded. *)
Theorem failed_call_keeps_storage_write :
  (let st := ExecScenario.world ExecScenario.reverting_code in
   StateManager.get_storage ExecScenario.contract StoreScenario.slot0 st = []
   /\ match TransactionProcessor.process 100 (ExecScenario.call_tx 100000)
               (ExecScenario.ctx 1) st with
      | Done (r, st') =>
          TransactionProcessor.ProcessResult.success r = false
          /\ TransactionProcessor.ProcessResult.gas_used r = Some 20012
          /\ StateManager.get_storage ExecScenario.contract StoreScenario.slot0 st'
             = ExecScenario.one_word
          /\ StateManager.get_nonce Scenario.A st' = 1
          /\ StateManager.get_balance Scenario.A st' = 1000000000 - 20012
          /\ StateManager.get_balance Scenario.coinbase st' = 20012
      | _ => False
      end)
  /\ (let st := ExecScenario.world ExecScenario.two_stores_code in
      match TransactionProcessor.process 100 (ExecScenario.call_tx 30000)
              (ExecScenario.ctx 1) st with
      | Done (r, st') =>
          TransactionProcessor.ProcessResult.success r = false
          /\ TransactionProcessor.ProcessResult.error r = "Out of gas"
          /\ TransactionProcessor.ProcessResult.gas_used r = Some 30000
          /\ StateManager.get_storage ExecScenario.contract StoreScenario.slot0 st'
             = ExecScenario.one_word
          /\ StateManager.get_nonce Scenario.A st' = 1
          /\ StateManager.get_balance Scenario.A st' = 1000000000 - 30000
      | _ => False
      end).
Proof. split; cbn zeta; vm_compute; repeat split. Qed.

(** ** The mempool *)

Section MempoolFacts.
Context `{Crypto}.

Lemma add_transaction_admissible (tx : Transaction.t) (sender_balance : Z)
  (pool : Mempool.t) :
  admissible tx sender_balance pool ->
  Mempool.add_transaction tx sender_balance pool
  = let sender_key := Address.to_hex (Transaction.from tx) in
    let sender_txs :=
      default Mempool.SenderTxs.default (Mempool.by_sender_ pool !! sender_key) in
    match pooled_at tx pool with
    | Some existing =>
        if Transaction.max_fee_per_gas tx
           <=? mul64 (Transaction.max_fee_per_gas existing) 110 / 100
        then (Mempool.Underpriced,
              Mempool.mk (Mempool.max_size_ pool)
                (<[sender_key := sender_txs]> (Mempool.by_sender_ pool))
                (Mempool.by_hash_ pool) (Mempool.priority_queue_ pool))
        else (Mempool.Replaced,
              Mempool.mk (Mempool.max_size_ pool)
                (<[sender_key :=
                     Mempool.SenderTxs.mk
                       (<[Transaction.nonce tx := tx]>
                          (Mempool.SenderTxs.by_nonce sender_txs))
                       (Mempool.SenderTxs.pending_nonce sender_txs)]>
                   (Mempool.by_sender_ pool))
                (<[Transaction.hash tx := tx]>
                   (delete (Transaction.hash existing) (Mempool.by_hash_ pool)))
                (Mempool.priority_queue_ pool))
    | None => (Mempool.Added, (Mempool.add_transaction tx sender_balance pool).2)
    end.
Proof.
  intros (Hnew & Hfunds & Hroom). unfold required_funds in Hfunds.
  unfold Mempool.add_transaction, pooled_at. rewrite Hnew.
  rewrite bool_decide_eq_false_2 by (intros [? ?]; done).
  destruct (Z.ltb_spec sender_balance
              (add64 (Transaction.value tx)
                 (mul64 (Transaction.gas_limit tx) (Transaction.max_fee_per_gas tx))));
    [lia|].
  destruct (Z.geb_spec (Z.of_nat (size (Mempool.by_hash_ pool)))
              (Mempool.max_size_ pool)); [lia|].
  cbn zeta.
  destruct (Mempool.SenderTxs.by_nonce _ !! Transaction.nonce tx); reflexivity.
Qed.

(** C10 (amended): [add_transaction] never answers [NonceTooLow],
    [NonceTooHigh] or [Invalid]: its answer is one of the other six.  A
    transaction that is not a duplicate and passes the balance and capacity
    checks is dealt with without any comparison of its nonce with the
    sender's on-chain or pending nonce: it is [Added], and can be looked up by
    its hash, whenever no transaction is pooled under its sender and nonce,
    whatever the nonce is.  When one is pooled there it is not always
    admitted: it is [Replaced], or it is answered [Underpriced] because its
    fee cap is at most 110/100 of the pooled one. *)
Theorem add_transaction_ignores_nonce (tx : Transaction.t) (sender_balance : Z)
  (pool : Mempool.t) :
  let res := (Mempool.add_transaction tx sender_balance pool).1 in
  let pool' := (Mempool.add_transaction tx sender_balance pool).2 in
  (res = Mempool.Added \/ res = Mempool.Replaced \/ res = Mempool.AlreadyKnown
   \/ res = Mempool.Underpriced \/ res = Mempool.InsufficientFunds
   \/ res = Mempool.PoolFull)
  /\ (admissible tx sender_balance pool ->
      match pooled_at tx pool with
      | None =>
          res = Mempool.Added
          /\ Mempool.get_transaction (Transaction.hash tx) pool' = Some tx
      | Some existing =>
          (res = Mempool.Replaced
           /\ Mempool.get_transaction (Transaction.hash tx) pool' = Some tx)
          \/ (res = Mempool.Underpriced
              /\ Transaction.max_fee_per_gas tx
                 <= mul64 (Transaction.max_fee_per_gas existing) 110 / 100)
      end).
Proof.
  cbn zeta. split.
  - unfold Mempool.add_transaction.
    repeat (case_bool_decide || case_match); cbn; tauto.
  - intros Hadm. rewrite (add_transaction_admissible _ _ _ Hadm). cbn zeta.
    destruct (pooled_at tx pool) as [existing|] eqn:Hslot.
    + destruct (Z.leb_spec (Transaction.max_fee_per_gas tx)
                  (mul64 (Transaction.max_fee_per_gas existing) 110 / 100)).
      * right. by split.
      * left. split; [reflexivity|]. cbn.
        unfold Mempool.get_transaction. cbn. by rewrite lookup_insert_eq.
    + split; [reflexivity|]. cbn.
      destruct Hadm as (Hnew & Hfunds & Hroom). unfold required_funds in Hfunds.
      unfold Mempool.add_transaction. unfold pooled_at in Hslot.
      rewrite Hnew, bool_decide_eq_false_2 by (intros [? ?]; done).
      destruct (Z.ltb_spec sender_balance
                  (add64 (Transaction.value tx)
                     (mul64 (Transaction.gas_limit tx) (Transaction.max_fee_per_gas tx))));
        [lia|].
      destruct (Z.geb_spec (Z.of_nat (size (Mempool.by_hash_ pool)))
                  (Mempool.max_size_ pool)); [lia|].
      cbn zeta. rewrite Hslot. unfold Mempool.get_transaction. cbn.
      by rewrite lookup_insert_eq.
Qed.

(** The replacement rule in exact arithmetic: with a transaction pooled under
    the same sender and nonce, an admissible transaction replaces it exactly
    when its fee cap is strictly more than 1.10 times the old one. *)
Lemma add_transaction_replacement_rule (tx existing : Transaction.t)
  (sender_balance : Z) (pool : Mempool.t) :
  admissible tx sender_balance pool ->
  pooled_at tx pool = Some existing ->
  0 <= Transaction.max_fee_per_gas existing ->
  Transaction.max_fee_per_gas existing * 110 < 2 ^ 64 ->
  (Mempool.add_transaction tx sender_balance pool).1
  = if 110 * Transaction.max_fee_per_gas existing
       <? 100 * Transaction.max_fee_per_gas tx
    then Mempool.Replaced else Mempool.Underpriced.
Proof.
  intros Hadm Hslot Hlo Hhi.
  rewrite (add_transaction_admissible _ _ _ Hadm). cbn zeta. rewrite Hslot.
  assert (Hm : mul64 (Transaction.max_fee_per_gas existing) 110
               = Transaction.max_fee_per_gas existing * 110).
  { unfold mul64, wrap64. apply Z.mod_small. lia. }
  rewrite Hm.
  destruct (Z.leb_spec (Transaction.max_fee_per_gas tx)
              (Transaction.max_fee_per_gas existing * 110 / 100)) as [Hle|Hgt];
    destruct (Z.ltb_spec (110 * Transaction.max_fee_per_gas existing)
                (100 * Transaction.max_fee_per_gas tx)) as [Hlt|Hge];
    try reflexivity; exfalso; revert Hle || revert Hgt;
    Z.div_mod_to_equations; lia.
Qed.

(** C5 at the boundary: a replacement whose fee cap is exactly 1.10 times the
    pooled one is answered [Underpriced]. *)
Theorem add_transaction_exact_bump_underpriced (tx existing : Transaction.t)
  (sender_balance k : Z) (pool : Mempool.t) :
  admissible tx sender_balance pool ->
  pooled_at tx pool = Some existing ->
  0 <= k -> 1100 * k < 2 ^ 64 ->
  Transaction.max_fee_per_gas existing = 10 * k ->
  Transaction.max_fee_per_gas tx = 11 * k ->
  (Mempool.add_transaction tx sender_balance pool).1 = Mempool.Underpriced.
Proof.
  intros Hadm Hslot Hk Hbound Hold Hnew.
  rewrite (add_transaction_replacement_rule tx existing) by (done || lia).
  destruct (Z.ltb_spec (110 * Transaction.max_fee_per_gas existing)
              (100 * Transaction.max_fee_per_gas tx)); [lia|reflexivity].
Qed.

(** On [Replaced] the old transaction can no longer be looked up by its hash. *)
Lemma replaced_evicts_old (tx existing : Transaction.t) (sender_balance : Z)
  (pool : Mempool.t) :
  admissible tx sender_balance pool ->
  pooled_at tx pool = Some existing ->
  Transaction.hash existing <> Transaction.hash tx ->
  (Mempool.add_transaction tx sender_balance pool).1 = Mempool.Replaced ->
  Mempool.get_transaction (Transaction.hash existing)
    (Mempool.add_transaction tx sender_balance pool).2 = None.
Proof.
  intros Hadm Hslot Hne.
  rewrite (add_transaction_admissible _ _ _ Hadm). cbn zeta. rewrite Hslot.
  destruct (_ <=? _); [discriminate|]. intros _.
  unfold Mempool.get_transaction. cbn.
  rewrite lookup_insert_ne by done. apply lookup_delete_eq.
Qed.

End MempoolFacts.

(** *** Block selection *)

Section Selection.

Variables (by_hash : gmap (list Z) Transaction.t) (gas_limit base_fee : Z).




End Selection.

Lemma get_block_transactions_result (gas_limit base_fee : Z) (pool : Mempool.t) :
  (Mempool.get_block_transactions gas_limit base_fee pool).1
  = (Mempool.select_loop (Mempool.rebuild_priority_queue base_fee pool)
       (Mempool.by_hash_ pool) gas_limit base_fee [] ∅ 0).1.
Proof.
  unfold Mempool.get_block_transactions.
  by destruct (Mempool.select_loop _ _ _ _ _ _ _).
Qed.


(** *** The mempool on concrete inputs *)

Lemma add_transaction_ignores_nonce_witness :
  (Mempool.add_transaction (PoolScenario.tx 7 1000000000) PoolScenario.balance
     PoolScenario.pool0).1 = Mempool.Added.
Proof.
  pose proof (add_transaction_ignores_nonce (PoolScenario.tx 7 1000000000)
                PoolScenario.balance PoolScenario.pool0) as [_ Hw].
  assert (Hadm : admissible (PoolScenario.tx 7 1000000000) PoolScenario.balance
                   PoolScenario.pool0) by (repeat split; by_evaluation).
  specialize (Hw Hadm).
  assert (Hslot : pooled_at (PoolScenario.tx 7 1000000000) PoolScenario.pool0 = None)
    by by_evaluation.
  rewrite Hslot in Hw. exact (proj1 Hw).
Defined.

(** C10, as stated, fails: a transaction that is no duplicate and passes the
    balance and capacity checks is not always admitted.  With [A]'s nonce 0
    pooled at fee cap 10^9, [A]'s nonce 0 at fee cap 1.05 * 10^9 passes the
    three checks, is answered [Underpriced] and cannot be looked up
    afterwards; the pooled transaction stays. *)
Lemma add_transaction_admissible_not_admitted :
  admissible (PoolScenario.tx 0 1050000000) PoolScenario.balance PoolScenario.pool0
  /\ (Mempool.add_transaction (PoolScenario.tx 0 1050000000) PoolScenario.balance
        PoolScenario.pool0).1 = Mempool.Underpriced
  /\ Mempool.get_transaction (Transaction.hash (PoolScenario.tx 0 1050000000))
       (Mempool.add_transaction (PoolScenario.tx 0 1050000000) PoolScenario.balance
          PoolScenario.pool0).2 = None
  /\ Mempool.get_transaction (Transaction.hash (PoolScenario.tx 0 1000000000))
       (Mempool.add_transaction (PoolScenario.tx 0 1050000000) PoolScenario.balance
          PoolScenario.pool0).2 = Some (PoolScenario.tx 0 1000000000).
Proof.
  split; [repeat split; by_evaluation|].
  split; [by_evaluation|]. split; by_evaluation.
Qed.

Lemma add_transaction_exact_bump_underpriced_witness :
  (Mempool.add_transaction (PoolScenario.tx 0 1100000000) PoolScenario.balance
     PoolScenario.pool0).1 = Mempool.Underpriced.
Proof.
  apply (add_transaction_exact_bump_underpriced (PoolScenario.tx 0 1100000000)
           (PoolScenario.tx 0 1000000000) PoolScenario.balance 100000000
           PoolScenario.pool0).
  - repeat split; by_evaluation.
  - by_evaluation.
  - lia.
  - lia.
  - reflexivity.
  - reflexivity.
Defined.

(** The replace-by-fee scenario of the specification: after a transaction at
    [(A, 0)] with fee cap 10^9, fee cap 1.05 * 10^9 and fee cap 1.10 * 10^9 are
    both [Underpriced]; one unit more is [Replaced]. *)
Lemma replace_by_fee_scenario :
  (Mempool.add_transaction (PoolScenario.tx 0 1050000000) PoolScenario.balance
     PoolScenario.pool0).1 = Mempool.Underpriced
  /\ (Mempool.add_transaction (PoolScenario.tx 0 1100000000) PoolScenario.balance
        PoolScenario.pool0).1 = Mempool.Underpriced
  /\ (Mempool.add_transaction (PoolScenario.tx 0 1100000001) PoolScenario.balance
        PoolScenario.pool0).1 = Mempool.Replaced.
Proof. repeat split; by_evaluation. Qed.



(** Why the gas bound needs its side condition: a pooled gas limit close to
    2^64 wraps the 64-bit counter, and the selection then returns
    transactions whose gas limits sum to more than the block gas limit. *)
Lemma select_gas_counter_can_wrap :
  (Mempool.get_block_transactions 30000000 1 PoolScenario.pool_huge).1
  = [PoolScenario.tipped_tx; PoolScenario.huge_gas_tx]
  /\ 30000000
     < sum_gas (Mempool.get_block_transactions 30000000 1 PoolScenario.pool_huge).1.
Proof. split; by_evaluation. Qed.

(** ** The rotating sequencer set *)

Section Leader.

Import ConsensusEngine.

Lemma sort_insert_perm (x : Sequencer.t) (l : list Sequencer.t) :
  sort_insert x l ≡ₚ x :: l.
Proof.
  induction l as [|y l IH]; cbn [sort_insert]; [done|].
  destruct (stake_gt x y); [done|].
  rewrite IH. apply Permutation_swap.
Qed.

Lemma sort_insert_sorted (x : Sequencer.t) (l : list Sequencer.t) :
  StronglySorted stake_ge l -> StronglySorted stake_ge (sort_insert x l).
Proof.
  induction 1 as [|y l Hl IH Hy]; cbn [sort_insert].
  - repeat constructor.
  - unfold stake_gt. destruct (Z.gtb_spec (Sequencer.stake x) (Sequencer.stake y)).
    + constructor; [by constructor|].
      constructor; [unfold stake_ge; lia|].
      eapply Forall_impl; [exact Hy|]. unfold stake_ge. intros z Hz. lia.
    + constructor; [exact IH|].
      rewrite sort_insert_perm. constructor; [unfold stake_ge; lia|exact Hy].
Qed.

Lemma sort_by_stake_sorted (l : list Sequencer.t) :
  StronglySorted stake_ge (sort_by_stake l).
Proof.
  unfold sort_by_stake.
  assert (Hgen : forall acc, StronglySorted stake_ge acc ->
            StronglySorted stake_ge (foldl (fun sorted x => sort_insert x sorted) acc l)).
  { induction l as [|x l IH]; intros acc Hacc; cbn [foldl]; [done|].
    apply IH. by apply sort_insert_sorted. }
  apply Hgen. constructor.
Qed.

Lemma sort_by_stake_perm (l : list Sequencer.t) : sort_by_stake l ≡ₚ l.
Proof.
  unfold sort_by_stake.
  assert (Hgen : forall acc,
            foldl (fun sorted x => sort_insert x sorted) acc l ≡ₚ l ++ acc).
  { induction l as [|x l IH]; intros acc; cbn [foldl]; [done|].
    rewrite IH, sort_insert_perm. cbn. by rewrite Permutation_middle. }
  rewrite Hgen. by rewrite app_nil_r.
Qed.

(** The active set [update_active_set] leaves is in descending order of
    stake. *)
Lemma update_active_set_sorted (e : t) :
  StronglySorted stake_ge (active_set_ (update_active_set e)).
Proof.
  unfold update_active_set. cbn [active_set_].
  apply (StronglySorted_fmap _ stake_ge stake_ge); [by intros [] []|].
  set (sorted := sort_by_stake _).
  set (count := Nat.min _ _).
  pose proof (sort_by_stake_sorted
                (filter (fun s => eligible_b (config_ e) s = true) (sequencers_ e)))
    as Hs.
  fold sorted in Hs. rewrite <- (take_drop count sorted) in Hs.
  by apply StronglySorted_app_1_l in Hs.
Qed.

Lemma sum_stake_nonneg (l : list Sequencer.t) :
  Forall stake_nonneg l -> 0 <= sum_stake l.
Proof.
  induction 1 as [|s l Hs _ IH]; cbn; [lia|].
  unfold stake_nonneg in Hs. lia.
Qed.

Lemma total_fold (l : list Sequencer.t) :
  Forall stake_nonneg l ->
  forall acc, 0 <= acc -> acc + sum_stake l < 2 ^ 64 ->
    foldl (fun total s => add64 total (Sequencer.stake s)) acc l = acc + sum_stake l.
Proof.
  induction 1 as [|s l Hs Hl IH]; intros acc Hacc Hlt; cbn [foldl sum_stake].
  - lia.
  - unfold stake_nonneg in Hs.
    pose proof (sum_stake_nonneg l Hl).
    cbn in Hlt.
    assert (Ha : add64 acc (Sequencer.stake s) = acc + Sequencer.stake s).
    { unfold add64, wrap64. apply Z.mod_small. lia. }
    rewrite Ha, IH by lia. lia.
Qed.

Lemma total_active_stake_sum (e : t) :
  Forall stake_nonneg (active_set_ e) ->
  0 < sum_stake (active_set_ e) < 2 ^ 64 ->
  total_active_stake e = sum_stake (active_set_ e).
Proof.
  intros Hnn Hsum. unfold total_active_stake.
  rewrite total_fold by (done || lia). rewrite Z.add_0_l.
  destruct (Z.gtb_spec (sum_stake (active_set_ e)) 0); [done|lia].
Qed.

(** The walk stops at the first sequencer whose running total exceeds [v]:
    the one at position [i] with
    [stake before i <= v - c < stake before i + its own stake]. *)
Lemma leader_walk_first (l : list Sequencer.t) :
  Forall stake_nonneg l ->
  forall c v, 0 <= c -> c + sum_stake l < 2 ^ 64 -> c <= v < c + sum_stake l ->
    exists i seq,
      l !! i = Some seq
      /\ leader_walk v c l = Some (Sequencer.address seq)
      /\ c + sum_stake (take i l) <= v
         < c + sum_stake (take i l) + Sequencer.stake seq.
Proof.
  induction 1 as [|s l Hs Hl IH]; intros c v Hc Hlt Hv.
  - cbn in Hv. lia.
  - cbn in Hlt, Hv.
    unfold stake_nonneg in Hs. pose proof (sum_stake_nonneg l Hl).
    cbn [leader_walk].
    assert (Ha : add64 c (Sequencer.stake s) = c + Sequencer.stake s).
    { unfold add64, wrap64. apply Z.mod_small. lia. }
    rewrite Ha.
    destruct (Z.ltb_spec v (c + Sequencer.stake s)) as [Hin|Hout].
    + exists 0%nat, s. split; [done|]. split; [done|]. cbn. lia.
    + destruct (IH (c + Sequencer.stake s) v) as (i & seq & Hi & Hw & Hr); try lia.
      exists (S i), seq. split; [done|]. split; [done|].
      cbn [take sum_stake]. lia.
Qed.

Lemma sum_stake_take_S (l : list Sequencer.t) (i : nat) (seq : Sequencer.t) :
  l !! i = Some seq ->
  sum_stake (take (S i) l) = sum_stake (take i l) + Sequencer.stake seq.
Proof.
  revert i. induction l as [|s l IH]; intros [|i] Hi; try done.
  - injection Hi as ->. cbn [take sum_stake]. rewrite take_0. cbn [sum_stake]. lia.
  - change (l !! i = Some seq) in Hi.
    change (take (S (S i)) (s :: l)) with (s :: take (S i) l).
    change (take (S i) (s :: l)) with (s :: take i l).
    cbn [sum_stake]. rewrite (IH i) by done. lia.
Qed.

Lemma sum_stake_take_mono (l : list Sequencer.t) (i j : nat) :
  Forall stake_nonneg l -> (i <= j)%nat ->
  sum_stake (take i l) <= sum_stake (take j l).
Proof.
  intros Hnn. revert i j. induction Hnn as [|s l Hs Hl IH]; intros i j Hij.
  - by rewrite !take_nil.
  - destruct i as [|i]; destruct j as [|j]; try lia.
    + cbn [take sum_stake].
      pose proof (sum_stake_nonneg (take j l) (Forall_take _ _ _ Hl)).
      unfold stake_nonneg in Hs. lia.
    + cbn [take sum_stake].
      pose proof (IH i j). lia.
Qed.

(** The stake intervals of two positions of the walk do not overlap. *)
Lemma stake_intervals_disjoint (l : list Sequencer.t) (i j : nat)
  (si sj : Sequencer.t) (v : Z) :
  Forall stake_nonneg l ->
  l !! i = Some si -> l !! j = Some sj ->
  sum_stake (take i l) <= v < sum_stake (take i l) + Sequencer.stake si ->
  sum_stake (take j l) <= v < sum_stake (take j l) + Sequencer.stake sj ->
  i = j.
Proof.
  intros Hnn Hi Hj Hvi Hvj.
  destruct (Nat.lt_trichotomy i j) as [Hlt|[Heq|Hgt]]; [|done|].
  - pose proof (sum_stake_take_mono l (S i) j Hnn ltac:(lia)) as Hm.
    rewrite (sum_stake_take_S l i si) in Hm by done. lia.
  - pose proof (sum_stake_take_mono l (S j) i Hnn ltac:(lia)) as Hm.
    rewrite (sum_stake_take_S l j sj) in Hm by done. lia.
Qed.

Lemma filter_all {A} (P : A -> Prop) `{forall x, Decision (P x)} (l : list A) :
  Forall P l -> filter P l = l.
Proof.
  induction 1 as [|x l Hx _ IH]; [done|]. by rewrite filter_cons_True, IH.
Qed.

Lemma filter_none {A} (P : A -> Prop) `{forall x, Decision (P x)} (l : list A) :
  Forall (fun x => ~ P x) l -> filter P l = [].
Proof.
  induction 1 as [|x l Hx _ IH]; [done|]. by rewrite filter_cons_False, IH.
Qed.

(** Among [T] consecutive numbers from [start], a property that holds
    exactly on a sub-range of [n] of them selects [n] numbers. *)
Lemma count_sub_range (P : Z -> Prop) `{forall x, Decision (P x)}
  (start T lo n : Z) :
  0 <= lo -> 0 <= n -> lo + n <= T ->
  (forall x, start <= x < start + T -> (P x <-> start + lo <= x < start + lo + n)) ->
  length (filter P (seqZ start T)) = Z.to_nat n.
Proof.
  intros Hlo Hn HT HP.
  replace T with (lo + (n + (T - lo - n))) by lia.
  rewrite !seqZ_app, !filter_app by lia.
  rewrite (filter_none P (seqZ start lo)),
          (filter_all P (seqZ (start + lo) n)),
          (filter_none P (seqZ (start + lo + n) (T - lo - n))).
  - by rewrite app_nil_l, app_nil_r, length_seqZ.
  - apply Forall_seqZ. intros x Hx. rewrite HP by lia. lia.
  - apply Forall_seqZ. intros x Hx. rewrite HP by lia. lia.
  - apply Forall_seqZ. intros x Hx. rewrite HP by lia. lia.
Qed.

Lemma mod_in_cycle (T k slot : Z) :
  0 < T -> k * T <= slot < k * T + T -> slot mod T = slot - k * T.
Proof. intros HT Hs. symmetry. apply (Z.mod_unique_pos slot T k); lia. Qed.

Lemma get_leader_of_walk (e : t) (slot : Z) (a : Address.t) :
  leader_walk (slot mod total_active_stake e) 0 (active_set_ e) = Some a ->
  get_leader_for_slot slot e = a.
Proof.
  unfold get_leader_for_slot.
  destruct (active_set_ e) as [|first rest]; [done|]. by intros ->.
Qed.

(** With distinct addresses, the leader of a slot is the sequencer at
    position [i] exactly when [slot mod total] falls in that sequencer's
    stake interval. *)
Lemma leader_iff_interval (e : t) (slot : Z) (i : nat) (seq : Sequencer.t) :
  Forall stake_nonneg (active_set_ e) ->
  0 < sum_stake (active_set_ e) < 2 ^ 64 ->
  NoDup (Sequencer.address <$> active_set_ e) ->
  active_set_ e !! i = Some seq ->
  get_leader_for_slot slot e = Sequencer.address seq
  <-> sum_stake (take i (active_set_ e))
      <= slot mod sum_stake (active_set_ e)
      < sum_stake (take i (active_set_ e)) + Sequencer.stake seq.
Proof.
  intros Hnn Hsum Hnd Hi.
  pose proof (Z.mod_pos_bound slot (sum_stake (active_set_ e)) ltac:(lia)) as Hm.
  destruct (leader_walk_first (active_set_ e) Hnn 0
              (slot mod sum_stake (active_set_ e)))
    as (j & sj & Hj & Hw & Hr); try lia.
  assert (Hl : get_leader_for_slot slot e = Sequencer.address sj).
  { apply get_leader_of_walk. by rewrite total_active_stake_sum. }
  rewrite Hl. split.
  - intros Ha.
    assert (j = i) as ->.
    { apply (NoDup_lookup (Sequencer.address <$> active_set_ e) j i
               (Sequencer.address seq)); [done|..];
        rewrite list_lookup_fmap; [rewrite Hj|rewrite Hi]; cbn; congruence. }
    rewrite Hi in Hj. injection Hj as <-. lia.
  - intros Hv.
    assert (j = i) as ->.
    { eapply (stake_intervals_disjoint (active_set_ e)); eauto; lia. }
    congruence.
Qed.

(** C8 (amended): the active set is walked in the order [update_active_set]
    leaves it, which is descending stake with no rule for equal stakes other
    than the order the sort leaves them in.  For an active set of
    non-negative stakes whose sum [total] is positive and fits 64 bits, the
    leader of a slot is the first sequencer whose running total of stake
    exceeds [slot mod total]; and when the addresses are distinct, each
    sequencer leads exactly [stake] of the [total] slots of every cycle
    [k * total, (k + 1) * total). *)
Theorem leader_for_slot_by_stake (e0 : t) :
  let e := update_active_set e0 in
  let active := active_set_ e in
  let total := sum_stake active in
  StronglySorted stake_ge active
  /\ (Forall stake_nonneg active -> 0 < total < 2 ^ 64 ->
      (forall slot,
         exists i seq,
           active !! i = Some seq
           /\ get_leader_for_slot slot e = Sequencer.address seq
           /\ sum_stake (take i active) <= slot mod total
              < sum_stake (take i active) + Sequencer.stake seq)
      /\ (NoDup (Sequencer.address <$> active) ->
          forall i seq k,
            active !! i = Some seq ->
            length (filter (fun slot => get_leader_for_slot slot e
                                        = Sequencer.address seq)
                           (seqZ (k * total) total))
            = Z.to_nat (Sequencer.stake seq))).
Proof.
  cbn zeta. set (e := update_active_set e0).
  split; [apply update_active_set_sorted|].
  intros Hnn Hsum. split.
  - intros slot.
    pose proof (Z.mod_pos_bound slot (sum_stake (active_set_ e)) ltac:(lia)) as Hm.
    destruct (leader_walk_first (active_set_ e) Hnn 0
                (slot mod sum_stake (active_set_ e)))
      as (j & sj & Hj & Hw & Hr); try lia.
    exists j, sj. split; [done|]. split; [|lia].
    apply get_leader_of_walk. by rewrite total_active_stake_sum.
  - intros Hnd i seq k Hi.
    assert (Hs : stake_nonneg seq).
    { eapply Forall_lookup_1; eauto. }
    unfold stake_nonneg in Hs.
    pose proof (sum_stake_nonneg (take i (active_set_ e)) (Forall_take _ _ _ Hnn))
      as Hp.
    assert (Hfit : sum_stake (take i (active_set_ e)) + Sequencer.stake seq
                   <= sum_stake (active_set_ e)).
    { rewrite <- (sum_stake_take_S _ i seq) by done.
      rewrite <- (firstn_all (active_set_ e)) at 2.
      destruct (Nat.le_gt_cases (S i) (length (active_set_ e))).
      - by apply sum_stake_take_mono.
      - apply lookup_lt_Some in Hi. lia. }
    apply (count_sub_range _ _ _ (sum_stake (take i (active_set_ e)))); try lia.
    intros slot Hslot.
    rewrite (leader_iff_interval e slot i seq) by done.
    rewrite (mod_in_cycle _ k) by lia. lia.
Qed.

End Leader.

(** *** The sequencer set on concrete inputs *)

Lemma leader_for_slot_by_stake_witness :
  length (filter (fun slot =>
                    ConsensusEngine.get_leader_for_slot slot
                      (ConsensusEngine.update_active_set SequencerScenario.engine31)
                    = Scenario.A)
                 (seqZ 0 4))
  = 3%nat.
Proof.
  pose proof (leader_for_slot_by_stake SequencerScenario.engine31) as [_ Hw].
  cbn zeta in Hw.
  destruct Hw as [_ Hshare].
  - apply (bool_decide_unpack _). by_evaluation.
  - split; by_evaluation.
  - assert (Hnd : NoDup (ConsensusEngine.Sequencer.address
                          <$> ConsensusEngine.active_set_
                                (ConsensusEngine.update_active_set
                                   SequencerScenario.engine31)))
      by (apply (bool_decide_unpack _); by_evaluation).
    exact (Hshare Hnd 0%nat
             (ConsensusEngine.Sequencer.with_status
                (SequencerScenario.sequencer Scenario.A 3) ConsensusEngine.Active)
             0 eq_refl).
Defined.

(** C8, as stated, fails on the tie rule: with two sequencers of equal stake
    the reference puts the smaller address first and makes it the leader of
    slot 0, the code keeps the order of registration. *)
Lemma leader_tie_not_by_address :
  LeaderSpec.bytes_ltb (Address.payment_credential Scenario.A)
                       (Address.payment_credential Scenario.B) = true
  /\ LeaderSpec.spec_leader 0
       (ConsensusEngine.active_set_ SequencerScenario.engine_tie)
     = Some Scenario.A
  /\ ConsensusEngine.get_leader_for_slot 0 SequencerScenario.engine_tie
     = Scenario.B
  /\ Some (ConsensusEngine.get_leader_for_slot 0 SequencerScenario.engine_tie)
     <> LeaderSpec.spec_leader 0
          (ConsensusEngine.active_set_ SequencerScenario.engine_tie).
Proof. repeat split; by_evaluation. Qed.

(** * Further properties

    The functions below are the ones the properties above leave out: the
    serialisation of transactions and blocks, the rest of the storage layer,
    the sequencer set and the chain head, the bookkeeping of the mempool, the
    fee rule, simulation, Merkle proofs, the validity prover and the
    execution of a block. *)

(** ** Serialisation (core/types.cpp) *)

Section Wire.


#[local] Arguments append_uint64 : simpl never.
#[local] Arguments append_bytes : simpl never.

Lemma read_uint64_at (d pre : Bytes) (v : Z) (rest : Bytes) (offset : nat) :
  d = pre ++ append_uint64 v ++ rest -> offset = length pre -> is_u64 v ->
  read_uint64 d offset = (v, (offset + 8)%nat).
Proof.
  intros -> -> Hv. unfold read_uint64.
  pose proof (read_skip 8 pre (append_uint64 v ++ rest) 0 0) as Hr.
  rewrite Nat.add_0_r in Hr. rewrite Hr.
  fold (read_uint64 (append_uint64 v ++ rest) 0).
  rewrite read_append_uint64 by done. reflexivity.
Qed.

Lemma length_append_bytes (b : Bytes) :
  length (append_bytes b) = (8 + length b)%nat.
Proof. unfold append_bytes. by rewrite length_app, length_append_uint64. Qed.

Lemma read_bytes_at (d pre b rest : Bytes) (offset : nat) :
  d = pre ++ append_bytes b ++ rest -> offset = length pre ->
  Z.of_nat (length d) < 2 ^ 64 ->
  read_bytes d offset = Decoded (b, (offset + 8 + length b)%nat).
Proof.
  intros Hd Ho Hlen. unfold read_bytes.
  assert (Hdl : length d = (length pre + (8 + length b) + length rest)%nat).
  { rewrite Hd, !length_app, length_append_bytes. lia. }
  rewrite (read_uint64_at d pre (Z.of_nat (length b)) (b ++ rest) offset).
  - unfold add64, wrap64. rewrite Z.mod_small by lia.
    destruct (Z.gtb_spec (Z.of_nat (offset + 8) + Z.of_nat (length b))
                (Z.of_nat (length d))) as [Hgt|_]; [lia|].
    destruct (Z.ltb_spec (Z.of_nat (offset + 8) + Z.of_nat (length b)) (2 ^ 64))
      as [_|Hge]; [|lia].
    rewrite Nat2Z.id. do 2 f_equal.
    rewrite Hd, Ho. unfold append_bytes. rewrite <- !app_assoc.
    rewrite drop_app_ge by (rewrite ?length_append_uint64; lia).
    rewrite drop_app_ge by (rewrite ?length_append_uint64; lia).
    rewrite length_append_uint64.
    replace (length pre + 8 - length pre - 8)%nat with 0%nat by lia.
    rewrite drop_0. by rewrite take_app_length.
  - rewrite Hd. unfold append_bytes. by rewrite <- !app_assoc.
  - done.
  - unfold is_u64. lia.
Qed.

Lemma take_drop_at (d pre chunk rest : Bytes) (offset n : nat) :
  d = pre ++ chunk ++ rest -> offset = length pre -> n = length chunk ->
  take n (drop offset d) = chunk.
Proof.
  intros -> -> ->. rewrite drop_app_length. by rewrite take_app_length.
Qed.

Lemma length_transaction_encode (tx : Transaction.t) :
  length (Transaction.encode tx)
  = (8 + length (Address.payment_credential (Transaction.from tx))
     + (8 + length (Address.payment_credential (Transaction.to tx)))
     + 40 + (8 + length (Transaction.data tx))
     + length (Transaction.sender_pubkey tx)
     + length (Transaction.signature tx))%nat.
Proof.
  unfold Transaction.encode.
  rewrite !length_app, !length_append_bytes, !length_append_uint64. lia.
Qed.

Lemma transaction_decode_encode_aux (tx : Transaction.t) :
  tx_wf tx -> Transaction.decode (Transaction.encode tx) = Decoded (tx_on_wire tx).
Proof.
  destruct tx as [from to value nonce data gas_limit max_fee max_prio pk sig].
  unfold tx_wf, tx_on_wire. cbn [Transaction.from Transaction.to Transaction.value
    Transaction.nonce Transaction.data Transaction.gas_limit
    Transaction.max_fee_per_gas Transaction.max_priority_fee_per_gas
    Transaction.sender_pubkey Transaction.signature].
  intros (Hv & Hn & Hg & Hf & Hp & Hfrom & Hto & Hpk & Hsig & Hdata).
  pose proof (length_transaction_encode
                (Transaction.mk from to value nonce data gas_limit max_fee max_prio
                                pk sig)) as Hlen.
  cbn [Transaction.from Transaction.to Transaction.data Transaction.sender_pubkey
       Transaction.signature] in Hlen.
  rewrite Hfrom, Hto, Hpk, Hsig in Hlen.
  unfold Transaction.decode.
  set (d := Transaction.encode _) in *.
  destruct (Nat.ltb_spec (length d) 100) as [Hshort|_]; [lia|].
  set (cf := Address.payment_credential from) in *.
  set (ct := Address.payment_credential to) in *.
  assert (Hd : d = append_bytes cf ++ append_bytes ct ++ append_uint64 value
                   ++ append_uint64 nonce ++ append_uint64 gas_limit
                   ++ append_uint64 max_fee ++ append_uint64 max_prio
                   ++ append_bytes data ++ pk ++ sig) by reflexivity.
  clearbody d.
  assert (Hd64 : Z.of_nat (length d) < 2 ^ 64) by lia.
  rewrite (read_bytes_at d [] cf
             (append_bytes ct ++ append_uint64 value
              ++ append_uint64 nonce ++ append_uint64 gas_limit
              ++ append_uint64 max_fee ++ append_uint64 max_prio
              ++ append_bytes data ++ pk ++ sig) 0) by done.
  cbn [mbind decoded_bind]. rewrite Hfrom. cbn [Nat.add].
  rewrite (read_bytes_at d (append_bytes cf) ct
             (append_uint64 value
              ++ append_uint64 nonce ++ append_uint64 gas_limit
              ++ append_uint64 max_fee ++ append_uint64 max_prio
              ++ append_bytes data ++ pk ++ sig) 36)
    by (done || (rewrite length_append_bytes; lia)).
  cbn [mbind decoded_bind]. rewrite Hto. cbn [Nat.add].
  rewrite (read_uint64_at d (append_bytes cf ++ append_bytes ct) value
             (append_uint64 nonce ++ append_uint64 gas_limit
              ++ append_uint64 max_fee ++ append_uint64 max_prio
              ++ append_bytes data ++ pk ++ sig) 72)
    by (done || (rewrite Hd, <- ?app_assoc; reflexivity)
        || (rewrite !length_app, !length_append_bytes; lia)).
  cbn [Nat.add].
  rewrite (read_uint64_at d (append_bytes cf ++ append_bytes ct ++ append_uint64 value)
             nonce
             (append_uint64 gas_limit
              ++ append_uint64 max_fee ++ append_uint64 max_prio
              ++ append_bytes data ++ pk ++ sig) 80)
    by (done || (rewrite Hd, <- ?app_assoc; reflexivity)
        || (rewrite !length_app, !length_append_bytes, !length_append_uint64; lia)).
  cbn [Nat.add].
  rewrite (read_uint64_at d (append_bytes cf ++ append_bytes ct ++ append_uint64 value
                             ++ append_uint64 nonce)
             gas_limit
             (append_uint64 max_fee ++ append_uint64 max_prio
              ++ append_bytes data ++ pk ++ sig) 88)
    by (done || (rewrite Hd, <- ?app_assoc; reflexivity)
        || (rewrite !length_app, !length_append_bytes, !length_append_uint64; lia)).
  cbn [Nat.add].
  rewrite (read_uint64_at d (append_bytes cf ++ append_bytes ct ++ append_uint64 value
                             ++ append_uint64 nonce ++ append_uint64 gas_limit)
             max_fee
             (append_uint64 max_prio ++ append_bytes data ++ pk ++ sig) 96)
    by (done || (rewrite Hd, <- ?app_assoc; reflexivity)
        || (rewrite !length_app, !length_append_bytes, !length_append_uint64; lia)).
  cbn [Nat.add].
  rewrite (read_uint64_at d (append_bytes cf ++ append_bytes ct ++ append_uint64 value
                             ++ append_uint64 nonce ++ append_uint64 gas_limit
                             ++ append_uint64 max_fee)
             max_prio
             (append_bytes data ++ pk ++ sig) 104)
    by (done || (rewrite Hd, <- ?app_assoc; reflexivity)
        || (rewrite !length_app, !length_append_bytes, !length_append_uint64; lia)).
  cbn [Nat.add].
  rewrite (read_bytes_at d (append_bytes cf ++ append_bytes ct ++ append_uint64 value
                            ++ append_uint64 nonce ++ append_uint64 gas_limit
                            ++ append_uint64 max_fee ++ append_uint64 max_prio)
             data (pk ++ sig) 112)
    by (done || (rewrite Hd, <- ?app_assoc; reflexivity)
        || (rewrite !length_app, !length_append_bytes, !length_append_uint64; lia)).
  cbn [mbind decoded_bind].
  destruct (Nat.ltb_spec (length d) (112 + 8 + length data + 32)) as [Hshort|_]; [lia|].
  destruct (Nat.leb_spec (112 + 8 + length data + 32 + 64) (length d))
    as [_|Hshort]; [|lia].
  unfold Transaction.credential_address.
  rewrite !bool_decide_eq_true_2 by done.
  f_equal. f_equal.
  - apply (take_drop_at d (append_bytes cf ++ append_bytes ct ++ append_uint64 value
                            ++ append_uint64 nonce ++ append_uint64 gas_limit
                            ++ append_uint64 max_fee ++ append_uint64 max_prio
                            ++ append_bytes data) pk sig);
      [rewrite Hd, <- ?app_assoc; reflexivity
      |rewrite !length_app, !length_append_bytes, !length_append_uint64; lia
      |done].
  - apply (take_drop_at d (append_bytes cf ++ append_bytes ct ++ append_uint64 value
                            ++ append_uint64 nonce ++ append_uint64 gas_limit
                            ++ append_uint64 max_fee ++ append_uint64 max_prio
                            ++ append_bytes data ++ pk) sig []);
      [rewrite Hd, <- ?app_assoc, ?app_nil_r; reflexivity
      |rewrite !length_app, !length_append_bytes, !length_append_uint64; lia
      |done].
Qed.

(** X1: decoding an encoded transaction gives back every field but the two
    addresses, of which only the payment credentials survive: the type, the
    stake credential and the network flag are those of a fresh address.  So
    the round trip is the identity exactly on transactions between plain
    addresses. *)
Theorem transaction_decode_encode (tx : Transaction.t) :
  tx_wf tx ->
  Transaction.decode (Transaction.encode tx) = Decoded (tx_on_wire tx)
  /\ (tx_on_wire tx = tx
      <-> plain_address (Transaction.from tx) /\ plain_address (Transaction.to tx)).
Proof.
  intros Hwf. split; [by apply transaction_decode_encode_aux|].
  destruct Hwf as (_ & _ & _ & _ & _ & Hfrom & Hto & _).
  destruct tx as [[ft fc fs fm] [tt tc ts tm] value nonce data gas_limit max_fee
                    max_prio pk sig].
  unfold tx_on_wire, plain_address, Transaction.credential_address.
  cbn [Transaction.from Transaction.to Transaction.value Transaction.nonce
       Transaction.data Transaction.gas_limit Transaction.max_fee_per_gas
       Transaction.max_priority_fee_per_gas Transaction.sender_pubkey
       Transaction.signature Address.payment_credential Address.type
       Address.stake_credential Address.is_mainnet] in *.
  rewrite !bool_decide_eq_true_2 by done.
  split.
  - intros [= <- <- <- <- <- <-]. done.
  - intros [(-> & -> & ->) (-> & -> & ->)]. done.
Qed.


#[local] Arguments append_uint32 : simpl never.
#[local] Arguments Transaction.encode : simpl never.
#[local] Arguments Transaction.decode : simpl never.

Lemma length_append_uint32 (v : Z) : length (append_uint32 v) = 4%nat.
Proof. reflexivity. Qed.

Lemma be_step32 (x : Z) :
  0 <= x < 2 ^ 32 ->
  Z.lor (wrap32 (Z.shiftl (Z.shiftr x 8) 8)) (Z.land x 255) = x.
Proof.
  intros Hx. unfold wrap32.
  assert (Hsh : Z.shiftl (Z.shiftr x 8) 8 = Z.ldiff x (Z.ones 8)).
  { symmetry. apply Z.ldiff_ones_r. lia. }
  rewrite Z.mod_small.
  - rewrite Hsh. change 255 with (Z.ones 8). apply Z.lor_ldiff_and.
  - rewrite Z.shiftl_mul_pow2, Z.shiftr_div_pow2 by lia.
    change (2 ^ 8) with 256. split; [|]; Z.div_mod_to_equations; lia.
Qed.

Lemma be_next32 (v n : Z) :
  0 <= n -> 0 <= v < 2 ^ 32 ->
  Z.lor (wrap32 (Z.shiftl (Z.shiftr v (n + 8)) 8)) (Z.land (Z.shiftr v n) 255)
  = Z.shiftr v n.
Proof.
  intros Hn Hv.
  replace (Z.shiftr v (n + 8)) with (Z.shiftr (Z.shiftr v n) 8)
    by (rewrite Z.shiftr_shiftr by lia; reflexivity).
  apply be_step32. rewrite Z.shiftr_div_pow2 by lia.
  assert (0 < 2 ^ n) by (apply Z.pow_pos_nonneg; lia).
  split; [apply Z.div_pos; lia|].
  apply Z.le_lt_trans with v; [|lia]. apply Z.div_le_upper_bound; nia.
Qed.

Lemma read_append_uint32 (v : Z) (rest : Bytes) :
  0 <= v < 2 ^ 32 -> read_uint32 (append_uint32 v ++ rest) 0 = (v, 4%nat).
Proof.
  intros Hv. unfold read_uint32, append_uint32. cbn.
  f_equal.
  assert (H32 : Z.shiftr v 32 = 0).
  { rewrite Z.shiftr_div_pow2 by lia. apply Z.div_small. exact Hv. }
  change (3 * 8) with 24. change (2 * 8) with 16.
  change (1 * 8) with 8. change (0 * 8) with 0.
  replace (Z.shiftl 0 8) with (Z.shiftl (Z.shiftr v (24 + 8)) 8)
    by (change (24 + 8) with 32; rewrite H32; reflexivity).
  rewrite (be_next32 v 24) by (done || lia).
  change (Z.shiftr v 24) with (Z.shiftr v (16 + 8)).
  rewrite (be_next32 v 16) by (done || lia).
  change (Z.shiftr v 16) with (Z.shiftr v (8 + 8)).
  rewrite (be_next32 v 8) by (done || lia).
  change (Z.shiftr v 8) with (Z.shiftr v (0 + 8)).
  rewrite (be_next32 v 0) by (done || lia).
  apply Z.shiftr_0_r.
Qed.

Lemma read_skip32 (i : nat) (pre data : Bytes) (offset : nat) (v : Z) :
  read_uint32_loop i (pre ++ data) (length pre + offset) v
  = prod_map id (fun o => (length pre + o)%nat) (read_uint32_loop i data offset v).
Proof.
  revert offset v. induction i as [|i IH]; intros offset v; [reflexivity|].
  cbn [read_uint32_loop]. rewrite lookup_app_r by lia.
  replace (length pre + offset - length pre)%nat with offset by lia.
  destruct (data !! offset) as [b|]; [|reflexivity].
  replace (S (length pre + offset)) with (length pre + S offset)%nat by lia.
  apply IH.
Qed.

Lemma read_uint32_at (d pre : Bytes) (v : Z) (rest : Bytes) (offset : nat) :
  d = pre ++ append_uint32 v ++ rest -> offset = length pre -> 0 <= v < 2 ^ 32 ->
  read_uint32 d offset = (v, (offset + 4)%nat).
Proof.
  intros -> -> Hv. unfold read_uint32.
  pose proof (read_skip32 4 pre (append_uint32 v ++ rest) 0 0) as Hr.
  rewrite Nat.add_0_r in Hr. rewrite Hr.
  fold (read_uint32 (append_uint32 v ++ rest) 0).
  rewrite read_append_uint32 by done. reflexivity.
Qed.

Lemma length_encode_transaction (tx : Transaction.t) :
  length (Block.encode_transaction tx) = (4 + length (Transaction.encode tx))%nat.
Proof.
  unfold Block.encode_transaction. cbn zeta.
  by rewrite length_app, length_append_uint32.
Qed.

Lemma length_encode_transactions (txs : list Transaction.t) :
  (4 * length txs <= length (concat (Block.encode_transaction <$> txs)))%nat.
Proof.
  induction txs as [|tx txs IH]; [cbn; lia|].
  cbn [fmap list_fmap concat length]. rewrite length_app, length_encode_transaction.
  change (list_fmap _ _ Block.encode_transaction txs)
    with (Block.encode_transaction <$> txs). lia.
Qed.

Lemma decode_transactions_unfold (fuel : nat) (remaining : Z) (data : Bytes)
  (offset : nat) (acc : list Transaction.t) :
  0 < remaining ->
  Block.decode_transactions (S fuel) remaining data offset acc
  = if (length data <? offset + 4)%nat then Nullopt
    else
      let '(len, offset) := read_uint32 data offset in
      if Z.of_nat (length data) <? Z.of_nat offset + len then Nullopt
      else
        match Transaction.decode (take (Z.to_nat len) (drop offset data)) with
        | Decoded tx =>
            Block.decode_transactions fuel (remaining - 1) data
              (offset + Z.to_nat len)%nat (acc ++ [tx])
        | Nullopt => Nullopt
        | OutOfRange => OutOfRange
        end.
Proof.
  intros Hr. cbn [Block.decode_transactions].
  destruct (Z.leb_spec remaining 0); [lia|reflexivity].
Qed.

Lemma decode_transactions_encoded (txs : list Transaction.t) :
  forall (fuel : nat) (d pre : Bytes) (acc : list Transaction.t),
    Forall (fun tx => tx_wf tx
                      /\ Z.of_nat (length (Transaction.data tx)) < 2 ^ 32 - 216) txs ->
    d = pre ++ concat (Block.encode_transaction <$> txs) ->
    (length txs <= fuel)%nat ->
    Block.decode_transactions fuel (Z.of_nat (length txs)) d (length pre) acc
    = Decoded (acc ++ (tx_on_wire <$> txs)).
Proof.
  induction txs as [|tx txs IH]; intros fuel d pre acc Hwf Hd Hfuel.
  { destruct fuel; cbn; by rewrite app_nil_r. }
  destruct fuel as [|fuel]; [cbn in Hfuel; lia|].
  apply Forall_cons in Hwf as [[Htx Hsize] Hwf].
  rewrite decode_transactions_unfold by (cbn [length]; lia).
  cbn [fmap list_fmap concat] in Hd.
  change (list_fmap _ _ Block.encode_transaction txs)
    with (Block.encode_transaction <$> txs) in Hd.
  assert (Hlen : length (Transaction.encode tx)
                 = (216 + length (Transaction.data tx))%nat).
  { rewrite length_transaction_encode.
    destruct Htx as (_ & _ & _ & _ & _ & -> & -> & -> & -> & _). lia. }
  assert (Hdl : length d
                = (length pre + (4 + length (Transaction.encode tx))
                   + length (concat (Block.encode_transaction <$> txs)))%nat).
  { rewrite Hd, !length_app, length_encode_transaction. lia. }
  destruct (Nat.ltb_spec (length d) (length pre + 4)) as [Hshort|_]; [lia|].
  unfold Block.encode_transaction at 1 in Hd. cbn zeta in Hd.
  rewrite (read_uint32_at d pre (wrap32 (Z.of_nat (length (Transaction.encode tx))))
             (Transaction.encode tx ++ concat (Block.encode_transaction <$> txs))
             (length pre)).
  2:{ rewrite Hd, <- ?app_assoc. reflexivity. }
  2:{ reflexivity. }
  2:{ unfold wrap32. apply Z.mod_pos_bound. lia. }
  unfold wrap32. rewrite Z.mod_small by lia.
  destruct (Z.ltb_spec (Z.of_nat (length d))
              (Z.of_nat (length pre + 4) + Z.of_nat (length (Transaction.encode tx))))
    as [Hshort|_]; [lia|].
  rewrite Nat2Z.id.
  rewrite (take_drop_at d (pre ++ append_uint32 (Z.of_nat (length (Transaction.encode tx))))
             (Transaction.encode tx)
             (concat (Block.encode_transaction <$> txs)));
    [|rewrite Hd; unfold wrap32; rewrite Z.mod_small by lia;
      rewrite <- ?app_assoc; reflexivity
     |rewrite length_app, length_append_uint32; lia
     |reflexivity].
  rewrite transaction_decode_encode_aux by done.
  replace (length pre + 4 + length (Transaction.encode tx))%nat
    with (length (pre ++ Block.encode_transaction tx))
    by (rewrite length_app, length_encode_transaction; lia).
  replace (Z.of_nat (length (tx :: txs)) - 1) with (Z.of_nat (length txs))
    by (cbn [length]; lia).
  rewrite (IH fuel d (pre ++ Block.encode_transaction tx) (acc ++ [tx_on_wire tx])).
  - cbn [fmap list_fmap]. by rewrite <- app_assoc.
  - done.
  - rewrite Hd. unfold Block.encode_transaction at 2. cbn zeta.
    by rewrite <- !app_assoc.
  - cbn [length] in Hfuel. lia.
Qed.

Lemma length_header_encode (h : BlockHeader.t) :
  header_wf h -> length (BlockHeader.encode h) = 212%nat.
Proof.
  intros (_ & Hp & Hs & Ht & Hr & Hq & _).
  unfold BlockHeader.encode. rewrite !length_app, !length_append_uint64.
  rewrite Hp, Hs, Ht, Hr, Hq. reflexivity.
Qed.

Ltac wire_side Hd :=
  first [ done
        | rewrite Hd, <- ?app_assoc, ?app_nil_r; reflexivity
        | rewrite ?length_app, ?length_append_bytes, ?length_append_uint64,
            ?length_append_uint32; lia ].

Lemma block_decode_encode_aux (b : Block.t) :
  block_wf b -> Block.decode (Block.encode b) = Decoded (block_on_wire b).
Proof.
  destruct b as [h txs]. intros (Hh & Hcount & Htxs).
  cbn [Block.header Block.transactions] in *.
  pose proof (length_header_encode h Hh) as Hhl.
  destruct h as [number ph sr tr rr sq gl gu bf ts l1 bid].
  destruct Hh as (Hnum & Hph & Hsr & Htr & Hrr & Hsq & Hgl & Hgu & Hbf & Hts
                  & Hl1 & Hbid).
  cbn [BlockHeader.number BlockHeader.parent_hash BlockHeader.state_root
       BlockHeader.transactions_root BlockHeader.receipts_root
       BlockHeader.sequencer BlockHeader.gas_limit BlockHeader.gas_used
       BlockHeader.base_fee BlockHeader.timestamp BlockHeader.l1_block_number
       BlockHeader.batch_id] in *.
  unfold block_on_wire, header_on_wire.
  cbn [Block.header Block.transactions
       BlockHeader.number BlockHeader.parent_hash BlockHeader.state_root
       BlockHeader.transactions_root BlockHeader.receipts_root
       BlockHeader.sequencer BlockHeader.gas_limit BlockHeader.gas_used
       BlockHeader.base_fee BlockHeader.timestamp BlockHeader.l1_block_number
       BlockHeader.batch_id].
  set (cs := Address.payment_credential sq) in *.
  set (body := concat (Block.encode_transaction <$> txs)).
  set (count := append_uint32 (wrap32 (Z.of_nat (length txs)))).
  unfold Block.decode.
  set (d := Block.encode _).
  assert (Hd : d = append_uint64 number ++ ph ++ sr ++ tr ++ rr ++ cs
                   ++ append_uint64 gl ++ append_uint64 gu ++ append_uint64 bf
                   ++ append_uint64 ts ++ append_uint64 l1 ++ append_uint64 bid
                   ++ count ++ body).
  { unfold d, Block.encode, BlockHeader.encode.
    cbn [Block.header Block.transactions
       BlockHeader.number BlockHeader.parent_hash BlockHeader.state_root
       BlockHeader.transactions_root BlockHeader.receipts_root
       BlockHeader.sequencer BlockHeader.gas_limit BlockHeader.gas_used
       BlockHeader.base_fee BlockHeader.timestamp BlockHeader.l1_block_number
       BlockHeader.batch_id].
    by rewrite <- !app_assoc. }
  assert (Hdl : length d = (216 + length body)%nat).
  { unfold d, Block.encode. cbn [Block.header Block.transactions].
    rewrite !length_app, Hhl. fold count body. unfold count.
    rewrite length_append_uint32. lia. }
  clearbody d.
  destruct (Nat.ltb_spec (length d) 212) as [Hshort|_]; [lia|].
  rewrite (read_uint64_at d [] number
             (ph ++ sr ++ tr ++ rr ++ cs
              ++ append_uint64 gl ++ append_uint64 gu ++ append_uint64 bf
              ++ append_uint64 ts ++ append_uint64 l1 ++ append_uint64 bid
              ++ count ++ body) 0) by done.
  cbn [Nat.add].
  rewrite (take_drop_at d (append_uint64 number) ph
             (sr ++ tr ++ rr ++ cs
              ++ append_uint64 gl ++ append_uint64 gu ++ append_uint64 bf
              ++ append_uint64 ts ++ append_uint64 l1 ++ append_uint64 bid
              ++ count ++ body) 8 32) by wire_side Hd.
  rewrite (take_drop_at d (append_uint64 number ++ ph) sr
             (tr ++ rr ++ cs
              ++ append_uint64 gl ++ append_uint64 gu ++ append_uint64 bf
              ++ append_uint64 ts ++ append_uint64 l1 ++ append_uint64 bid
              ++ count ++ body) 40 32) by wire_side Hd.
  rewrite (take_drop_at d (append_uint64 number ++ ph ++ sr) tr
             (rr ++ cs
              ++ append_uint64 gl ++ append_uint64 gu ++ append_uint64 bf
              ++ append_uint64 ts ++ append_uint64 l1 ++ append_uint64 bid
              ++ count ++ body) 72 32) by wire_side Hd.
  rewrite (take_drop_at d (append_uint64 number ++ ph ++ sr ++ tr) rr
             (cs
              ++ append_uint64 gl ++ append_uint64 gu ++ append_uint64 bf
              ++ append_uint64 ts ++ append_uint64 l1 ++ append_uint64 bid
              ++ count ++ body) 104 32) by wire_side Hd.
  rewrite (take_drop_at d (append_uint64 number ++ ph ++ sr ++ tr ++ rr) cs
             (append_uint64 gl ++ append_uint64 gu ++ append_uint64 bf
              ++ append_uint64 ts ++ append_uint64 l1 ++ append_uint64 bid
              ++ count ++ body) 136 28) by wire_side Hd.
  rewrite (read_uint64_at d (append_uint64 number ++ ph ++ sr ++ tr ++ rr ++ cs) gl
             (append_uint64 gu ++ append_uint64 bf
              ++ append_uint64 ts ++ append_uint64 l1 ++ append_uint64 bid
              ++ count ++ body) 164) by wire_side Hd.
  cbn [Nat.add].
  rewrite (read_uint64_at d (append_uint64 number ++ ph ++ sr ++ tr ++ rr ++ cs
                             ++ append_uint64 gl) gu
             (append_uint64 bf
              ++ append_uint64 ts ++ append_uint64 l1 ++ append_uint64 bid
              ++ count ++ body) 172) by wire_side Hd.
  cbn [Nat.add].
  rewrite (read_uint64_at d (append_uint64 number ++ ph ++ sr ++ tr ++ rr ++ cs
                             ++ append_uint64 gl ++ append_uint64 gu) bf
             (append_uint64 ts ++ append_uint64 l1 ++ append_uint64 bid
              ++ count ++ body) 180) by wire_side Hd.
  cbn [Nat.add].
  rewrite (read_uint64_at d (append_uint64 number ++ ph ++ sr ++ tr ++ rr ++ cs
                             ++ append_uint64 gl ++ append_uint64 gu
                             ++ append_uint64 bf) ts
             (append_uint64 l1 ++ append_uint64 bid
              ++ count ++ body) 188) by wire_side Hd.
  cbn [Nat.add].
  rewrite (read_uint64_at d (append_uint64 number ++ ph ++ sr ++ tr ++ rr ++ cs
                             ++ append_uint64 gl ++ append_uint64 gu
                             ++ append_uint64 bf ++ append_uint64 ts) l1
             (append_uint64 bid ++ count ++ body) 196) by wire_side Hd.
  cbn [Nat.add].
  rewrite (read_uint64_at d (append_uint64 number ++ ph ++ sr ++ tr ++ rr ++ cs
                             ++ append_uint64 gl ++ append_uint64 gu
                             ++ append_uint64 bf ++ append_uint64 ts
                             ++ append_uint64 l1) bid
             (count ++ body) 204) by wire_side Hd.
  cbn [Nat.add].
  destruct (Nat.ltb_spec (length d) 216) as [Hshort|_]; [lia|].
  unfold count in Hd.
  rewrite (read_uint32_at d (append_uint64 number ++ ph ++ sr ++ tr ++ rr ++ cs
                             ++ append_uint64 gl ++ append_uint64 gu
                             ++ append_uint64 bf ++ append_uint64 ts
                             ++ append_uint64 l1 ++ append_uint64 bid)
             (wrap32 (Z.of_nat (length txs))) body 212);
    [|wire_side Hd|wire_side Hd|unfold wrap32; apply Z.mod_pos_bound; lia].
  cbn [Nat.add].
  unfold wrap32. rewrite Z.mod_small by lia.
  pose proof (length_encode_transactions txs) as Hbody. fold body in Hbody.
  pose proof (decode_transactions_encoded txs (length d) d
                (append_uint64 number ++ ph ++ sr ++ tr ++ rr ++ cs
                 ++ append_uint64 gl ++ append_uint64 gu
                 ++ append_uint64 bf ++ append_uint64 ts
                 ++ append_uint64 l1 ++ append_uint64 bid
                 ++ append_uint32 (wrap32 (Z.of_nat (length txs)))) [] Htxs) as Hdec.
  replace (length (append_uint64 number ++ ph ++ sr ++ tr ++ rr ++ cs
                 ++ append_uint64 gl ++ append_uint64 gu
                 ++ append_uint64 bf ++ append_uint64 ts
                 ++ append_uint64 l1 ++ append_uint64 bid
                 ++ append_uint32 (wrap32 (Z.of_nat (length txs)))))
    with 216%nat in Hdec
    by (rewrite !length_app, !length_append_uint64, length_append_uint32; lia).
  rewrite Hdec; [reflexivity| |lia].
  rewrite Hd, <- ?app_assoc. reflexivity.
Qed.

(** X2: decoding an encoded block gives back the header and the
    transactions, in order, each as its own round trip leaves it; of the
    sequencer address only the payment credential survives. *)
Theorem block_decode_encode (b : Block.t) :
  block_wf b -> Block.decode (Block.encode b) = Decoded (block_on_wire b).
Proof. apply block_decode_encode_aux. Qed.

End Wire.

Lemma transaction_decode_encode_witness :
  Transaction.decode
    (Transaction.encode (Scenario.transfer 3 5 Scenario.ff_signature))
  = Decoded (Scenario.transfer 3 5 Scenario.ff_signature).
Proof.
  pose proof (transaction_decode_encode
                (Scenario.transfer 3 5 Scenario.ff_signature)) as [Hdec _].
  - repeat split; by_evaluation.
  - exact Hdec.
Defined.

Lemma block_decode_encode_witness :
  Block.decode (Block.encode WireScenario.block)
  = Decoded WireScenario.block.
Proof.
  apply (block_decode_encode WireScenario.block).
  split; [repeat split; by_evaluation|].
  split; [by_evaluation|].
  repeat constructor; by_evaluation.
Defined.

(** ** The storage layer (storage.cpp) *)

Section StorageMore.
Context `{Crypto}.

#[local] Arguments append_uint64 : simpl never.
#[local] Arguments AccountState.encode : simpl never.
#[local] Arguments AccountState.decode : simpl never.

Lemma foldl_insert_lookup (puts : list (Bytes * Bytes)) (db : Database.t) (key : Bytes) :
  (key ∉ puts.*1 ->
   foldl (fun d kv => <[kv.1 := kv.2]> d) db puts !! key = db !! key)
  /\ (forall before value after,
        puts = before ++ (key, value) :: after -> key ∉ after.*1 ->
        foldl (fun d kv => <[kv.1 := kv.2]> d) db puts !! key = Some value).
Proof.
  revert db. induction puts as [|[k v] puts IH]; intros db.
  { split; [done|]. intros before value after E. by destruct before. }
  cbn [foldl fst snd]. destruct (IH (<[k := v]> db)) as [IHa IHb]. split.
  - intros Hnot. cbn [fmap list_fmap fst] in Hnot.
    apply not_elem_of_cons in Hnot as [Hne Hnot].
    rewrite IHa by done. by rewrite lookup_insert_ne.
  - intros before value after E Hafter.
    destruct before as [|x before]; cbn [app] in E.
    + simplify_eq. rewrite IHa by done. by rewrite lookup_insert_eq.
    + simplify_eq. by apply (IHb before value after).
Qed.

Lemma foldl_delete_lookup (deletes : list Bytes) (db : Database.t) (key : Bytes) :
  foldl (fun d k => delete k d) db deletes !! key
  = if bool_decide (key ∈ deletes) then None else db !! key.
Proof.
  revert db. induction deletes as [|k deletes IH]; intros db; [done|].
  cbn [foldl]. rewrite IH.
  destruct (decide (key = k)) as [->|Hne].
  - rewrite lookup_delete_eq. rewrite (bool_decide_eq_true_2 (k ∈ k :: deletes))
      by apply list_elem_of_here.
    by destruct (bool_decide _).
  - rewrite lookup_delete_ne by done.
    apply (f_equal (fun b : bool => if b then None else db !! key)).
    apply bool_decide_ext. rewrite elem_of_cons. split; [by right|intros [?|?]; done].
Qed.

(** X3: [write_batch] applies the puts in order and then the deletes: a deleted
    key is absent afterwards even when the same batch also puts it, an
    untouched key keeps its value, and a key that is put holds the value of
    its last put. *)
Theorem write_batch_lookup (batch : Database.WriteBatch) (db : Database.t)
  (key : Bytes) :
  (key ∈ Database.deletes batch -> Database.write_batch batch db !! key = None)
  /\ (key ∉ Database.deletes batch -> key ∉ (Database.puts batch).*1 ->
      Database.write_batch batch db !! key = db !! key)
  /\ (key ∉ Database.deletes batch ->
      forall before value after,
        Database.puts batch = before ++ (key, value) :: after ->
        key ∉ after.*1 ->
        Database.write_batch batch db !! key = Some value).
Proof.
  unfold Database.write_batch. rewrite foldl_delete_lookup.
  destruct (foldl_insert_lookup (Database.puts batch) db key) as [Ha Hb].
  repeat split.
  - intros Hin. by rewrite bool_decide_eq_true_2.
  - intros Hnot Hputs. rewrite bool_decide_eq_false_2 by done. by apply Ha.
  - intros Hnot before value after E Hafter.
    rewrite bool_decide_eq_false_2 by done. by apply (Hb before value after).
Qed.

Lemma commit_fold (l : list (Bytes * Bytes)) (ps : list (Bytes * Bytes))
  (ds : list Bytes) (ls : list Hash256) :
  foldl StateTrie.commit_step (Database.mkBatch ps ds, ls) l
  = (Database.mkBatch
       (ps ++ omap (fun kv => if bool_decide (kv.2 = []) then None
                              else Some (StateTrie.db_key kv.1, kv.2)) l)
       (ds ++ omap (fun kv => if bool_decide (kv.2 = [])
                              then Some (StateTrie.db_key kv.1) else None) l),
     ls ++ omap (fun kv => if bool_decide (kv.2 = []) then None
                           else Some (Blake2b256_hash (kv.1 ++ kv.2))) l).
Proof.
  revert ps ds ls. induction l as [|[k v] l IH]; intros ps ds ls.
  { cbn. by rewrite !app_nil_r. }
  cbn [foldl StateTrie.commit_step omap list_omap fst snd].
  destruct (bool_decide (v = [])); rewrite IH; cbn [Database.puts Database.deletes];
    by rewrite <- ?app_assoc.
Qed.

(** What the database holds under a trie key after the batch of a commit. *)
Lemma commit_batch_lookup (m : gmap (list Z) (list Z)) (db : Database.t)
  (kh : Hash256) :
  Database.write_batch
    (foldl StateTrie.commit_step (Database.mkBatch [] [], []) (map_to_list m)).1 db
  !! StateTrie.db_key kh
  = match m !! kh with
    | Some v => if bool_decide (v = []) then None else Some v
    | None => db !! StateTrie.db_key kh
    end.
Proof.
  rewrite commit_fold. cbn [fst app].
  set (ps := omap _ _). set (ds := omap _ _).
  assert (Hds : forall K, K ∈ ds <-> exists k, K = StateTrie.db_key k /\ m !! k = Some []).
  { intros K. unfold ds. rewrite list_elem_of_omap. split.
    - intros ([k v] & Hin & E). cbn [fst snd] in E.
      apply elem_of_map_to_list in Hin. case_bool_decide; [|done]. simplify_eq.
      by exists k.
    - intros (k & -> & Hk). exists (k, []). split; [by apply elem_of_map_to_list|].
      cbn [fst snd]. by rewrite bool_decide_eq_true_2. }
  pose proof (foldl_insert_lookup ps db (StateTrie.db_key kh)) as [Hkeep Hput].
  unfold Database.write_batch. cbn [Database.puts Database.deletes].
  rewrite foldl_delete_lookup.
  destruct (m !! kh) as [v|] eqn:Hm.
  - destruct (decide (v = [])) as [Hv|Hv].
    + subst v. rewrite !bool_decide_eq_true_2; [done..|]. apply Hds. by exists kh.
    + rewrite (bool_decide_eq_false_2 (v = [])) by done.
      assert (Hnd : StateTrie.db_key kh ∉ ds).
      { rewrite Hds. intros (k & E & Hk). unfold StateTrie.db_key in E.
        simplify_eq. }
      rewrite bool_decide_eq_false_2 by done.
      apply elem_of_map_to_list in Hm.
      apply list_elem_of_split in Hm as (l1 & l2 & Hl).
      pose proof (NoDup_fst_map_to_list m) as Hnodup. rewrite Hl in Hnodup.
      rewrite fmap_app, fmap_cons in Hnodup. cbn [fst] in Hnodup.
      apply NoDup_app in Hnodup as (_ & _ & Hnodup).
      apply NoDup_cons in Hnodup as [Hkh _].
      apply (Hput
               (omap (fun kv : Bytes * Bytes =>
                        if bool_decide (kv.2 = []) then None
                        else Some (StateTrie.db_key kv.1, kv.2)) l1) v
               (omap (fun kv : Bytes * Bytes =>
                        if bool_decide (kv.2 = []) then None
                        else Some (StateTrie.db_key kv.1, kv.2)) l2)).
      * unfold ps. rewrite Hl, omap_app. cbn [omap list_omap fst snd].
        by rewrite bool_decide_eq_false_2.
      * rewrite list_elem_of_fmap. intros ([K w] & E & Hin). cbn [fst] in E. subst K.
        apply list_elem_of_omap in Hin as ([k' w'] & Hin & E). cbn [fst snd] in E.
        case_bool_decide; [done|]. unfold StateTrie.db_key in E. simplify_eq.
        apply Hkh. apply list_elem_of_fmap. by exists (kh, w).
  - rewrite bool_decide_eq_false_2.
    + apply Hkeep.
      rewrite list_elem_of_fmap. intros ([K w] & E & Hin). cbn [fst] in E. subst K.
      apply list_elem_of_omap in Hin as ([k' w'] & Hin & E). cbn [fst snd] in E.
      case_bool_decide; [done|]. unfold StateTrie.db_key in E. simplify_eq.
      apply elem_of_map_to_list in Hin. congruence.
    + rewrite Hds. intros (k & E & Hk). unfold StateTrie.db_key in E. simplify_eq.
Qed.

(** Keys outside the trie's name space are not touched by that batch. *)
Lemma commit_batch_other (m : gmap (list Z) (list Z)) (db : Database.t)
  (key : Bytes) :
  (forall kh, key <> StateTrie.db_key kh) ->
  Database.write_batch
    (foldl StateTrie.commit_step (Database.mkBatch [] [], []) (map_to_list m)).1 db
  !! key
  = db !! key.
Proof.
  intros Hkey. rewrite commit_fold. cbn [fst app].
  unfold Database.write_batch. cbn [Database.puts Database.deletes].
  rewrite foldl_delete_lookup. rewrite bool_decide_eq_false_2.
  - apply foldl_insert_lookup.
    rewrite list_elem_of_fmap. intros ([K w] & E & Hin). cbn [fst] in E. subst K.
    apply list_elem_of_omap in Hin as ([k' w'] & Hin & E). cbn [fst snd] in E.
    case_bool_decide; [done|]. simplify_eq. by apply (Hkey k').
  - rewrite list_elem_of_omap. intros ([k v] & _ & E). cbn [fst snd] in E.
    case_bool_decide; [|done]. simplify_eq. by apply (Hkey k).
Qed.

Lemma decode_nil : AccountState.decode [] = AccountState.default.
Proof. reflexivity. Qed.

(** X4: a commit changes no read: every account, storage slot and contract code
    is read after the commit as before it.  The root it returns is the root
    of the trie afterwards and the value stored under the root key, and no
    dirty node is left. *)
Theorem commit_preserves_reads (st : StateManager.t) :
  let root := (StateManager.commit st).1 in
  let st' := (StateManager.commit st).2 in
  (forall a, StateManager.get_account a st' = StateManager.get_account a st)
  /\ (forall a key, StateManager.get_storage a key st'
                    = StateManager.get_storage a key st)
  /\ (forall a, StateManager.get_code a st' = StateManager.get_code a st)
  /\ StateManager.state_root st' = root
  /\ Database.get StateTrie.root_key (StateManager.db_ st') = Some root
  /\ StateTrie.dirty_nodes_ (StateManager.account_trie_ st') = ∅
  /\ StateManager.journal_ st' = StateManager.journal_ st.
Proof.
  destruct st as [db [root0 m] journal].
  unfold StateManager.commit, StateTrie.commit.
  cbn [StateManager.db_ StateManager.account_trie_ StateManager.journal_
       StateTrie.dirty_nodes_ StateTrie.root_].
  pose proof (commit_batch_lookup m db) as Hin.
  pose proof (commit_batch_other m db) as Hout.
  destruct (foldl StateTrie.commit_step _ _) as [batch leaves].
  cbn [fst] in Hin, Hout. cbn zeta. cbn [fst snd].
  set (root := match leaves with [] => root0 | _ :: _ => _ end).
  assert (Hacc : forall a,
             StateManager.get_account a
               (StateManager.mk
                  (Database.put StateTrie.root_key root
                     (Database.write_batch batch db))
                  (StateTrie.mk root ∅) journal)
             = StateManager.get_account a (StateManager.mk db (StateTrie.mk root0 m) journal)).
  { intros a. unfold StateManager.get_account, StateTrie.get, Database.get, Database.put.
    cbn [StateManager.db_ StateManager.account_trie_ StateTrie.dirty_nodes_].
    rewrite lookup_empty, lookup_insert_ne by done. rewrite Hin.
    destruct (m !! _) as [v|]; [|done].
    case_bool_decide; [subst v; by rewrite decode_nil|done]. }
  repeat split.
  - exact Hacc.
  - intros a key. unfold StateManager.get_storage, Database.get, Database.put.
    cbn [StateManager.db_]. rewrite lookup_insert_ne by done.
    by rewrite Hout.
  - intros a. unfold StateManager.get_code. rewrite Hacc.
    unfold Database.get, Database.put. cbn [StateManager.db_].
    rewrite lookup_insert_ne by done. by rewrite Hout.
  - unfold Database.get, Database.put. cbn [StateManager.db_].
    by rewrite lookup_insert_eq.
Qed.

Lemma revert_loop_ge (journal : list StateManager.JournalEntry) (size : nat)
  (tr : StateTrie.t) :
  (length journal <= size)%nat ->
  StateManager.revert_loop journal size tr = (journal, tr).
Proof.
  intros Hle. destruct journal as [|entry rest]; [done|].
  cbn [StateManager.revert_loop].
  destruct (Nat.ltb_spec size (length (entry :: rest))); [lia|done].
Qed.

Lemma revert_loop_length (journal : list StateManager.JournalEntry) (size : nat)
  (tr : StateTrie.t) :
  length (StateManager.revert_loop journal size tr).1 = Nat.min (length journal) size.
Proof.
  revert tr. induction journal as [|entry rest IH]; intros tr; [done|].
  cbn [StateManager.revert_loop].
  destruct (Nat.ltb_spec size (length (entry :: rest))) as [Hlt|Hge].
  - rewrite IH. cbn [length] in *. lia.
  - cbn [fst length] in *. lia.
Qed.

Lemma revert_loop_twice (journal : list StateManager.JournalEntry)
  (outer inner : nat) (tr : StateTrie.t) :
  (outer <= inner)%nat ->
  StateManager.revert_loop (StateManager.revert_loop journal inner tr).1 outer
                           (StateManager.revert_loop journal inner tr).2
  = StateManager.revert_loop journal outer tr.
Proof.
  intros Hle. revert tr. induction journal as [|entry rest IH]; intros tr; [done|].
  cbn [StateManager.revert_loop].
  destruct (Nat.ltb_spec inner (length (entry :: rest))) as [Hin|Hin].
  - destruct (Nat.ltb_spec outer (length (entry :: rest))) as [_|Hout]; [|lia].
    apply IH.
  - reflexivity.
Qed.

(** X5: snapshots nest: going back to an inner snapshot and then to an outer one
    is going back to the outer one; going back to the snapshot just taken, or
    to one whose journal mark is not below the journal, changes nothing. *)
Theorem revert_nested (st : StateManager.t) (outer inner : StateManager.Snapshot.t) :
  (StateManager.Snapshot.journal_size outer
   <= StateManager.Snapshot.journal_size inner)%nat ->
  StateManager.revert outer (StateManager.revert inner st)
  = StateManager.revert outer st
  /\ StateManager.revert (StateManager.snapshot st) st = st
  /\ ((length (StateManager.journal_ st)
       <= StateManager.Snapshot.journal_size outer)%nat ->
      StateManager.revert outer st = st)
  /\ length (StateManager.journal_ (StateManager.revert outer st))
     = Nat.min (length (StateManager.journal_ st))
               (StateManager.Snapshot.journal_size outer).
Proof.
  intros Hle. destruct st as [db tr journal]. unfold StateManager.revert.
  cbn [StateManager.db_ StateManager.account_trie_ StateManager.journal_
       StateManager.snapshot StateManager.Snapshot.journal_size].
  repeat split.
  - pose proof (revert_loop_twice journal _ _ tr Hle) as Htwice.
    destruct (StateManager.revert_loop journal
                (StateManager.Snapshot.journal_size inner) tr) as [j1 t1].
    cbn [StateManager.db_ StateManager.account_trie_ StateManager.journal_
         fst snd] in *.
    by rewrite Htwice.
  - by rewrite revert_loop_same.
  - intros Hge. by rewrite revert_loop_ge.
  - pose proof (revert_loop_length journal
                  (StateManager.Snapshot.journal_size outer) tr) as Hlen.
    destruct (StateManager.revert_loop journal _ tr) as [j1 t1]. exact Hlen.
Qed.

(** X6: a proof generated for a key is accepted against the root of the trie
    exactly when the trie has an entry for the key, whatever value the caller
    claims; and any list of three or more elements that ends with the 32-byte
    root is accepted for every key and value. *)
Theorem verify_proof_checks_root_only (db : Database.t) (tr : StateTrie.t)
  (key value : Bytes) :
  length (StateTrie.root_ tr) = 32%nat ->
  StateTrie.verify_proof (StateTrie.root_ tr) key value (StateTrie.get_proof db key tr)
  = Some (bool_decide (is_Some (StateTrie.get db key tr)))
  /\ forall (key' value' : Bytes) (junk : list Bytes),
       (2 <= length junk)%nat ->
       StateTrie.verify_proof (StateTrie.root_ tr) key' value'
                              (junk ++ [StateTrie.root_ tr])
       = Some true.
Proof.
  intros Hroot. split.
  - unfold StateTrie.get_proof, StateTrie.verify_proof.
    destruct (StateTrie.get db key tr) as [v|].
    + cbn [app length Nat.ltb Nat.leb].
      change [Blake2b256_hash key; v; StateTrie.root_ tr]
        with ([Blake2b256_hash key; v] ++ [StateTrie.root_ tr]).
      rewrite last_snoc, !bool_decide_eq_true_2; [done|by eexists|done..].
    + cbn [app length Nat.ltb Nat.leb].
      rewrite bool_decide_eq_false_2; [done|]. by intros [? ?].
  - intros key' value' junk Hjunk. unfold StateTrie.verify_proof.
    rewrite length_app. cbn [length].
    destruct (Nat.ltb_spec (length junk + 1) 3); [lia|].
    by rewrite last_snoc, !bool_decide_eq_true_2.
Qed.

(** X7: code written for an account is the code read for it afterwards, the
    account's code hash is the digest of the code, and its balance and nonce
    are not touched. *)
Theorem get_code_set_code (a : Address.t) (code : Bytes) (st : StateManager.t) :
  accounts_wf st ->
  length (Blake2b256_hash code) = 32%nat ->
  let st' := StateManager.set_code a code st in
  StateManager.get_code a st' = code
  /\ AccountState.code_hash (StateManager.get_account a st') = Blake2b256_hash code
  /\ StateManager.get_balance a st' = StateManager.get_balance a st
  /\ StateManager.get_nonce a st' = StateManager.get_nonce a st.
Proof.
  intros Hwf Hhash. cbn zeta. unfold StateManager.set_code.
  set (st1 := StateManager.mk _ (StateManager.account_trie_ st)
                              (StateManager.journal_ st)).
  assert (Hsame : StateManager.get_account a st1 = StateManager.get_account a st).
  { rewrite !get_account_view. unfold view_at, raw_at, st1, Database.put.
    cbn [StateManager.db_ StateManager.account_trie_].
    by rewrite lookup_insert_ne. }
  assert (Hstate : AccountState.wf
                     (StateManager.with_code_hash (StateManager.get_account a st1)
                        (Blake2b256_hash code))).
  { rewrite Hsame, get_account_view. destruct (Hwf (Blake2b256_hash
      (Address.payment_credential a))) as (Hn & Hb & Hs & _).
    split; [exact Hn|split; [exact Hb|split; [exact Hs|exact Hhash]]]. }
  unfold StateManager.get_code, StateManager.get_balance, StateManager.get_nonce.
  rewrite get_account_set_account by done. rewrite Hsame.
  repeat split.
  unfold StateManager.set_account, Database.get, st1, Database.put.
  cbn [StateManager.db_ StateManager.with_code_hash AccountState.code_hash].
  by rewrite lookup_insert_eq.
Qed.

End StorageMore.


(** ** The block store (storage.cpp) *)

Section BlockStoreFacts.
Context `{Crypto}.

#[local] Arguments append_uint64 : simpl never.
#[local] Arguments append_uint32 : simpl never.
#[local] Arguments Block.encode : simpl never.
#[local] Arguments Block.decode : simpl never.

Lemma read_uint64_exact (v : Z) :
  is_u64 v -> read_uint64 (append_uint64 v) 0 = (v, 8%nat).
Proof.
  intros Hv. rewrite <- (app_nil_r (append_uint64 v)). by apply read_append_uint64.
Qed.

Lemma stored_block_lookup (block : Block.t) (bs : BlockStore.t) :
  BlockStore.db_ (BlockStore.store_block block bs).2
  !! BlockStore.number_key (BlockHeader.number (Block.header block))
  = Some (Block.encode block)
  /\ BlockStore.db_ (BlockStore.store_block block bs).2
     !! BlockStore.hash_key (BlockHeader.hash (Block.header block))
     = Some (append_uint64 (BlockHeader.number (Block.header block))).
Proof.
  unfold BlockStore.store_block, Database.put. cbn zeta.
  destruct (_ >? _); cbn [snd BlockStore.db_]; split.
  - rewrite lookup_insert_ne by done. rewrite lookup_insert_ne by done.
    by rewrite lookup_insert_eq.
  - rewrite lookup_insert_ne by done. by rewrite lookup_insert_eq.
  - rewrite lookup_insert_ne by done. by rewrite lookup_insert_eq.
  - by rewrite lookup_insert_eq.
Qed.

(** X8: a stored block is found again under its number and under the hash of its
    header, as its encoding decodes; the head moves to the block's number when
    that is above it, and stays otherwise. *)
Theorem store_block_get_block (block : Block.t) (bs : BlockStore.t) :
  block_wf block ->
  let bs' := (BlockStore.store_block block bs).2 in
  BlockStore.get_block (BlockHeader.number (Block.header block)) bs'
  = Decoded (block_on_wire block)
  /\ BlockStore.get_block_by_hash (BlockHeader.hash (Block.header block)) bs'
     = Decoded (block_on_wire block)
  /\ BlockStore.get_head bs'
     = Z.max (BlockStore.get_head bs) (BlockHeader.number (Block.header block))
  /\ (BlockStore.store_block block bs).1 = true.
Proof.
  intros Hwf. cbn zeta.
  destruct (stored_block_lookup block bs) as [Hnum Hhash].
  assert (Hget : BlockStore.get_block (BlockHeader.number (Block.header block))
                   (BlockStore.store_block block bs).2
                 = Decoded (block_on_wire block)).
  { unfold BlockStore.get_block, Database.get. rewrite Hnum.
    by apply block_decode_encode_aux. }
  split; [exact Hget|]. split.
  - unfold BlockStore.get_block_by_hash, Database.get. rewrite Hhash.
    rewrite length_append_uint64. cbn [Nat.ltb Nat.leb].
    rewrite read_uint64_exact by apply Hwf. exact Hget.
  - unfold BlockStore.store_block, BlockStore.get_head. cbn zeta.
    destruct (Z.gtb_spec (BlockHeader.number (Block.header block))
                (BlockStore.head_ bs)); cbn [fst snd BlockStore.head_]; split;
      reflexivity || lia.
Qed.

(** X9: the head survives a restart: a store opened again on the same database
    has the head the running store has.  This holds for a store just opened
    and is kept by [set_head], [store_block] and [index_transaction]. *)
Theorem head_persisted_invariant :
  (forall db, head_persisted (BlockStore.create db))
  /\ (forall number bs, is_u64 number ->
        head_persisted (BlockStore.set_head number bs))
  /\ (forall block bs,
        is_u64 (BlockHeader.number (Block.header block)) ->
        head_persisted bs ->
        head_persisted (BlockStore.store_block block bs).2)
  /\ (forall tx_hash block_number tx_index bs,
        head_persisted bs ->
        head_persisted
          (BlockStore.index_transaction tx_hash block_number tx_index bs)).
Proof.
  unfold head_persisted, BlockStore.get_head. repeat split.
  - intros db. unfold BlockStore.create.
    destruct (Database.get BlockStore.head_key db) as [head_data|] eqn:E.
    + destruct (8 <=? length head_data)%nat eqn:E8; cbn [BlockStore.db_];
        by rewrite E, E8.
    + cbn [BlockStore.db_]. by rewrite E.
  - intros number bs Hn. unfold BlockStore.set_head, BlockStore.create,
      Database.get, Database.put. cbn [BlockStore.db_ BlockStore.head_].
    rewrite lookup_insert_eq, length_append_uint64. cbn [Nat.leb].
    by rewrite read_uint64_exact.
  - intros block bs Hn Hbs. unfold BlockStore.store_block. cbn zeta.
    destruct (_ >? _); cbn [snd BlockStore.db_ BlockStore.head_].
    + unfold BlockStore.create, Database.get, Database.put.
      rewrite lookup_insert_eq, length_append_uint64. cbn [Nat.leb].
      by rewrite read_uint64_exact.
    + rewrite <- Hbs. unfold BlockStore.create, Database.get, Database.put.
      rewrite lookup_insert_ne by done. rewrite lookup_insert_ne by done.
      by destruct (BlockStore.db_ bs !! BlockStore.head_key) as [d|];
        [destruct (8 <=? length d)%nat|].
  - intros tx_hash block_number tx_index bs Hbs.
    unfold BlockStore.index_transaction. cbn [BlockStore.db_ BlockStore.head_].
    rewrite <- Hbs. unfold BlockStore.create, Database.get, Database.put.
    rewrite lookup_insert_ne by done.
    by destruct (BlockStore.db_ bs !! BlockStore.head_key) as [d|];
      [destruct (8 <=? length d)%nat|].
Qed.

(** X10: the location indexed for a transaction hash is the location read for it,
    and indexing one hash leaves the location of every other hash alone. *)
Theorem get_tx_location_index_transaction (tx_hash : Hash256)
  (block_number tx_index : Z) (bs : BlockStore.t) :
  is_u64 block_number -> 0 <= tx_index < 2 ^ 32 ->
  let bs' := BlockStore.index_transaction tx_hash block_number tx_index bs in
  BlockStore.get_tx_location tx_hash bs' = Some (block_number, tx_index)
  /\ forall other, other <> tx_hash ->
       BlockStore.get_tx_location other bs' = BlockStore.get_tx_location other bs.
Proof.
  intros Hn Hi. cbn zeta. split.
  - unfold BlockStore.get_tx_location, BlockStore.index_transaction,
      Database.get, Database.put. cbn [BlockStore.db_].
    rewrite lookup_insert_eq, length_app, length_append_uint64, length_append_uint32.
    cbn [Nat.add Nat.ltb Nat.leb].
    rewrite read_append_uint64 by done.
    rewrite (read_uint32_at _ (append_uint64 block_number) tx_index [] 8);
      [done|by rewrite app_nil_r|done|done].
  - intros other Hother.
    unfold BlockStore.get_tx_location, BlockStore.index_transaction,
      Database.get, Database.put. cbn [BlockStore.db_].
    rewrite lookup_insert_ne; [done|].
    unfold BlockStore.tx_key. intros E. by simplify_list_eq.
Qed.

End BlockStoreFacts.


(** *** The storage layer on concrete inputs *)

Lemma write_batch_lookup_witness :
  Database.write_batch StorageScenario.batch StorageScenario.db !! [2] = None
  /\ Database.write_batch StorageScenario.batch StorageScenario.db !! [3] = Some [30]
  /\ Database.write_batch StorageScenario.batch StorageScenario.db !! [1] = Some [11].
Proof.
  destruct (write_batch_lookup StorageScenario.batch StorageScenario.db [2])
    as (Hdeleted & _).
  destruct (write_batch_lookup StorageScenario.batch StorageScenario.db [3])
    as (_ & Hkept & _).
  destruct (write_batch_lookup StorageScenario.batch StorageScenario.db [1])
    as (_ & _ & Hput).
  split; [|split].
  - apply Hdeleted. apply (bool_decide_unpack _). by_evaluation.
  - apply Hkept; apply (bool_decide_unpack _); by_evaluation.
  - apply (Hput ltac:(apply (bool_decide_unpack _); by_evaluation)
             [([1], [10]); ([2], [20])] [11] []).
    + reflexivity.
    + apply (bool_decide_unpack _). by_evaluation.
Defined.

Lemma revert_nested_witness :
  let st := StorageScenario.two_writes in
  let outer := StateManager.snapshot (StateManager.create ∅) in
  let inner := StateManager.snapshot (StoreScenario.funded Scenario.A 100) in
  StateManager.revert outer (StateManager.revert inner st)
  = StateManager.revert outer st
  /\ StateManager.get_balance Scenario.A (StateManager.revert inner st) = 100
  /\ StateManager.get_balance Scenario.B (StateManager.revert inner st) = 0
  /\ StateManager.get_balance Scenario.A (StateManager.revert outer st) = 0.
Proof.
  cbn zeta. split; [|by_evaluation].
  destruct (revert_nested StorageScenario.two_writes
              (StateManager.snapshot (StateManager.create ∅))
              (StateManager.snapshot (StoreScenario.funded Scenario.A 100)))
    as [Hnested _]; [cbn; lia|].
  exact Hnested.
Defined.

Lemma verify_proof_checks_root_only_witness :
  let st := StoreScenario.funded Scenario.A 100 in
  let db := StateManager.db_ st in
  let tr := StateManager.account_trie_ st in
  StateTrie.verify_proof (StateTrie.root_ tr) (Address.payment_credential Scenario.A)
    [0xBA; 0xD] (StateTrie.get_proof db (Address.payment_credential Scenario.A) tr)
  = Some true
  /\ StateTrie.verify_proof (StateTrie.root_ tr) (Address.payment_credential Scenario.B)
       [] (StateTrie.get_proof db (Address.payment_credential Scenario.B) tr)
     = Some false.
Proof.
  cbn zeta. split.
  - destruct (verify_proof_checks_root_only
                (StateManager.db_ (StoreScenario.funded Scenario.A 100))
                (StateManager.account_trie_ (StoreScenario.funded Scenario.A 100))
                (Address.payment_credential Scenario.A) [0xBA; 0xD]) as [Hgen _];
      [reflexivity|].
    rewrite Hgen. by_evaluation.
  - destruct (verify_proof_checks_root_only
                (StateManager.db_ (StoreScenario.funded Scenario.A 100))
                (StateManager.account_trie_ (StoreScenario.funded Scenario.A 100))
                (Address.payment_credential Scenario.B) []) as [Hgen _];
      [reflexivity|].
    rewrite Hgen. by_evaluation.
Defined.

Lemma get_code_set_code_witness :
  StateManager.get_code ExecScenario.contract
    (StateManager.set_code ExecScenario.contract StorageScenario.contract_code
       (StateManager.create ∅))
  = StorageScenario.contract_code.
Proof.
  assert (Hwf : accounts_wf (StateManager.create ∅)).
  { intros key_hash. unfold view_at, raw_at, StateManager.create.
    cbn [StateManager.db_ StateManager.account_trie_ StateTrie.dirty_nodes_].
    rewrite !lookup_empty. repeat split; by_evaluation. }
  destruct (get_code_set_code ExecScenario.contract StorageScenario.contract_code
              (StateManager.create ∅) Hwf) as [Hcode _]; [by_evaluation|].
  exact Hcode.
Defined.

Lemma store_block_get_block_witness :
  BlockStore.get_block 7
    (BlockStore.store_block WireScenario.block (BlockStore.create ∅)).2
  = Decoded WireScenario.block
  /\ BlockStore.get_head
       (BlockStore.store_block WireScenario.block (BlockStore.create ∅)).2
     = 7.
Proof.
  destruct (store_block_get_block WireScenario.block (BlockStore.create ∅))
    as (Hget & _ & Hhead & _).
  - split; [repeat split; by_evaluation|].
    split; [by_evaluation|].
    repeat constructor; by_evaluation.
  - split; [exact Hget|exact Hhead].
Defined.

Lemma head_persisted_invariant_witness :
  BlockStore.get_head
    (BlockStore.create
       (BlockStore.db_
          (BlockStore.store_block WireScenario.block
             (BlockStore.set_head 3 (BlockStore.create ∅))).2))
  = 7.
Proof.
  destruct head_persisted_invariant as (_ & Hset & Hstore & _).
  rewrite (Hstore WireScenario.block (BlockStore.set_head 3 (BlockStore.create ∅))).
  - reflexivity.
  - split; by_evaluation.
  - apply Hset. split; by_evaluation.
Defined.

Lemma get_tx_location_index_transaction_witness :
  BlockStore.get_tx_location (replicate 32 5)
    (BlockStore.index_transaction (replicate 32 5) 7 1 (BlockStore.create ∅))
  = Some (7, 1).
Proof.
  destruct (get_tx_location_index_transaction (replicate 32 5) 7 1
              (BlockStore.create ∅)) as [Hfound _]; [split; by_evaluation..|].
  exact Hfound.
Defined.

(** ** The sequencer registry (consensus.cpp) *)

Section Registry.

Import ConsensusEngine.

Lemma eligible_b_spec (config : ConsensusConfig.t) (s : Sequencer.t) :
  eligible_b config s = true <-> eligible config s.
Proof.
  unfold eligible_b, eligible.
  rewrite andb_true_iff, orb_true_iff, !bool_decide_eq_true.
  destruct (Z.geb_spec (Sequencer.stake s) (ConsensusConfig.min_stake config));
    intuition (try lia; try discriminate).
Qed.

Lemma active_set_elements (e : t) (s : Sequencer.t) :
  s ∈ active_set_ (update_active_set e) ->
  exists s0, s0 ∈ sequencers_ e /\ eligible (config_ e) s0
             /\ s = Sequencer.with_status s0 Active.
Proof.
  unfold update_active_set. cbn [active_set_].
  rewrite list_elem_of_fmap. intros (s0 & -> & Hin).
  apply elem_of_take in Hin as (i & Hin & _).
  apply list_elem_of_lookup_2 in Hin.
  rewrite sort_by_stake_perm in Hin.
  apply list_elem_of_filter in Hin as [Hel Hin].
  exists s0. by rewrite <- eligible_b_spec.
Qed.

(** X11: the active set holds at most [max_sequencers] sequencers, each of
    them a registered sequencer that was active or on standby with at least
    the minimum stake, now with status [Active]; a sequencer that qualifies
    and is left out has no more stake than any sequencer of the set, and none
    is left out while the set has room.  The registry itself is not changed. *)
Theorem active_set_top_stake (e : t) :
  let e' := update_active_set e in
  (length (active_set_ e') <= Z.to_nat (ConsensusConfig.max_sequencers (config_ e)))%nat
  /\ (forall s, s ∈ active_set_ e' ->
        Sequencer.status s = Active
        /\ ConsensusConfig.min_stake (config_ e) <= Sequencer.stake s
        /\ exists s0, s0 ∈ sequencers_ e /\ eligible (config_ e) s0
                      /\ s = Sequencer.with_status s0 Active)
  /\ (forall s0, s0 ∈ sequencers_ e -> eligible (config_ e) s0 ->
        Sequencer.with_status s0 Active ∈ active_set_ e'
        \/ ((length (active_set_ e')
             = Z.to_nat (ConsensusConfig.max_sequencers (config_ e)))
            /\ forall s, s ∈ active_set_ e' -> Sequencer.stake s0 <= Sequencer.stake s))
  /\ sequencers_ e' = sequencers_ e /\ config_ e' = config_ e.
Proof.
  cbn zeta. split; [|split; [|split; [|done]]].
  - unfold update_active_set. cbn [active_set_].
    rewrite length_fmap, length_take. lia.
  - intros s Hs. apply active_set_elements in Hs as (s0 & Hin & Hel & ->).
    split; [done|]. split; [apply Hel|]. by exists s0.
  - intros s0 Hin Hel.
    unfold update_active_set. cbn [active_set_].
    set (sorted := sort_by_stake _).
    set (count := Nat.min _ _).
    assert (Hs0 : s0 ∈ sorted).
    { unfold sorted. rewrite sort_by_stake_perm. apply list_elem_of_filter.
      by rewrite eligible_b_spec. }
    rewrite <- (take_drop count sorted) in Hs0.
    apply elem_of_app in Hs0 as [Htake|Hdrop].
    + left. apply list_elem_of_fmap. by exists s0.
    + right. split.
      * rewrite length_fmap, length_take. unfold count.
        apply list_elem_of_lookup in Hdrop as (i & Hi).
        apply lookup_lt_Some in Hi. rewrite length_drop in Hi. lia.
      * intros s Hs. apply list_elem_of_fmap in Hs as (s1 & -> & Hs1).
        cbn [Sequencer.with_status Sequencer.stake].
        pose proof (sort_by_stake_sorted
                      (filter (fun s => eligible_b (config_ e) s = true)
                              (sequencers_ e))) as Hsorted.
        fold sorted in Hsorted.
        rewrite <- (take_drop count sorted) in Hsorted.
        exact (StronglySorted_app_1_elem_of _ _ _ s1 s0 Hsorted Hs1 Hdrop).
Qed.

Lemma replace_first_None (seq : Sequencer.t) (l : list Sequencer.t) :
  replace_first seq l = None <-> Sequencer.address seq ∉ addresses l.
Proof.
  induction l as [|s l IH]; cbn [replace_first addresses fmap list_fmap].
  - split; [intros _; apply not_elem_of_nil|done].
  - rewrite not_elem_of_cons. case_bool_decide as Hs.
    + split; [done|]. intros [Hne _]. by destruct Hne.
    + rewrite fmap_None, IH. unfold addresses. intuition congruence.
Qed.

Lemma replace_first_Some (seq : Sequencer.t) (l l' : list Sequencer.t) :
  replace_first seq l = Some l' ->
  exists l1 s l2,
    l = l1 ++ s :: l2 /\ l' = l1 ++ seq :: l2
    /\ Sequencer.address s = Sequencer.address seq
    /\ Sequencer.address seq ∉ addresses l1.
Proof.
  revert l'. induction l as [|s l IH]; intros l'; cbn [replace_first]; [done|].
  case_bool_decide as Hs.
  - intros [= <-]. exists [], s, l. repeat split; [done|]. apply not_elem_of_nil.
  - intros E. apply fmap_Some in E as (l0 & E & ->).
    destruct (IH l0 E) as (l1 & s1 & l2 & -> & -> & Ha & Hn).
    exists (s :: l1), s1, l2. repeat split; [done|].
    cbn [addresses fmap list_fmap]. rewrite not_elem_of_cons. split; [congruence|done].
Qed.

Lemma change_first_None (f : Sequencer.t -> Sequencer.t) (addr : Address.t)
  (l : list Sequencer.t) :
  change_first f addr l = None <-> addr ∉ addresses l.
Proof.
  induction l as [|s l IH]; cbn [change_first addresses fmap list_fmap].
  - split; [intros _; apply not_elem_of_nil|done].
  - rewrite not_elem_of_cons. case_bool_decide as Hs.
    + split; [done|]. intros [Hne _]. by destruct Hne.
    + rewrite fmap_None, IH. unfold addresses. intuition congruence.
Qed.

Lemma change_first_Some (f : Sequencer.t -> Sequencer.t) (addr : Address.t)
  (l l' : list Sequencer.t) :
  change_first f addr l = Some l' ->
  exists l1 s l2,
    l = l1 ++ s :: l2 /\ l' = l1 ++ f s :: l2
    /\ Sequencer.address s = addr /\ addr ∉ addresses l1.
Proof.
  revert l'. induction l as [|s l IH]; intros l'; cbn [change_first]; [done|].
  case_bool_decide as Hs.
  - intros [= <-]. exists [], s, l. repeat split; [done|]. apply not_elem_of_nil.
  - intros E. apply fmap_Some in E as (l0 & E & ->).
    destruct (IH l0 E) as (l1 & s1 & l2 & -> & -> & Ha & Hn).
    exists (s :: l1), s1, l2. repeat split; [done|].
    cbn [addresses fmap list_fmap]. rewrite not_elem_of_cons. split; [congruence|done].
Qed.

Lemma addresses_app (l1 l2 : list Sequencer.t) :
  addresses (l1 ++ l2) = addresses l1 ++ addresses l2.
Proof. apply fmap_app. Qed.

(** Changing a member other than the address keeps the list of addresses. *)
Lemma change_first_addresses (f : Sequencer.t -> Sequencer.t) (addr : Address.t)
  (l l' : list Sequencer.t) :
  (forall s, Sequencer.address (f s) = Sequencer.address s) ->
  change_first f addr l = Some l' -> addresses l' = addresses l.
Proof.
  intros Hf E. apply change_first_Some in E as (l1 & s & l2 & -> & -> & _ & _).
  rewrite !addresses_app. cbn [addresses fmap list_fmap]. by rewrite Hf.
Qed.

(** A sequencer whose record was changed into one that does not qualify is
    not in the active set. *)
Lemma changed_not_active (f : Sequencer.t -> Sequencer.t) (addr : Address.t)
  (e : t) (l' : list Sequencer.t) :
  registry_wf e ->
  (forall s, Sequencer.address (f s) = Sequencer.address s) ->
  (forall s, Sequencer.address s = addr -> ~ eligible (config_ e) (f s)) ->
  change_first f addr (sequencers_ e) = Some l' ->
  addr ∉ addresses (active_set_ (update_active_set (mk (config_ e) l' (active_set_ e)))).
Proof.
  intros Hwf Hf Hnot E.
  apply change_first_Some in E as (l1 & s & l2 & Hl & -> & Hs & Hl1).
  unfold registry_wf in Hwf. rewrite Hl, addresses_app in Hwf.
  cbn [addresses fmap list_fmap] in Hwf.
  apply NoDup_app in Hwf as (_ & _ & Hwf). apply NoDup_cons in Hwf as [Hl2 _].
  unfold addresses at 1. rewrite list_elem_of_fmap. intros (s' & Haddr & Hin).
  apply active_set_elements in Hin as (s0 & Hin & Hel & ->).
  cbn [sequencers_ config_ Sequencer.with_status Sequencer.address] in *.
  apply elem_of_app in Hin as [Hin|Hin].
  - apply Hl1. unfold addresses. apply list_elem_of_fmap. by exists s0.
  - apply elem_of_cons in Hin as [->|Hin].
    + by apply (Hnot s).
    + apply Hl2. rewrite Hs, Haddr. apply list_elem_of_fmap. by exists s0.
Qed.

(** X12: [register_sequencer] refuses a stake below the minimum and leaves
    the engine as it was; otherwise the sequencer is registered under its
    address, in place of the record that held the address or at the end, every
    other record is kept, and no address is ever registered twice. *)
Theorem register_sequencer_registry (seq : Sequencer.t) (e : t) :
  let ok := (register_sequencer seq e).1 in
  let e' := (register_sequencer seq e).2 in
  (Sequencer.stake seq < ConsensusConfig.min_stake (config_ e) ->
   ok = false /\ e' = e)
  /\ (ConsensusConfig.min_stake (config_ e) <= Sequencer.stake seq ->
      ok = true
      /\ seq ∈ sequencers_ e'
      /\ addresses (sequencers_ e')
         = (if bool_decide (Sequencer.address seq ∈ addresses (sequencers_ e))
            then addresses (sequencers_ e)
            else addresses (sequencers_ e) ++ [Sequencer.address seq])
      /\ (forall s, Sequencer.address s <> Sequencer.address seq ->
            s ∈ sequencers_ e' <-> s ∈ sequencers_ e)
      /\ (registry_wf e ->
          registry_wf e'
          /\ forall s, s ∈ sequencers_ e' ->
               Sequencer.address s = Sequencer.address seq -> s = seq)).
Proof.
  cbn zeta. unfold register_sequencer.
  destruct (Z.ltb_spec (Sequencer.stake seq) (ConsensusConfig.min_stake (config_ e)))
    as [Hlow|Hok].
  { split; [done|lia]. }
  split; [lia|]. intros _. cbn [fst snd]. split; [done|].
  unfold update_active_set, registry_wf. cbn [sequencers_ config_].
  destruct (replace_first seq (sequencers_ e)) as [l'|] eqn:E.
  - apply replace_first_Some in E as (l1 & s & l2 & Hl & -> & Hs & Hl1).
    rewrite Hl, !addresses_app. cbn [addresses fmap list_fmap]. rewrite Hs.
    rewrite bool_decide_eq_true_2
      by (apply elem_of_app; right; apply list_elem_of_here).
    split; [set_solver|]. split; [done|]. split.
    + intros s' Hne. rewrite !elem_of_app, !elem_of_cons.
      split; (intros [?|[->|?]]; [by left|congruence|by right; right]).
    + intros Hwf. split; [done|]. intros s' Hin Haddr.
      apply NoDup_app in Hwf as (_ & _ & Hwf). apply NoDup_cons in Hwf as [Hl2 _].
      apply elem_of_app in Hin as [Hin|Hin].
      * destruct Hl1. rewrite <- Haddr. apply list_elem_of_fmap. by exists s'.
      * apply elem_of_cons in Hin as [->|Hin]; [done|].
        destruct Hl2. rewrite <- Haddr. apply list_elem_of_fmap. by exists s'.
  - apply replace_first_None in E.
    rewrite bool_decide_eq_false_2 by done.
    split; [set_solver|]. rewrite addresses_app. split; [done|]. split.
    + intros s' Hne. rewrite elem_of_app, list_elem_of_singleton.
      split; [intros [?| ->]; [done|congruence]|by left].
    + intros Hwf. split.
      * apply NoDup_app. split; [done|]. split; [|apply NoDup_singleton].
        intros a Ha Hb. apply list_elem_of_singleton in Hb. by subst a.
      * intros s' Hin Haddr. apply elem_of_app in Hin as [Hin|Hin].
        -- destruct E. rewrite <- Haddr. apply list_elem_of_fmap. by exists s'.
        -- by apply list_elem_of_singleton in Hin.
Qed.

(** X13: the leader of a slot is one of the active sequencers whenever there
    is one, and the default address otherwise. *)
Theorem leader_is_active (slot : Z) (e : t) :
  (active_set_ e <> [] -> get_leader_for_slot slot e ∈ addresses (active_set_ e))
  /\ (active_set_ e = [] -> get_leader_for_slot slot e = Address.default).
Proof.
  unfold get_leader_for_slot. split.
  - intros Hne. destruct (active_set_ e) as [|first rest] eqn:E; [done|].
    destruct (leader_walk _ 0 (first :: rest)) as [a|] eqn:Hw.
    + clear Hne E. revert Hw. generalize 0 at 1.
      generalize (slot mod total_active_stake e). intros v.
      induction (first :: rest) as [|s l IH]; intros c; cbn [leader_walk]; [done|].
      destruct (v <? add64 c (Sequencer.stake s)).
      * intros [= <-]. apply list_elem_of_here.
      * intros Hw. apply list_elem_of_further. by apply (IH (add64 c (Sequencer.stake s))).
    + apply list_elem_of_here.
  - by intros ->.
Qed.

(** X14: a sequencer that unregisters, that is reported for misbehaviour,
    or whose stake is set below the minimum, is out of the active set at once;
    the registry keeps one record per address.  Unregistering an address that
    is not registered returns [false] and changes nothing, and a report is
    queued whether or not its sequencer is registered. *)
Theorem removed_from_rotation (addr : Address.t) (e : t) :
  registry_wf e ->
  (addr ∈ addresses (sequencers_ e) ->
   fst (unregister_sequencer addr e) = true
   /\ (addr ∉ addresses (active_set_ (snd (unregister_sequencer addr e))))
   /\ registry_wf (snd (unregister_sequencer addr e)))
  /\ (addr ∉ addresses (sequencers_ e) -> unregister_sequencer addr e = (false, e))
  /\ (forall evidence c,
        engine c = e -> SlashingEvidence.sequencer evidence = addr ->
        get_pending_slashings (report_misbehavior evidence c)
        = get_pending_slashings c ++ [evidence]
        /\ registry_wf (engine (report_misbehavior evidence c))
        /\ (addr ∈ addresses (sequencers_ e) ->
            addr ∉ addresses (active_set_ (engine (report_misbehavior evidence c)))))
  /\ (forall new_stake,
        registry_wf (update_stake addr new_stake e)
        /\ (addr ∈ addresses (sequencers_ e) ->
            new_stake < ConsensusConfig.min_stake (config_ e) ->
            addr ∉ addresses (active_set_ (update_stake addr new_stake e)))).
Proof.
  intros Hwf.
  assert (Hexit : forall s, Sequencer.address s = addr ->
                    ~ eligible (config_ e) (Sequencer.with_status s Exiting)).
  { intros s _ [[Hs|Hs] _]; discriminate. }
  assert (Hslash : forall s, Sequencer.address s = addr ->
                     ~ eligible (config_ e) (Sequencer.with_status s Slashed)).
  { intros s _ [[Hs|Hs] _]; discriminate. }
  split; [|split; [|split]].
  - intros Hin. unfold unregister_sequencer.
    destruct (change_first _ addr (sequencers_ e)) as [l'|] eqn:E.
    + cbn [fst snd]. split; [done|]. split.
      * by apply (changed_not_active _ addr e l' Hwf) in E.
      * unfold registry_wf, update_active_set. cbn [sequencers_].
        apply change_first_addresses in E as ->; done.
    + apply change_first_None in E. done.
  - intros Hnot. unfold unregister_sequencer.
    by rewrite (proj2 (change_first_None _ addr (sequencers_ e)) Hnot).
  - intros evidence c <- <-. unfold report_misbehavior, get_pending_slashings.
    cbn [engine pending_slashings_]. split; [done|].
    destruct (change_first _ _ (sequencers_ (engine c))) as [l'|] eqn:E.
    + split.
      * unfold registry_wf, update_active_set. cbn [sequencers_].
        apply change_first_addresses in E as ->; done.
      * intros _. by apply (changed_not_active _ _ (engine c) l' Hwf) in E.
    + split; [exact Hwf|]. intros Hin. by apply change_first_None in E.
  - intros new_stake. unfold update_stake.
    destruct (change_first _ addr (sequencers_ e)) as [l'|] eqn:E.
    + split.
      * unfold registry_wf, update_active_set. cbn [sequencers_].
        apply change_first_addresses in E as ->; done.
      * intros _ Hlow. apply (changed_not_active _ addr e l' Hwf) in E; [done|done|].
        intros s _ [_ Hstake]. cbn in Hstake. lia.
    + split; [exact Hwf|]. intros Hin. by apply change_first_None in E.
Qed.




End Registry.


(** ** Block acceptance and slots (consensus.cpp) *)

Section Chain.
Context `{Crypto}.

Import ConsensusEngine.

Lemma add64_1_ne (n : Z) : is_u64 n -> add64 n 1 <> n.
Proof.
  intros [Hlo Hhi]. unfold add64, wrap64.
  destruct (Z.eq_dec n (2 ^ 64 - 1)) as [->|Hne]; [by vm_compute|].
  rewrite Z.mod_small by lia. lia.
Qed.

(** X16: a block is accepted only as the successor of the head: its number
    is the head number plus one, its parent hash is the head hash, its
    sequencer is the leader of the slot with its number, its transactions root
    matches its transactions and its gas is within its limit.  Accepting it
    makes it the head, so the same block is refused when it is offered again;
    a refused block changes nothing. *)
Theorem process_block_extends_head (block : Block.t) (c : chain) :
  let header := Block.header block in
  let ok := fst (process_block block c) in
  let c' := snd (process_block block c) in
  (ok = true ->
   BlockHeader.number header = add64 (chain_head_ c) 1
   /\ BlockHeader.parent_hash header = get_canonical_head c
   /\ BlockHeader.sequencer header
      = get_leader_for_slot (BlockHeader.number header) (engine c)
   /\ Block.compute_transactions_root block = BlockHeader.transactions_root header
   /\ BlockHeader.gas_used header <= BlockHeader.gas_limit header
   /\ chain_head_ c' = BlockHeader.number header
   /\ get_canonical_head c' = BlockHeader.hash header
   /\ engine c' = engine c
   /\ validate_block block c' = ValidationResult.mk false "Invalid block number"
   /\ process_block block c' = (false, c'))
  /\ (ok = false -> c' = c)
  /\ (ok = ValidationResult.valid (validate_block block c)).
Proof.
  cbn zeta. unfold process_block.
  destruct (ValidationResult.valid (validate_block block c)) eqn:Hvalid;
    cbn [negb fst snd]; [|done].
  split; [|done]. intros _.
  unfold validate_block in Hvalid. cbn zeta in Hvalid.
  destruct (Z.eqb_spec (BlockHeader.number (Block.header block))
              (add64 (chain_head_ c) 1)) as [Hnum|]; [|done].
  cbn [negb] in Hvalid.
  case_bool_decide as Hparent; [|done]. cbn [negb] in Hvalid.
  case_bool_decide as Hleader; [|done]. cbn [negb] in Hvalid.
  case_bool_decide as Hroot; [|done]. cbn [negb] in Hvalid.
  destruct (Z.gtb_spec (BlockHeader.gas_used (Block.header block))
              (BlockHeader.gas_limit (Block.header block))) as [|Hgas]; [done|].
  assert (Hreplay : validate_block block
                      (mkChain (engine c) (BlockHeader.number (Block.header block))
                         (BlockHeader.hash (Block.header block))
                         (l1_checkpoints_ c) (pending_slashings_ c))
                    = ValidationResult.mk false "Invalid block number").
  { unfold validate_block. cbn [chain_head_].
    destruct (Z.eqb_spec (BlockHeader.number (Block.header block))
                (add64 (BlockHeader.number (Block.header block)) 1)) as [E|]; [|done].
    exfalso. symmetry in E. revert E. apply add64_1_ne. rewrite Hnum.
    apply wrap64_u64. }
  repeat split; try done.
  by rewrite Hreplay.
Qed.

(** X17: [produce_block] numbers the block after the head, fills in the
    transactions root and the summed gas limits, and checks nothing: the block
    it returns passes [validate_block] exactly when the caller passed the head
    hash as parent, the sequencer is the leader of the slot, and the summed gas
    limits, taken modulo 2^64, do not exceed the default limit of 30000000. *)
Theorem produce_block_valid_iff (now : Z) (sequencer : Address.t)
  (parent_hash : Hash256) (txs : list Transaction.t) (state_root : Hash256)
  (c : chain) :
  exists block,
    produce_block now sequencer parent_hash txs state_root c = Some block
    /\ BlockHeader.number (Block.header block) = add64 (chain_head_ c) 1
    /\ Block.transactions block = txs
    /\ BlockHeader.gas_used (Block.header block)
       = foldl (fun total tx => add64 total (Transaction.gas_limit tx)) 0 txs
    /\ (ValidationResult.valid (validate_block block c) = true
        <-> parent_hash = get_canonical_head c
            /\ sequencer = get_leader_for_slot (add64 (chain_head_ c) 1) (engine c)
            /\ foldl (fun total tx => add64 total (Transaction.gas_limit tx)) 0 txs
               <= 30000000).
Proof.
  eexists. split; [reflexivity|]. split; [reflexivity|]. split; [reflexivity|].
  split; [reflexivity|].
  unfold validate_block, get_canonical_head.
  cbn [Block.header BlockHeader.number BlockHeader.parent_hash
       BlockHeader.sequencer BlockHeader.transactions_root BlockHeader.gas_used
       BlockHeader.gas_limit BlockHeader.default].
  rewrite Z.eqb_refl. cbn [negb].
  case_bool_decide as Hparent; cbn [negb ValidationResult.valid];
    [|split; [discriminate|by intros [? _]]].
  case_bool_decide as Hleader; cbn [negb ValidationResult.valid];
    [|split; [discriminate|by intros (_ & ? & _)]].
  rewrite bool_decide_eq_true_2 by reflexivity. cbn [negb].
  destruct (Z.gtb_spec
              (foldl (fun total tx => add64 total (Transaction.gas_limit tx)) 0 txs)
              30000000); cbn [ValidationResult.valid].
  - split; [discriminate|]. intros (_ & _ & ?). lia.
  - split; [|done]. intros _. repeat split; done || lia.
Qed.

End Chain.

Section Slots.

Import ConsensusEngine.

Lemma next_slot_loop_first (addr : Address.t) (bound : Z) (e : t) (fuel : nat) :
  forall s,
    0 <= s -> bound < 2 ^ 64 -> bound - s <= Z.of_nat fuel ->
    let r := next_slot_loop fuel addr s bound e in
    (r = 2 ^ 64 - 1
     /\ forall x, s <= x < bound -> get_leader_for_slot x e <> addr)
    \/ (s <= r < bound
        /\ get_leader_for_slot r e = addr
        /\ forall x, s <= x < r -> get_leader_for_slot x e <> addr).
Proof.
  induction fuel as [|fuel IH]; intros s Hs Hbound Hfuel; cbn zeta.
  - left. split; [done|]. intros x Hx. lia.
  - cbn [next_slot_loop].
    destruct (Z.ltb_spec s bound) as [Hlt|Hge].
    + case_bool_decide as Hleader.
      * right. split; [lia|]. split; [done|]. intros x Hx. lia.
      * assert (Hs1 : add64 s 1 = s + 1).
        { unfold add64, wrap64. apply Z.mod_small. lia. }
        rewrite Hs1.
        destruct (IH (s + 1)) as [[Hr Hnone]|(Hr & Hfound & Hnone)]; [lia..| |].
        -- left. split; [done|]. intros x Hx.
           destruct (Z.eq_dec x s) as [->|]; [done|]. apply Hnone. lia.
        -- right. split; [lia|]. split; [done|]. intros x Hx.
           destruct (Z.eq_dec x s) as [->|]; [done|]. apply Hnone. lia.
    + left. split; [done|]. intros x Hx. lia.
Qed.

(** X18: [next_slot_for] returns the first slot after the current one, among
    the next 9999, whose leader is the given address, and [UINT64_MAX] when
    none of them has that leader. *)
Theorem next_slot_for_first (addr : Address.t) (current_slot : Z) (e : t) :
  0 <= current_slot -> current_slot + 10000 < 2 ^ 64 ->
  let r := next_slot_for addr current_slot e in
  (r = 2 ^ 64 - 1
   /\ forall s, current_slot < s < current_slot + 10000 ->
        get_leader_for_slot s e <> addr)
  \/ (current_slot < r < current_slot + 10000
      /\ get_leader_for_slot r e = addr
      /\ is_my_slot r addr e = true
      /\ forall s, current_slot < s < r -> get_leader_for_slot s e <> addr).
Proof.
  intros Hlo Hhi. cbn zeta. unfold next_slot_for, add64, wrap64.
  rewrite !Z.mod_small by lia.
  destruct (next_slot_loop_first addr (current_slot + 10000) e (Z.to_nat 10000)
              (current_slot + 1)) as [[Hr Hnone]|(Hr & Hfound & Hnone)]; [lia..| |].
  - left. split; [done|]. intros s Hs. apply Hnone. lia.
  - right. split; [lia|]. split; [done|]. split.
    + unfold is_my_slot. by rewrite bool_decide_eq_true_2.
    + intros s Hs. apply Hnone. lia.
Qed.

End Slots.


(** *** The sequencer set and the chain on concrete inputs *)

Lemma active_set_top_stake_witness :
  Forall (fun s => ConsensusEngine.Sequencer.status s = ConsensusEngine.Active
                   /\ 1 <= ConsensusEngine.Sequencer.stake s)
         (ConsensusEngine.active_set_
            (ConsensusEngine.update_active_set SequencerScenario.engine31)).
Proof.
  apply Forall_forall. intros s Hs.
  destruct (active_set_top_stake SequencerScenario.engine31) as (_ & Hall & _).
  destruct (Hall s Hs) as (Hstatus & Hstake & _). by split.
Defined.

Lemma register_sequencer_registry_witness :
  ConsensusEngine.register_sequencer
    (SequencerScenario.sequencer Scenario.coinbase 0) SequencerScenario.engine31
  = (false, SequencerScenario.engine31).
Proof.
  destruct (register_sequencer_registry
              (SequencerScenario.sequencer Scenario.coinbase 0)
              SequencerScenario.engine31) as [Hlow _].
  destruct Hlow as [Hok He]; [by_evaluation|].
  destruct (ConsensusEngine.register_sequencer _ _) as [ok e'].
  cbn [fst snd] in Hok, He. by rewrite Hok, He.
Defined.

Lemma leader_is_active_witness :
  ConsensusEngine.get_leader_for_slot 7 SequencerScenario.engine31
  ∈ [Scenario.A; Scenario.B].
Proof.
  destruct (leader_is_active 7 SequencerScenario.engine31) as [Hin _].
  apply Hin. by_evaluation.
Defined.

Lemma removed_from_rotation_witness :
  (Scenario.A
   ∉ addresses (ConsensusEngine.active_set_
                  (snd (ConsensusEngine.unregister_sequencer Scenario.A
                          SequencerScenario.engine31))))
  /\ ConsensusEngine.unregister_sequencer Scenario.coinbase SequencerScenario.engine31
     = (false, SequencerScenario.engine31).
Proof.
  destruct (removed_from_rotation Scenario.A SequencerScenario.engine31)
    as (Hknown & _).
  { apply (bool_decide_unpack _). by_evaluation. }
  destruct (removed_from_rotation Scenario.coinbase SequencerScenario.engine31)
    as (_ & Hunknown & _).
  { apply (bool_decide_unpack _). by_evaluation. }
  split.
  - apply Hknown. apply (bool_decide_unpack _). by_evaluation.
  - apply Hunknown. apply (bool_decide_unpack _). by_evaluation.
Defined.


Lemma process_block_extends_head_witness :
  ConsensusEngine.process_block ChainScenario.block1
    (snd (ConsensusEngine.process_block ChainScenario.block1 ChainScenario.chain0))
  = (false,
     snd (ConsensusEngine.process_block ChainScenario.block1 ChainScenario.chain0))
  /\ ConsensusEngine.chain_head_
       (snd (ConsensusEngine.process_block ChainScenario.block1 ChainScenario.chain0))
     = 1.
Proof.
  destruct (process_block_extends_head ChainScenario.block1 ChainScenario.chain0)
    as [Haccepted _].
  destruct Haccepted as (_ & _ & _ & _ & _ & Hhead & _ & _ & _ & Hreplay);
    [by_evaluation|].
  split; [exact Hreplay|]. rewrite Hhead. by_evaluation.
Defined.

Lemma next_slot_for_first_witness :
  ConsensusEngine.next_slot_for Scenario.B 0 SequencerScenario.engine31 = 3.
Proof.
  destruct (next_slot_for_first Scenario.B 0 SequencerScenario.engine31)
    as [[Hmax _]|(Hrange & _)]; [lia..| |]; revert Hmax || revert Hrange;
    by_evaluation.
Defined.

(** ** The mempool's bookkeeping (consensus.cpp) *)

Section PoolIndex.
Context `{Crypto}.

Lemma pooled_at_sender (tx : Transaction.t) (pool : Mempool.t)
  (existing : Transaction.t) :
  pooled_at tx pool = Some existing ->
  exists sender_txs,
    Mempool.by_sender_ pool !! Address.to_hex (Transaction.from tx) = Some sender_txs
    /\ Mempool.SenderTxs.by_nonce sender_txs !! Transaction.nonce tx = Some existing.
Proof.
  unfold pooled_at.
  destruct (Mempool.by_sender_ pool !! _) as [s|]; cbn [default]; [by exists s|].
  cbn. by rewrite lookup_empty.
Qed.

Lemma add_transaction_consistent (tx : Transaction.t) (sender_balance : Z)
  (pool : Mempool.t) :
  pool_consistent pool ->
  pool_consistent (Mempool.add_transaction tx sender_balance pool).2.
Proof.
  intros [Hh Hs].
  unfold Mempool.add_transaction. cbn zeta.
  case_bool_decide as Hknown; [done|].
  destruct (_ <? _); [done|]. destruct (_ >=? _); [done|].
  assert (Hnew : Mempool.by_hash_ pool !! Transaction.hash tx = None).
  { apply eq_None_not_Some. exact Hknown. }
  set (key := Address.to_hex (Transaction.from tx)).
  set (s := default Mempool.SenderTxs.default (Mempool.by_sender_ pool !! key)).
  assert (Hsent : forall n t, Mempool.SenderTxs.by_nonce s !! n = Some t ->
                    key = Address.to_hex (Transaction.from t)
                    /\ n = Transaction.nonce t
                    /\ Mempool.by_hash_ pool !! Transaction.hash t = Some t).
  { intros n t Hn. unfold s in Hn.
    destruct (Mempool.by_sender_ pool !! key) as [s0|] eqn:E; cbn [from_option id] in Hn.
    - by apply (Hs key s0).
    - cbn in Hn. by rewrite lookup_empty in Hn. }
  destruct (Mempool.SenderTxs.by_nonce s !! Transaction.nonce tx) as [existing|] eqn:Hslot.
  - destruct (Hsent _ _ Hslot) as (Hkey & Hnonce & Hold).
    assert (Hstored : Mempool.by_sender_ pool !! key = Some s).
    { unfold s in *. destruct (Mempool.by_sender_ pool !! key); [done|].
      cbn in Hslot. by rewrite lookup_empty in Hslot. }
    destruct (_ <=? _); cbn [snd].
    + (* Underpriced *)
      split.
      * intros h t Ht. cbn [Mempool.by_hash_] in Ht. destruct (Hh h t Ht) as [-> Hp].
        split; [done|]. unfold pooled_at in *. cbn [Mempool.by_sender_].
        by rewrite insert_id.
      * intros k st n t Hk Hn. cbn [Mempool.by_sender_ Mempool.by_hash_] in *.
        rewrite insert_id in Hk by done. by apply (Hs k st).
    + (* Replaced *)
      assert (Hne : Transaction.hash existing <> Transaction.hash tx) by congruence.
      split.
      * intros h t Ht. cbn [Mempool.by_hash_] in Ht.
        apply lookup_insert_Some in Ht as [[<- <-]|[Hne' Ht]].
        -- split; [done|]. unfold pooled_at. cbn [Mempool.by_sender_].
           fold key. rewrite lookup_insert_eq. cbn [from_option id Mempool.SenderTxs.by_nonce].
           by rewrite lookup_insert_eq.
        -- apply lookup_delete_Some in Ht as [Hne2 Ht].
           destruct (Hh h t Ht) as [-> Hp]. split; [done|].
           unfold pooled_at in *. cbn [Mempool.by_sender_].
           destruct (decide (Address.to_hex (Transaction.from t) = key)) as [Ek|Ek].
           ++ rewrite Ek in *. rewrite lookup_insert_eq. rewrite Hstored in Hp.
              cbn [from_option id Mempool.SenderTxs.by_nonce] in *.
              destruct (decide (Transaction.nonce t = Transaction.nonce tx)) as [En|En].
              ** rewrite En, Hslot in Hp. congruence.
              ** by rewrite lookup_insert_ne.
           ++ by rewrite lookup_insert_ne.
      * intros k st n t Hk Hn. cbn [Mempool.by_sender_ Mempool.by_hash_] in *.
        apply lookup_insert_Some in Hk as [[<- <-]|[Hne' Hk]].
        -- cbn [Mempool.SenderTxs.by_nonce] in Hn.
           apply lookup_insert_Some in Hn as [[<- <-]|[Hne' Hn]].
           ++ repeat split. by rewrite lookup_insert_eq.
           ++ destruct (Hsent _ _ Hn) as (Hk & Hn' & Ht). repeat split; [done..|].
              rewrite lookup_insert_ne by congruence.
              rewrite lookup_delete_ne; [done|]. intros E.
              rewrite <- E, Hold in Ht. congruence.
        -- destruct (Hs k st n t Hk Hn) as (Hk' & Hn' & Ht). repeat split; [done..|].
           rewrite lookup_insert_ne by congruence.
           rewrite lookup_delete_ne; [done|]. intros E.
           rewrite <- E, Hold in Ht. congruence.
  - (* Added *)
    cbn [snd]. split.
    + intros h t Ht. cbn [Mempool.by_hash_] in Ht.
      apply lookup_insert_Some in Ht as [[<- <-]|[Hne' Ht]].
      * split; [done|]. unfold pooled_at. cbn [Mempool.by_sender_].
        fold key. rewrite lookup_insert_eq. cbn [from_option id Mempool.SenderTxs.by_nonce].
        by rewrite lookup_insert_eq.
      * destruct (Hh h t Ht) as [-> Hp]. split; [done|].
        unfold pooled_at in *. cbn [Mempool.by_sender_].
        destruct (decide (Address.to_hex (Transaction.from t) = key)) as [Ek|Ek].
        -- rewrite Ek in *. rewrite lookup_insert_eq. fold s in Hp.
           cbn [from_option id Mempool.SenderTxs.by_nonce] in *.
           destruct (decide (Transaction.nonce t = Transaction.nonce tx)) as [En|En].
           ++ rewrite En, Hslot in Hp. done.
           ++ by rewrite lookup_insert_ne.
        -- by rewrite lookup_insert_ne.
    + intros k st n t Hk Hn. cbn [Mempool.by_sender_ Mempool.by_hash_] in *.
      apply lookup_insert_Some in Hk as [[<- <-]|[Hne' Hk]].
      * cbn [Mempool.SenderTxs.by_nonce] in Hn.
        apply lookup_insert_Some in Hn as [[<- <-]|[Hne' Hn]].
        -- repeat split. by rewrite lookup_insert_eq.
        -- destruct (Hsent _ _ Hn) as (Hk & Hn' & Ht). repeat split; [done..|].
           rewrite lookup_insert_ne; [done|]. intros E. rewrite <- E in Ht. congruence.
      * destruct (Hs k st n t Hk Hn) as (Hk' & Hn' & Ht). repeat split; [done..|].
        rewrite lookup_insert_ne; [done|]. intros E. rewrite <- E in Ht. congruence.
Qed.

Lemma remove_transaction_consistent (hash : Hash256) (pool : Mempool.t) :
  pool_consistent pool ->
  pool_consistent (Mempool.remove_transaction hash pool).2.
Proof.
  intros [Hh Hs]. unfold Mempool.remove_transaction.
  destruct (Mempool.by_hash_ pool !! hash) as [tx|] eqn:Htx; [|done].
  cbn [snd]. destruct (Hh _ _ Htx) as [-> Hp].
  apply pooled_at_sender in Hp as (s & Hkey & Hslot).
  rewrite Hkey.
  set (key := Address.to_hex (Transaction.from tx)) in *.
  assert (Hkeep : forall t, Mempool.by_hash_ pool !! Transaction.hash t = Some t ->
                    Transaction.hash t <> Transaction.hash tx ->
                    ~ (Address.to_hex (Transaction.from t) = key
                       /\ Transaction.nonce t = Transaction.nonce tx)).
  { intros t Ht Hne [Ek En]. destruct (Hh _ _ Ht) as [_ Hp].
    unfold pooled_at in Hp. rewrite Ek, Hkey, En in Hp. cbn [from_option id] in Hp.
    rewrite Hslot in Hp. congruence. }
  split.
  - intros h t Ht. cbn [Mempool.by_hash_] in Ht.
    apply lookup_delete_Some in Ht as [Hne Ht].
    destruct (Hh h t Ht) as [-> Hp]. split; [done|].
    specialize (Hkeep t Ht ltac:(congruence)).
    unfold pooled_at in *. cbn [Mempool.by_sender_].
    destruct (decide (Address.to_hex (Transaction.from t) = key)) as [Ek|Ek].
    + rewrite Ek in *. rewrite Hkey in Hp. cbn [from_option id] in Hp.
      assert (En : Transaction.nonce t <> Transaction.nonce tx) by tauto.
      case_bool_decide as Hempty.
      * apply (f_equal (fun m => m !! Transaction.nonce t)) in Hempty.
        rewrite lookup_delete_ne, lookup_empty in Hempty by done. congruence.
      * rewrite lookup_insert_eq. cbn [from_option id Mempool.SenderTxs.by_nonce].
        by rewrite lookup_delete_ne.
    + case_bool_decide.
      * by rewrite lookup_delete_ne.
      * by rewrite lookup_insert_ne.
  - intros k st n t Hk Hn. cbn [Mempool.by_sender_ Mempool.by_hash_] in *.
    assert (Hother : forall st0, Mempool.by_sender_ pool !! k = Some st0 ->
                       Mempool.SenderTxs.by_nonce st0 !! n = Some t ->
                       (k = key -> n <> Transaction.nonce tx) ->
                       k = Address.to_hex (Transaction.from t)
                       /\ n = Transaction.nonce t
                       /\ delete (Transaction.hash tx) (Mempool.by_hash_ pool)
                          !! Transaction.hash t = Some t).
    { intros st0 Hk0 Hn0 Hdiff. destruct (Hs k st0 n t Hk0 Hn0) as (Hk' & Hn' & Ht).
      repeat split; [done..|]. rewrite lookup_delete_ne; [done|]. intros E.
      rewrite <- E in Ht. rewrite Htx in Ht. injection Ht as <-.
      by apply Hdiff. }
    case_bool_decide as Hempty.
    + apply lookup_delete_Some in Hk as [Hne Hk]. apply (Hother st Hk Hn). congruence.
    + apply lookup_insert_Some in Hk as [[<- <-]|[Hne Hk]].
      * cbn [Mempool.SenderTxs.by_nonce] in Hn.
        apply lookup_delete_Some in Hn as [Hne Hn]. apply (Hother s Hkey Hn). congruence.
      * apply (Hother st Hk Hn). congruence.
Qed.

Lemma create_consistent (max_size : Z) : pool_consistent (Mempool.create max_size).
Proof. split; cbn; intros *; by rewrite lookup_empty. Qed.

Lemma remove_confirmed_consistent (hashes : list Hash256) (pool : Mempool.t) :
  pool_consistent pool -> pool_consistent (Mempool.remove_confirmed hashes pool).
Proof.
  unfold Mempool.remove_confirmed. revert pool.
  induction hashes as [|h hashes IH]; intros pool Hc; [done|].
  cbn [foldl]. apply IH. by apply remove_transaction_consistent.
Qed.

Lemma get_block_transactions_indexes (gas_limit base_fee : Z) (pool : Mempool.t) :
  let pool' := (Mempool.get_block_transactions gas_limit base_fee pool).2 in
  Mempool.by_hash_ pool' = Mempool.by_hash_ pool
  /\ Mempool.by_sender_ pool' = Mempool.by_sender_ pool
  /\ Mempool.max_size_ pool' = Mempool.max_size_ pool.
Proof.
  cbn zeta. unfold Mempool.get_block_transactions.
  by destruct (Mempool.select_loop _ _ _ _ _ _ _).
Qed.

(** X19: the two indexes of the mempool never disagree.  They agree in an
    empty pool, and every operation that changes the pool keeps them in
    agreement: a transaction can be looked up by its hash exactly when it is
    filed under its sender and nonce. *)
Theorem mempool_indexes_agree :
  (forall max_size, pool_consistent (Mempool.create max_size))
  /\ (forall pool, pool_consistent pool ->
        (forall tx sender_balance,
           pool_consistent (Mempool.add_transaction tx sender_balance pool).2)
        /\ (forall hash, pool_consistent (Mempool.remove_transaction hash pool).2)
        /\ (forall hashes, pool_consistent (Mempool.remove_confirmed hashes pool))
        /\ (forall gas_limit base_fee,
              pool_consistent (Mempool.get_block_transactions gas_limit base_fee pool).2)).
Proof.
  split; [apply create_consistent|]. intros pool Hc.
  split; [intros; by apply add_transaction_consistent|].
  split; [intros; by apply remove_transaction_consistent|].
  split; [intros; by apply remove_confirmed_consistent|].
  intros gas_limit base_fee.
  destruct (get_block_transactions_indexes gas_limit base_fee pool) as (Hh & Hs & _).
  destruct Hc as [H1 H2]. split.
  - intros h tx. rewrite Hh. intros Hin. destruct (H1 h tx Hin) as [-> Hp].
    split; [done|]. unfold pooled_at in *. by rewrite Hs.
  - intros key st n tx. rewrite Hs, Hh. apply H2.
Qed.

(** X20: the pool never outgrows its capacity.  [add_transaction] makes the
    pool one transaction larger when it answers [Added] and leaves its size
    alone otherwise (a replacement takes the place of the transaction it
    evicts), so a pool within [max_size] stays within it. *)
Theorem add_transaction_capacity (tx : Transaction.t) (sender_balance : Z)
  (pool : Mempool.t) :
  pool_consistent pool ->
  let res := (Mempool.add_transaction tx sender_balance pool).1 in
  let pool' := (Mempool.add_transaction tx sender_balance pool).2 in
  Mempool.size_ pool'
  = (if bool_decide (res = Mempool.Added) then S (Mempool.size_ pool)
     else Mempool.size_ pool)
  /\ Mempool.max_size_ pool' = Mempool.max_size_ pool
  /\ (Z.of_nat (Mempool.size_ pool) <= Mempool.max_size_ pool ->
      Z.of_nat (Mempool.size_ pool') <= Mempool.max_size_ pool').
Proof.
  intros [Hh Hs]. cbn zeta. unfold Mempool.size_.
  assert (Hgoal :
    size (Mempool.by_hash_ (Mempool.add_transaction tx sender_balance pool).2)
    = (if bool_decide ((Mempool.add_transaction tx sender_balance pool).1 = Mempool.Added)
       then S (size (Mempool.by_hash_ pool)) else size (Mempool.by_hash_ pool))
    /\ Mempool.max_size_ (Mempool.add_transaction tx sender_balance pool).2
       = Mempool.max_size_ pool
    /\ ((Mempool.add_transaction tx sender_balance pool).1 = Mempool.Added ->
        Z.of_nat (size (Mempool.by_hash_ pool)) < Mempool.max_size_ pool)).
  { unfold Mempool.add_transaction. cbn zeta.
    case_bool_decide as Hknown; [done|].
    destruct (_ <? _); [done|].
    destruct (Z.geb_spec (Z.of_nat (size (Mempool.by_hash_ pool)))
                (Mempool.max_size_ pool)) as [|Hroom]; [done|].
    assert (Hnew : Mempool.by_hash_ pool !! Transaction.hash tx = None).
    { apply eq_None_not_Some. exact Hknown. }
    set (key := Address.to_hex (Transaction.from tx)).
    destruct (Mempool.SenderTxs.by_nonce _ !! Transaction.nonce tx)
      as [existing|] eqn:Hslot.
    - assert (Hold : Mempool.by_hash_ pool !! Transaction.hash existing = Some existing).
      { destruct (Mempool.by_sender_ pool !! key) as [s0|] eqn:E;
          cbn [from_option id] in Hslot.
        - by destruct (Hs key s0 _ _ E Hslot) as (_ & _ & ?).
        - cbn in Hslot. by rewrite lookup_empty in Hslot. }
      destruct (_ <=? _); cbn [fst snd Mempool.by_hash_ Mempool.max_size_]; [done|].
      rewrite bool_decide_eq_false_2 by done. split; [|done].
      rewrite map_size_insert_None.
      + pose proof (map_size_delete_Some (Transaction.hash existing)
                      (Mempool.by_hash_ pool) (mk_is_Some _ _ Hold)) as Hd.
        pose proof (map_size_ne_0_lookup_2 (Mempool.by_hash_ pool) _ (mk_is_Some _ _ Hold)).
        lia.
      + rewrite lookup_delete_ne; [done|]. intros E. rewrite E in Hold. congruence.
    - cbn [fst snd Mempool.by_hash_ Mempool.max_size_].
      rewrite bool_decide_eq_true_2 by done. split; [|done].
      by rewrite map_size_insert_None. }
  destruct Hgoal as (Hsize & Hmax & Hroom).
  split; [done|]. split; [done|]. intros Hle. rewrite Hsize, Hmax.
  case_bool_decide as Hres; [|done]. specialize (Hroom Hres). lia.
Qed.

End PoolIndex.

Section PoolRemoval.
Context `{Crypto}.

Lemma remove_confirmed_lookup (hashes : list Hash256) (pool : Mempool.t) (h : Hash256) :
  Mempool.get_transaction h (Mempool.remove_confirmed hashes pool)
  = if bool_decide (h ∈ hashes) then None else Mempool.get_transaction h pool.
Proof.
  unfold Mempool.remove_confirmed. revert pool.
  induction hashes as [|h0 hashes IH]; intros pool; cbn [foldl]; [done|].
  rewrite IH. unfold Mempool.get_transaction, Mempool.remove_transaction.
  destruct (decide (h = h0)) as [->|Hne].
  - rewrite (bool_decide_eq_true_2 (h0 ∈ h0 :: hashes)) by apply list_elem_of_here.
    case_bool_decide; [done|].
    destruct (Mempool.by_hash_ pool !! h0) eqn:E; cbn [snd Mempool.by_hash_]; [|done].
    apply lookup_delete_eq.
  - assert (Hiff : h ∈ h0 :: hashes <-> h ∈ hashes).
    { rewrite elem_of_cons. tauto. }
    rewrite (bool_decide_ext _ _ Hiff). case_bool_decide; [done|].
    destruct (Mempool.by_hash_ pool !! h0) eqn:E; cbn [snd Mempool.by_hash_]; [|done].
    by rewrite lookup_delete_ne.
Qed.

(** X21: [remove_transaction] takes a pooled transaction out of both
    indexes and touches nothing else: the hash can no longer be looked up, the
    slot under its sender and nonce is free, every other hash and slot reads
    as before, and the pool is one transaction smaller.  The sender's pending
    nonce is left where it was while the sender has another transaction
    pooled and reads 0 once the last one is gone; the priority queue is not
    touched.  A hash that is not pooled gives [false] and the pool unchanged,
    and [remove_confirmed] removes exactly the listed hashes. *)
Theorem remove_transaction_spec (hash : Hash256) (pool : Mempool.t) :
  pool_consistent pool ->
  let found := (Mempool.remove_transaction hash pool).1 in
  let pool' := (Mempool.remove_transaction hash pool).2 in
  (Mempool.get_transaction hash pool = None -> found = false /\ pool' = pool)
  /\ (forall tx, Mempool.get_transaction hash pool = Some tx ->
        found = true
        /\ Mempool.get_transaction hash pool' = None
        /\ pooled_at tx pool' = None
        /\ (forall h', h' <> hash ->
              Mempool.get_transaction h' pool' = Mempool.get_transaction h' pool)
        /\ (forall t, ~ (Address.to_hex (Transaction.from t)
                         = Address.to_hex (Transaction.from tx)
                         /\ Transaction.nonce t = Transaction.nonce tx) ->
              pooled_at t pool' = pooled_at t pool)
        /\ S (Mempool.size_ pool') = Mempool.size_ pool
        /\ ((exists t, t <> tx /\ pooled_at t pool = Some t
                       /\ Address.to_hex (Transaction.from t)
                          = Address.to_hex (Transaction.from tx)) ->
            Mempool.get_pending_nonce (Transaction.from tx) pool'
            = Mempool.get_pending_nonce (Transaction.from tx) pool)
        /\ ((forall t, pooled_at t pool = Some t ->
               Address.to_hex (Transaction.from t)
               = Address.to_hex (Transaction.from tx) -> t = tx) ->
            Mempool.get_pending_nonce (Transaction.from tx) pool' = 0)
        /\ Mempool.priority_queue_ pool' = Mempool.priority_queue_ pool)
  /\ (forall hashes h,
        Mempool.get_transaction h (Mempool.remove_confirmed hashes pool)
        = if bool_decide (h ∈ hashes) then None else Mempool.get_transaction h pool).
Proof.
  intros [Hh Hs]. cbn zeta. unfold Mempool.get_transaction.
  split; [|split; [|intros; apply remove_confirmed_lookup]].
  { intros Hnone. unfold Mempool.remove_transaction. by rewrite Hnone. }
  intros tx Htx. unfold Mempool.remove_transaction. rewrite Htx.
  cbn [fst snd Mempool.by_hash_ Mempool.priority_queue_].
  destruct (Hh _ _ Htx) as [-> Hp].
  destruct (pooled_at_sender _ _ _ Hp) as (s & Hkey & Hslot).
  rewrite Hkey. set (key := Address.to_hex (Transaction.from tx)) in *.
  split; [done|]. split; [apply lookup_delete_eq|].
  split.
  { unfold pooled_at. cbn [Mempool.by_sender_]. fold key. case_bool_decide as Hempty.
    - rewrite lookup_delete_eq. cbn. apply lookup_empty.
    - rewrite lookup_insert_eq. cbn [from_option id Mempool.SenderTxs.by_nonce].
      apply lookup_delete_eq. }
  split; [intros h' Hne; by rewrite lookup_delete_ne|].
  split.
  { intros t Hdiff. unfold pooled_at. cbn [Mempool.by_sender_].
    destruct (decide (Address.to_hex (Transaction.from t) = key)) as [Ek|Ek].
    - rewrite Ek, Hkey. cbn [from_option id].
      assert (En : Transaction.nonce t <> Transaction.nonce tx) by tauto.
      case_bool_decide as Hempty.
      + rewrite lookup_delete_eq. cbn [from_option id Mempool.SenderTxs.default
                                       Mempool.SenderTxs.by_nonce].
        apply (f_equal (fun m => m !! Transaction.nonce t)) in Hempty.
        rewrite lookup_delete_ne in Hempty by done. by rewrite Hempty.
      + rewrite lookup_insert_eq. cbn [from_option id Mempool.SenderTxs.by_nonce].
        by rewrite lookup_delete_ne.
    - case_bool_decide.
      + by rewrite lookup_delete_ne.
      + by rewrite lookup_insert_ne. }
  split.
  { unfold Mempool.size_. cbn [Mempool.by_hash_].
    pose proof (map_size_delete_Some (Transaction.hash tx)
                  (Mempool.by_hash_ pool) (mk_is_Some _ _ Htx)) as Hd.
    pose proof (map_size_ne_0_lookup_2 (Mempool.by_hash_ pool) _ (mk_is_Some _ _ Htx)).
    lia. }
  split.
  { intros (t & Hne & Ht & Ek). unfold Mempool.get_pending_nonce.
    cbn [Mempool.by_sender_]. fold key. rewrite Hkey.
    unfold pooled_at in Ht. rewrite Ek in Ht. fold key in Ht. rewrite Hkey in Ht.
    cbn [from_option id] in Ht.
    assert (En : Transaction.nonce t <> Transaction.nonce tx).
    { intros E. rewrite E, Hslot in Ht. congruence. }
    rewrite bool_decide_eq_false_2.
    - by rewrite lookup_insert_eq.
    - intros Hempty. apply (f_equal (fun m => m !! Transaction.nonce t)) in Hempty.
      rewrite lookup_delete_ne, lookup_empty in Hempty by done. congruence. }
  split; [|done].
  intros Honly. unfold Mempool.get_pending_nonce. cbn [Mempool.by_sender_]. fold key.
  rewrite bool_decide_eq_true_2; [by rewrite lookup_delete_eq|].
  apply map_eq. intros n. rewrite lookup_empty.
  destruct (decide (n = Transaction.nonce tx)) as [->|Hn]; [apply lookup_delete_eq|].
  rewrite lookup_delete_ne by done.
  destruct (Mempool.SenderTxs.by_nonce s !! n) as [t|] eqn:Ht; [|done].
  destruct (Hs key s n t Hkey Ht) as (Hk' & Hn' & Hin).
  destruct (Hh _ _ Hin) as [_ Hpt].
  rewrite (Honly t Hpt) in Hn' by done. done.
Qed.

End PoolRemoval.

Section PoolQueries.
Context `{Crypto}.

Lemma nonce_le_trans : Transitive Mempool.nonce_le.
Proof. unfold Mempool.nonce_le. intros x y z. lia. Qed.

Lemma nonce_le_total : Total Mempool.nonce_le.
Proof. unfold Mempool.nonce_le. intros x y. lia. Qed.

Lemma sorted_nonces (l : list (Z * Transaction.t)) :
  Forall (fun x => x.1 = Transaction.nonce x.2) l ->
  NoDup l.*1 -> StronglySorted Mempool.nonce_le l ->
  StronglySorted (fun x y => Transaction.nonce x < Transaction.nonce y) (snd <$> l).
Proof.
  induction l as [|x l IH]; intros Hkeys Hnd Hs; [constructor|].
  apply NoDup_cons in Hnd as [Hx Hnd]. apply StronglySorted_inv in Hs as [Hs Hall].
  apply Forall_cons in Hkeys as [Hkx Hkeys].
  cbn [fmap list_fmap]. constructor; [by apply IH|].
  rewrite Forall_forall in Hall, Hkeys. apply Forall_forall. intros t Ht.
  apply list_elem_of_fmap in Ht as (y & -> & Hy).
  specialize (Hall y Hy). unfold Mempool.nonce_le in Hall.
  rewrite <- Hkx, <- (Hkeys y Hy).
  assert (x.1 <> y.1).
  { intros E. apply Hx. rewrite E. apply list_elem_of_fmap. by exists y. }
  lia.
Qed.

(** X22: [get_pending_for] lists the transactions pooled for the sender in
    strictly increasing nonce order, one per nonce: they are exactly the
    transactions of the pool filed under the sender's key.  A sender without
    pooled transactions gets the empty list. *)
Theorem get_pending_for_sorted (a : Address.t) (pool : Mempool.t) :
  pool_consistent pool ->
  let pending := Mempool.get_pending_for a pool in
  StronglySorted (fun x y => Transaction.nonce x < Transaction.nonce y) pending
  /\ (forall tx, tx ∈ pending <->
        Mempool.get_transaction (Transaction.hash tx) pool = Some tx
        /\ Address.to_hex (Transaction.from tx) = Address.to_hex a).
Proof.
  intros [Hh Hs]. cbn zeta. unfold Mempool.get_pending_for, Mempool.get_transaction.
  destruct (Mempool.by_sender_ pool !! Address.to_hex a) as [s|] eqn:Hkey.
  - pose proof (merge_sort_Permutation Mempool.nonce_le
                  (map_to_list (Mempool.SenderTxs.by_nonce s))) as Hperm.
    assert (Hin : forall n tx,
              (n, tx) ∈ merge_sort Mempool.nonce_le
                          (map_to_list (Mempool.SenderTxs.by_nonce s))
              <-> Mempool.SenderTxs.by_nonce s !! n = Some tx).
    { intros n tx. rewrite Hperm. apply elem_of_map_to_list. }
    split.
    + apply sorted_nonces.
      * apply Forall_forall. intros [n t] Hnt. apply Hin in Hnt. cbn [fst snd].
        by destruct (Hs _ _ _ _ Hkey Hnt) as (_ & ? & _).
      * rewrite Hperm. apply NoDup_fst_map_to_list.
      * apply StronglySorted_merge_sort; [apply nonce_le_trans|apply nonce_le_total].
    + intros tx. rewrite list_elem_of_fmap. split.
      * intros ([n t] & -> & Hnt). apply Hin in Hnt. cbn [snd].
        destruct (Hs _ _ _ _ Hkey Hnt) as (Hk & _ & Hin'). done.
      * intros [Htx Hk]. destruct (Hh _ _ Htx) as [_ Hp].
        unfold pooled_at in Hp. rewrite Hk, Hkey in Hp. cbn [from_option id] in Hp.
        exists (Transaction.nonce tx, tx). split; [done|]. by apply Hin.
  - split; [constructor|].
    intros tx. split; [by intros ?%elem_of_nil|].
    intros [Htx Hk]. destruct (Hh _ _ Htx) as [_ Hp].
    unfold pooled_at in Hp. rewrite Hk, Hkey in Hp. cbn in Hp.
    by rewrite lookup_empty in Hp.
Qed.

End PoolQueries.

Section PendingNonce.
Context `{Crypto}.

Lemma first_nonce_min (m : gmap Z Transaction.t) (k : Z) :
  Mempool.first_nonce m = Some k <->
  is_Some (m !! k) /\ forall k', is_Some (m !! k') -> k <= k'.
Proof.
  unfold Mempool.first_nonce.
  assert (Hl : forall l : list (Z * Transaction.t),
            match foldr (fun kv acc => match acc with
                                       | Some m => Some (Z.min kv.1 m)
                                       | None => Some kv.1
                                       end) None l with
            | Some k => k ∈ l.*1 /\ Forall (fun k' => k <= k') l.*1
            | None => l = []
            end).
  { induction l as [|x l IH]; [done|]. cbn [foldr].
    destruct (foldr _ None l) as [k0|].
    - destruct IH as [Hin Hall]. split.
      + cbn [fmap list_fmap]. destruct (Z.min_spec x.1 k0) as [[_ ->]|[_ ->]].
        * apply list_elem_of_here.
        * by apply list_elem_of_further.
      + cbn [fmap list_fmap]. constructor; [lia|].
        eapply Forall_impl; [exact Hall|]. cbn. intros; lia.
    - subst l. split; [apply list_elem_of_here|]. cbn. constructor; [lia|constructor]. }
  specialize (Hl (map_to_list m)).
  assert (Hkeys : forall k', k' ∈ (map_to_list m).*1 <-> is_Some (m !! k')).
  { intros k'. rewrite list_elem_of_fmap. split.
    - intros ([k0 t] & -> & Hin). apply elem_of_map_to_list in Hin. by eexists.
    - intros [t Ht]. exists (k', t). split; [done|]. by apply elem_of_map_to_list. }
  destruct (foldr _ None (map_to_list m)) as [k0|].
  - destruct Hl as [Hin Hall]. rewrite Forall_forall in Hall. split.
    + intros [= <-]. split; [by apply Hkeys|]. intros k' Hk'. apply Hall. by apply Hkeys.
    + intros [Hk Hmin]. f_equal.
      apply Hkeys in Hin. apply Hkeys in Hk.
      pose proof (Hmin _ Hin). pose proof (Hall _ Hk). lia.
  - split; [done|]. intros [Hk _]. apply Hkeys in Hk. rewrite Hl in Hk.
    by apply elem_of_nil in Hk.
Qed.

Lemma advance_pending_ext (fuel : nat) (m1 m2 : gmap Z Transaction.t) (p : Z) :
  0 <= p ->
  (forall k, is_Some (m1 !! k) -> k < 2 ^ 64 - 1) ->
  (forall k, p <= k -> m1 !! k = m2 !! k) ->
  Mempool.advance_pending fuel m1 p = Mempool.advance_pending fuel m2 p.
Proof.
  intros Hp Hb. revert p Hp.
  induction fuel as [|fuel IH]; intros p Hp Hext; cbn [Mempool.advance_pending]; [done|].
  rewrite <- (Hext p) by lia.
  destruct (m1 !! p) as [t|] eqn:E; [|done].
  assert (p < 2 ^ 64 - 1) by (apply Hb; by eexists).
  assert (Hadd : add64 p 1 = p + 1).
  { unfold add64, wrap64. apply Z.mod_small. lia. }
  rewrite Hadd. apply IH; [lia|]. intros k Hk. apply Hext. lia.
Qed.

Lemma advance_pending_gap (fuel : nat) :
  forall (m : gmap Z Transaction.t) (p : Z),
    (size m < fuel)%nat -> 0 <= p ->
    (forall k, is_Some (m !! k) -> k < 2 ^ 64 - 1) ->
    let r := Mempool.advance_pending fuel m p in
    p <= r /\ m !! r = None /\ forall k, p <= k < r -> is_Some (m !! k).
Proof.
  induction fuel as [|fuel IH]; intros m p Hsize Hp Hb; [lia|].
  cbn zeta. cbn [Mempool.advance_pending].
  destruct (m !! p) as [t|] eqn:E.
  - assert (p < 2 ^ 64 - 1) by (apply Hb; by eexists).
    assert (Hadd : add64 p 1 = p + 1).
    { unfold add64, wrap64. apply Z.mod_small. lia. }
    rewrite Hadd.
    rewrite (advance_pending_ext fuel m (delete p m) (p + 1)); [|lia|done|].
    2:{ intros k Hk. rewrite lookup_delete_ne; [done|lia]. }
    assert (Hsize' : (size (delete p m) < fuel)%nat).
    { pose proof (map_size_delete_Some p m (mk_is_Some _ _ E)).
      pose proof (map_size_ne_0_lookup_2 m p (mk_is_Some _ _ E)). lia. }
    assert (Hb' : forall k, is_Some (delete p m !! k) -> k < 2 ^ 64 - 1).
    { intros k [x Hk]. apply lookup_delete_Some in Hk as [_ Hk]. apply Hb. by eexists. }
    destruct (IH (delete p m) (p + 1) Hsize' ltac:(lia) Hb') as (Hle & Hnone & Hall).
    split; [lia|]. split.
    + rewrite lookup_delete_ne in Hnone; [done|lia].
    + intros k Hk. destruct (decide (k = p)) as [->|Hne]; [by eexists|].
      specialize (Hall k ltac:(lia)). rewrite lookup_delete_ne in Hall; [done|lia].
  - split; [lia|]. split; [done|]. intros k Hk. lia.
Qed.

(** X23: the pending nonce of a sender moves only when a transaction is
    [Added] while the least nonce the sender then has pooled equals the pending
    nonce; it then moves to the first nonce from there on that the sender has
    not pooled.  In every other case, also when the pending nonce itself has
    just been pooled but a lower nonce is pooled too, it stays where it is.
    The pending nonce of every other sender is left alone. *)
Theorem pending_nonce_rule (tx : Transaction.t) (sender_balance : Z)
  (pool : Mempool.t) :
  let a := Transaction.from tx in
  let res := (Mempool.add_transaction tx sender_balance pool).1 in
  let pool' := (Mempool.add_transaction tx sender_balance pool).2 in
  let old := Mempool.get_pending_nonce a pool in
  let new := Mempool.get_pending_nonce a pool' in
  (forall n, sender_has a n pool' -> 0 <= n < 2 ^ 64 - 1) ->
  (res = Mempool.Added -> lowest_nonce a old pool' ->
   old <= new /\ ~ sender_has a new pool'
   /\ forall n, old <= n < new -> sender_has a n pool')
  /\ (~ (res = Mempool.Added /\ lowest_nonce a old pool') -> new = old)
  /\ (forall b, Address.to_hex b <> Address.to_hex a ->
        Mempool.get_pending_nonce b pool' = Mempool.get_pending_nonce b pool).
Proof.
  cbn zeta. unfold sender_has, lowest_nonce, sender_has, Mempool.get_pending_nonce.
  unfold Mempool.add_transaction. cbn zeta.
  set (key := Address.to_hex (Transaction.from tx)).
  case_bool_decide as Hknown.
  { cbn [fst snd]. intros _. split; [done|]. split; [done|]. done. }
  destruct (_ <? _).
  { cbn [fst snd]. intros _. split; [done|]. split; [done|]. done. }
  destruct (_ >=? _).
  { cbn [fst snd]. intros _. split; [done|]. split; [done|]. done. }
  assert (Hold : match Mempool.by_sender_ pool !! key with
                 | Some s => Mempool.SenderTxs.pending_nonce s
                 | None => 0
                 end
                 = Mempool.SenderTxs.pending_nonce
                     (default Mempool.SenderTxs.default (Mempool.by_sender_ pool !! key))).
  { by destruct (Mempool.by_sender_ pool !! key). }
  rewrite Hold.
  set (s := default Mempool.SenderTxs.default (Mempool.by_sender_ pool !! key)).
  destruct (Mempool.SenderTxs.by_nonce s !! Transaction.nonce tx) as [existing|] eqn:Hslot.
  - destruct (_ <=? _); cbn [fst snd Mempool.by_sender_]; intros _;
      rewrite lookup_insert_eq; cbn [Mempool.SenderTxs.pending_nonce];
      (split; [done|]); (split; [done|]); intros b Hb; by rewrite lookup_insert_ne.
  - cbn [fst snd Mempool.by_sender_]. rewrite lookup_insert_eq.
    cbn [from_option id Mempool.SenderTxs.by_nonce Mempool.SenderTxs.pending_nonce].
    set (m' := <[Transaction.nonce tx := tx]> (Mempool.SenderTxs.by_nonce s)).
    intros Hbound. split; [|split].
    + intros _ Hlow. rewrite bool_decide_eq_true_2 by by apply first_nonce_min.
      destruct Hlow as [Hin _].
      destruct (advance_pending_gap (S (size m')) m'
                  (Mempool.SenderTxs.pending_nonce s)) as (Hle & Hnone & Hall).
      * lia.
      * by destruct (Hbound _ Hin).
      * intros k Hk. by destruct (Hbound _ Hk).
      * split; [done|]. split; [|done]. rewrite Hnone. by intros [? ?].
    + intros Hnot. rewrite bool_decide_eq_false_2; [done|].
      intros Hfirst. apply Hnot. split; [done|]. by apply first_nonce_min.
    + intros b Hb. by rewrite lookup_insert_ne.
Qed.

End PendingNonce.

Section SelectionOrder.
Context `{Crypto}.

Lemma pq_push_elem_of (x e : Mempool.TxPriority.t) (q : list Mempool.TxPriority.t) :
  e ∈ Mempool.pq_push x q <-> e = x \/ e ∈ q.
Proof.
  induction q as [|y q IH]; cbn [Mempool.pq_push].
  - rewrite list_elem_of_singleton, elem_of_nil. tauto.
  - destruct (_ <? _).
    + by rewrite elem_of_cons.
    + rewrite !elem_of_cons, IH. tauto.
Qed.

Lemma pq_push_sorted (x : Mempool.TxPriority.t) (q : list Mempool.TxPriority.t) :
  StronglySorted queue_ge q -> StronglySorted queue_ge (Mempool.pq_push x q).
Proof.
  induction q as [|y q IH]; intros Hs; cbn [Mempool.pq_push].
  - repeat constructor.
  - apply StronglySorted_inv in Hs as [Hs Hall].
    destruct (Z.ltb_spec (Mempool.TxPriority.effective_price y)
                (Mempool.TxPriority.effective_price x)) as [Hlt|Hge].
    + constructor; [by constructor|]. constructor; [unfold queue_ge; lia|].
      eapply Forall_impl; [exact Hall|]. unfold queue_ge. cbn. intros; lia.
    + constructor; [by apply IH|]. apply Forall_forall. intros e He.
      apply pq_push_elem_of in He as [->|He]; [done|].
      rewrite Forall_forall in Hall. by apply Hall.
Qed.

Lemma rebuild_sorted_faithful (base_fee : Z) (pool : Mempool.t) :
  StronglySorted queue_ge (Mempool.rebuild_priority_queue base_fee pool)
  /\ Forall (queue_faithful (Mempool.by_hash_ pool) base_fee)
            (Mempool.rebuild_priority_queue base_fee pool).
Proof.
  unfold Mempool.rebuild_priority_queue.
  assert (Hl : forall (l : list (list Z * Transaction.t)) q,
            (forall kv, kv ∈ l -> Mempool.by_hash_ pool !! kv.1 = Some kv.2) ->
            StronglySorted queue_ge q ->
            Forall (queue_faithful (Mempool.by_hash_ pool) base_fee) q ->
            let q' := foldl (fun q kv =>
                         Mempool.pq_push
                           (Mempool.TxPriority.mk kv.1
                              (Transaction.effective_gas_price kv.2 base_fee)) q) q l in
            StronglySorted queue_ge q'
            /\ Forall (queue_faithful (Mempool.by_hash_ pool) base_fee) q').
  { induction l as [|kv l IH]; intros q Hin Hs Hf; cbn [foldl]; [done|].
    apply IH.
    - intros kv' Hkv'. apply Hin. by apply list_elem_of_further.
    - by apply pq_push_sorted.
    - apply Forall_forall. intros e He. apply pq_push_elem_of in He as [->|He].
      + intros tx Htx. cbn in *. rewrite (Hin kv) in Htx by apply list_elem_of_here.
        by injection Htx as ->.
      + rewrite Forall_forall in Hf. by apply Hf. }
  apply Hl; [|constructor|constructor].
  intros [k v] Hkv. by apply elem_of_map_to_list.
Qed.

Lemma select_loop_sorted (by_hash : gmap (list Z) Transaction.t)
  (gas_limit base_fee : Z) (queue : list Mempool.TxPriority.t) :
  forall result selected gas_used,
    StronglySorted queue_ge queue ->
    Forall (queue_faithful by_hash base_fee) queue ->
    StronglySorted (price_ge base_fee) result ->
    (forall r e, r ∈ result -> e ∈ queue ->
       Mempool.TxPriority.effective_price e
       <= Transaction.effective_gas_price r base_fee) ->
    StronglySorted (price_ge base_fee)
      (Mempool.select_loop queue by_hash gas_limit base_fee result selected gas_used).1.
Proof.
  induction queue as [|top queue IH]; intros result selected gas_used Hs Hf Hres Hbound;
    cbn [Mempool.select_loop]; [done|].
  destruct (gas_used <? gas_limit); [|done].
  apply StronglySorted_inv in Hs as [Hs Htop]. apply Forall_cons in Hf as [Hftop Hf].
  assert (Hbound' : forall r e, r ∈ result -> e ∈ queue ->
            Mempool.TxPriority.effective_price e
            <= Transaction.effective_gas_price r base_fee).
  { intros r e Hr He. apply Hbound; [done|]. by apply list_elem_of_further. }
  destruct (by_hash !! Mempool.TxPriority.hash top) as [tx|] eqn:Htx; [|by apply IH].
  case_bool_decide; [by apply IH|].
  destruct (_ >? _); [by apply IH|].
  destruct (_ <? _); [by apply IH|].
  specialize (Hftop tx Htx).
  apply IH; [done|done| |].
  - apply StronglySorted_app_2; [|done|repeat constructor].
    intros r t Hr Ht. apply list_elem_of_singleton in Ht as ->.
    unfold price_ge. rewrite <- Hftop. apply Hbound; [done|apply list_elem_of_here].
  - intros r e Hr He. apply elem_of_app in Hr as [Hr|Hr]; [by apply Hbound'|].
    apply list_elem_of_singleton in Hr as ->. rewrite <- Hftop.
    rewrite Forall_forall in Htop. by apply Htop.
Qed.

Lemma select_loop_NoDup (by_hash : gmap (list Z) Transaction.t)
  (gas_limit base_fee : Z) (queue : list Mempool.TxPriority.t) :
  (forall h tx, by_hash !! h = Some tx -> h = Transaction.hash tx) ->
  forall result (selected : gset (list Z)) gas_used,
    NoDup result ->
    (forall r, r ∈ result -> Transaction.hash r ∈ selected) ->
    NoDup (Mempool.select_loop queue by_hash gas_limit base_fee result selected gas_used).1.
Proof.
  intros Hhash.
  induction queue as [|top queue IH]; intros result selected gas_used Hnd Hsel;
    cbn [Mempool.select_loop]; [done|].
  destruct (gas_used <? gas_limit); [|done].
  destruct (by_hash !! Mempool.TxPriority.hash top) as [tx|] eqn:Htx; [|by apply IH].
  case_bool_decide as Hnew; [by apply IH|].
  destruct (_ >? _); [by apply IH|].
  destruct (_ <? _); [by apply IH|].
  pose proof (Hhash _ _ Htx) as Eh.
  apply IH.
  - apply NoDup_app. split; [done|]. split; [|apply NoDup_singleton].
    intros r Hr Hr'. apply list_elem_of_singleton in Hr' as ->.
    apply Hnew. rewrite Eh. by apply Hsel.
  - intros r Hr. apply elem_of_app in Hr as [Hr|Hr].
    + apply elem_of_union_r. by apply Hsel.
    + apply list_elem_of_singleton in Hr as ->. apply elem_of_union_l.
      rewrite Eh. by apply elem_of_singleton.
Qed.

(** X24: [get_block_transactions] returns the selected transactions in the
    order of their effective price at the given base fee, highest first, and
    selects no transaction twice.  It takes nothing out of the pool: both
    indexes are as before, and asking again gives the same selection. *)
Theorem get_block_transactions_by_price (gas_limit base_fee : Z) (pool : Mempool.t) :
  let selected := (Mempool.get_block_transactions gas_limit base_fee pool).1 in
  let pool' := (Mempool.get_block_transactions gas_limit base_fee pool).2 in
  StronglySorted (price_ge base_fee) selected
  /\ (pool_consistent pool -> NoDup selected)
  /\ Mempool.by_hash_ pool' = Mempool.by_hash_ pool
  /\ Mempool.by_sender_ pool' = Mempool.by_sender_ pool
  /\ (Mempool.get_block_transactions gas_limit base_fee pool').1 = selected.
Proof.
  cbn zeta.
  destruct (get_block_transactions_indexes gas_limit base_fee pool) as (Hh & Hs & Hm).
  rewrite !get_block_transactions_result.
  destruct (rebuild_sorted_faithful base_fee pool) as [Hsorted Hfaithful].
  split; [|split; [|split; [done|split; [done|]]]].
  - apply select_loop_sorted; [done|done|constructor|].
    intros r e Hr. by apply elem_of_nil in Hr.
  - intros [Hc _]. apply select_loop_NoDup; [|constructor|].
    + intros h tx Htx. by destruct (Hc h tx Htx).
    + intros r Hr. by apply elem_of_nil in Hr.
  - unfold Mempool.rebuild_priority_queue. by rewrite Hh.
Qed.

End SelectionOrder.

Section PoolStats.

Lemma stats_fold (l : list (list Z * Transaction.t)) :
  forall mn mx,
    let r := foldl (fun (stats : Z * Z) (kv : list Z * Transaction.t) =>
                      let fee := Transaction.max_fee_per_gas kv.2 in
                      (if fee <? stats.1 then fee else stats.1,
                       if fee >? stats.2 then fee else stats.2))
                   (mn, mx) l in
    r.1 <= mn /\ mx <= r.2
    /\ Forall (fun kv => r.1 <= Transaction.max_fee_per_gas kv.2 <= r.2) l
    /\ (r.1 = mn \/ exists kv, kv ∈ l /\ Transaction.max_fee_per_gas kv.2 = r.1)
    /\ (r.2 = mx \/ exists kv, kv ∈ l /\ Transaction.max_fee_per_gas kv.2 = r.2).
Proof.
  induction l as [|kv l IH]; intros mn mx; cbn [foldl]; cbn beta zeta; cbn [fst snd].
  - repeat split; [lia|lia|constructor|by left|by left].
  - set (mn' := if Transaction.max_fee_per_gas kv.2 <? mn
                then Transaction.max_fee_per_gas kv.2 else mn).
    set (mx' := if Transaction.max_fee_per_gas kv.2 >? mx
                then Transaction.max_fee_per_gas kv.2 else mx).
    pose proof (IH mn' mx') as IH'. cbn beta zeta in IH'.
    destruct IH' as (Hmn & Hmx & Hall & Hmin & Hmax).
    assert (Hmn' : mn' <= mn /\ mn' <= Transaction.max_fee_per_gas kv.2
                   /\ (mn' = mn \/ mn' = Transaction.max_fee_per_gas kv.2)).
    { unfold mn'. destruct (Z.ltb_spec (Transaction.max_fee_per_gas kv.2) mn); lia. }
    assert (Hmx' : mx <= mx' /\ Transaction.max_fee_per_gas kv.2 <= mx'
                   /\ (mx' = mx \/ mx' = Transaction.max_fee_per_gas kv.2)).
    { unfold mx'. destruct (Z.gtb_spec (Transaction.max_fee_per_gas kv.2) mx); lia. }
    split; [lia|]. split; [lia|]. split; [constructor; [lia|done]|]. split.
    + destruct Hmin as [Hmin|(kv' & Hin & Hfee)].
      * destruct Hmn' as (_ & _ & [E|E]); [left; lia|].
        right. exists kv. split; [apply list_elem_of_here|lia].
      * right. exists kv'. split; [by apply list_elem_of_further|done].
    + destruct Hmax as [Hmax|(kv' & Hin & Hfee)].
      * destruct Hmx' as (_ & _ & [E|E]); [left; lia|].
        right. exists kv. split; [apply list_elem_of_here|lia].
      * right. exists kv'. split; [by apply list_elem_of_further|done].
Qed.

(** X25: [get_stats] counts every pooled transaction as pending and none as
    queued, and brackets the fee caps of the pool: every pooled fee cap lies
    between the reported minimum and maximum, and the maximum is the fee cap
    of a pooled transaction.  So is the minimum, unless every pooled fee cap
    is [UINT64_MAX], which is reported as a minimum of 0, the same as for an
    empty pool. *)
Theorem get_stats_bounds (pool : Mempool.t) :
  map_Forall (fun _ tx => is_u64 (Transaction.max_fee_per_gas tx))
             (Mempool.by_hash_ pool) ->
  let stats := Mempool.get_stats pool in
  Mempool.Stats.pending_count stats = Mempool.size_ pool
  /\ Mempool.Stats.queued_count stats = 0%nat
  /\ (forall h tx, Mempool.get_transaction h pool = Some tx ->
        Mempool.Stats.min_gas_price stats <= Transaction.max_fee_per_gas tx
        <= Mempool.Stats.max_gas_price stats)
  /\ (Mempool.size_ pool = 0%nat ->
      Mempool.Stats.min_gas_price stats = 0 /\ Mempool.Stats.max_gas_price stats = 0)
  /\ (Mempool.size_ pool <> 0%nat ->
      (exists h tx, Mempool.get_transaction h pool = Some tx
                    /\ Transaction.max_fee_per_gas tx = Mempool.Stats.max_gas_price stats)
      /\ ((exists h tx, Mempool.get_transaction h pool = Some tx
                        /\ Transaction.max_fee_per_gas tx
                           = Mempool.Stats.min_gas_price stats)
          \/ (Mempool.Stats.min_gas_price stats = 0
              /\ forall h tx, Mempool.get_transaction h pool = Some tx ->
                   Transaction.max_fee_per_gas tx = 2 ^ 64 - 1))).
Proof.
  intros Hu64. cbn zeta. unfold Mempool.get_stats, Mempool.get_transaction, Mempool.size_.
  pose proof (stats_fold (map_to_list (Mempool.by_hash_ pool)) (2 ^ 64 - 1) 0) as Hf.
  cbn beta zeta in Hf |- *. destruct (foldl _ _ _) as [mn mx]. cbn [fst snd] in Hf.
  destruct Hf as (Hmn & Hmx & Hall & Hmin & Hmax).
  cbn [Mempool.Stats.pending_count Mempool.Stats.queued_count
       Mempool.Stats.min_gas_price Mempool.Stats.max_gas_price].
  rewrite Forall_forall in Hall.
  assert (Hin : forall h tx, Mempool.by_hash_ pool !! h = Some tx ->
            mn <= Transaction.max_fee_per_gas tx <= mx
            /\ 0 <= Transaction.max_fee_per_gas tx < 2 ^ 64).
  { intros h tx Htx. split; [|exact (Hu64 h tx Htx)].
    apply (Hall (h, tx)). by apply elem_of_map_to_list. }
  split; [done|]. split; [done|]. split; [|split].
  - intros h tx Htx. destruct (Hin h tx Htx) as [Hb Hu].
    destruct (Z.eqb_spec mn (2 ^ 64 - 1)); lia.
  - intros Hempty. apply map_size_empty_inv in Hempty.
    assert (Hnil : map_to_list (Mempool.by_hash_ pool) = []).
    { rewrite Hempty. apply map_to_list_empty. }
    rewrite Hnil in Hmin, Hmax.
    destruct Hmin as [->|(kv & Hkv & _)]; [|by apply elem_of_nil in Hkv].
    destruct Hmax as [->|(kv & Hkv & _)]; [|by apply elem_of_nil in Hkv].
    done.
  - intros Hne. split.
    + destruct Hmax as [->|([h tx] & Hkv & Hfee)].
      * apply map_size_ne_0_lookup_1 in Hne as (h & tx & Htx).
        exists h, tx. split; [done|]. destruct (Hin h tx Htx). lia.
      * exists h, tx. split; [by apply elem_of_map_to_list|done].
    + destruct (Z.eqb_spec mn (2 ^ 64 - 1)) as [->|Hmn'].
      * right. split; [done|]. intros h tx Htx. destruct (Hin h tx Htx). lia.
      * left. destruct Hmin as [?|([h tx] & Hkv & Hfee)]; [done|].
        exists h, tx. split; [by apply elem_of_map_to_list|done].
Qed.

End PoolStats.

Lemma get_stats_bounds_witness :
  Mempool.Stats.max_gas_price (Mempool.get_stats PoolScenario.pool02) = 1000000000
  /\ Mempool.Stats.min_gas_price (Mempool.get_stats PoolScenario.pool02) = 1000000000.
Proof.
  destruct (get_stats_bounds PoolScenario.pool02) as (_ & _ & Hall & _).
  { apply (bool_decide_unpack _). by_evaluation. }
  destruct (Hall (Transaction.hash (PoolScenario.tx 0 1000000000))
                 (PoolScenario.tx 0 1000000000)) as [Hlo Hhi]; [by_evaluation|].
  split; by_evaluation.
Defined.

(** *** The mempool's bookkeeping on concrete inputs *)

Lemma add_transaction_capacity_witness :
  Mempool.size_ PoolScenario.pool02 = S (Mempool.size_ PoolScenario.pool0).
Proof.
  destruct (add_transaction_capacity (PoolScenario.tx 2 1000000000)
              PoolScenario.balance PoolScenario.pool0) as (Hsize & _).
  { apply add_transaction_consistent, create_consistent. }
  unfold PoolScenario.pool02. rewrite Hsize.
  rewrite bool_decide_eq_true_2; [reflexivity|by_evaluation].
Defined.

Lemma remove_transaction_spec_witness :
  Mempool.get_pending_nonce Scenario.A
    (Mempool.remove_transaction
       (Transaction.hash (PoolScenario.tx 0 1000000000)) PoolScenario.pool02).2
  = Mempool.get_pending_nonce Scenario.A PoolScenario.pool02.
Proof.
  destruct (remove_transaction_spec
              (Transaction.hash (PoolScenario.tx 0 1000000000)) PoolScenario.pool02)
    as (_ & Hfound & _).
  { apply add_transaction_consistent, add_transaction_consistent, create_consistent. }
  destruct (Hfound (PoolScenario.tx 0 1000000000)) as (_ & _ & _ & _ & _ & _ & Hkeep & _);
    [by_evaluation|].
  apply Hkeep. exists (PoolScenario.tx 2 1000000000).
  split; [by_evaluation|]. split; by_evaluation.
Defined.

Lemma get_pending_for_sorted_witness :
  StronglySorted (fun x y => Transaction.nonce x < Transaction.nonce y)
    (Mempool.get_pending_for Scenario.A PoolScenario.pool02).
Proof.
  destruct (get_pending_for_sorted Scenario.A PoolScenario.pool02) as [Hsorted _].
  { apply add_transaction_consistent, add_transaction_consistent, create_consistent. }
  exact Hsorted.
Defined.

Lemma pending_nonce_rule_witness :
  Mempool.get_pending_nonce Scenario.A
    (Mempool.add_transaction (PoolScenario.tx 1 1000000000) PoolScenario.balance
       PoolScenario.pool0).2
  = Mempool.get_pending_nonce Scenario.A PoolScenario.pool0.
Proof.
  destruct (pending_nonce_rule (PoolScenario.tx 1 1000000000) PoolScenario.balance
              PoolScenario.pool0) as (_ & Hstay & _).
  { intros n [t Hn].
    assert (Hall : map_Forall (fun k _ => 0 <= k < 2 ^ 64 - 1)
              (Mempool.SenderTxs.by_nonce
                 (default Mempool.SenderTxs.default
                    (Mempool.by_sender_
                       (Mempool.add_transaction (PoolScenario.tx 1 1000000000)
                          PoolScenario.balance PoolScenario.pool0).2
                     !! Address.to_hex (Transaction.from (PoolScenario.tx 1 1000000000)))))).
    { apply (bool_decide_unpack _). by_evaluation. }
    exact (Hall n t Hn). }
  apply Hstay. intros [_ [_ Hmin]].
  assert (Hlow : sender_has (Transaction.from (PoolScenario.tx 1 1000000000)) 0
            (Mempool.add_transaction (PoolScenario.tx 1 1000000000)
               PoolScenario.balance PoolScenario.pool0).2).
  { apply (bool_decide_unpack _). by_evaluation. }
  specialize (Hmin 0 Hlow). revert Hmin. by_evaluation.
Defined.

(** ** The base fee (execution.cpp) *)

Section BaseFee.

(** X26: the base fee follows the parent's gas use.  At the target, half the
    parent gas limit, it is unchanged.  Above the target it grows by
    [base * (used - target) / target / 8], and by at least 1; that is at most
    an eighth of the base fee, or 1, while the gas used is within twice the
    target.  Below the target it shrinks by the same fraction, never by more
    than an eighth, and a positive base fee stays positive.  With a parent gas
    limit below 2 the target is 0 and any gas use divides by zero. *)
Theorem base_fee_rule (parent : BlockHeader.t) (parent_gas_used : Z) :
  is_u64 (BlockHeader.base_fee parent) ->
  is_u64 (BlockHeader.gas_limit parent) ->
  is_u64 parent_gas_used ->
  let base := BlockHeader.base_fee parent in
  let target := BlockHeader.gas_limit parent / 2 in
  let next := BlockProcessor.calculate_base_fee parent parent_gas_used in
  (parent_gas_used = target -> next = Some base)
  /\ (target < parent_gas_used -> target = 0 -> next = None)
  /\ (target < parent_gas_used -> 0 < target ->
      base * (parent_gas_used - target) < 2 ^ 64 ->
      let rise := Z.max (base * (parent_gas_used - target) / target / 8) 1 in
      base + rise < 2 ^ 64 ->
      next = Some (base + rise)
      /\ (parent_gas_used <= 2 * target -> rise <= Z.max (base / 8) 1))
  /\ (parent_gas_used < target ->
      base * (target - parent_gas_used) < 2 ^ 64 ->
      let fall := base * (target - parent_gas_used) / target / 8 in
      next = Some (base - fall)
      /\ 0 <= fall <= base / 8
      /\ (0 < base -> 0 < base - fall)).
Proof.
  intros Hb Hl Hu. cbn zeta.
  unfold BlockProcessor.calculate_base_fee, BlockProcessor.ELASTICITY_MULTIPLIER,
    BlockProcessor.BASE_FEE_CHANGE_DENOMINATOR. cbn zeta.
  set (base := BlockHeader.base_fee parent) in *.
  set (target := BlockHeader.gas_limit parent / 2).
  unfold is_u64 in *.
  assert (Ht : 0 <= target < 2 ^ 64).
  { unfold target. split; [apply Z.div_pos; lia|].
    apply Z.div_lt_upper_bound; lia. }
  split; [|split; [|split]].
  - intros ->. by rewrite Z.eqb_refl.
  - intros Hgt H0.
    destruct (Z.eqb_spec parent_gas_used target); [lia|].
    destruct (Z.gtb_spec parent_gas_used target); [|lia].
    rewrite H0. reflexivity.
  - intros Hgt Hpos Hmul Hadd.
    destruct (Z.eqb_spec parent_gas_used target); [lia|].
    destruct (Z.gtb_spec parent_gas_used target); [|lia].
    destruct (Z.eqb_spec target 0); [lia|].
    assert (Hsub : sub64 parent_gas_used target = parent_gas_used - target).
    { unfold sub64, wrap64. apply Z.mod_small. lia. }
    rewrite Hsub.
    assert (Hm : mul64 base (parent_gas_used - target) = base * (parent_gas_used - target)).
    { unfold mul64, wrap64. apply Z.mod_small. split; [nia|lia]. }
    rewrite Hm.
    assert (Hd : 0 <= base * (parent_gas_used - target) / target / 8).
    { apply Z.div_pos; [|lia]. apply Z.div_pos; [nia|lia]. }
    split.
    + f_equal. unfold add64, wrap64. apply Z.mod_small. lia.
    + intros Htwice.
      assert (base * (parent_gas_used - target) / target / 8 <= base / 8).
      { apply Z.div_le_mono; [lia|]. apply Z.div_le_upper_bound; [lia|]. nia. }
      lia.
  - intros Hlt Hmul.
    destruct (Z.eqb_spec parent_gas_used target); [lia|].
    destruct (Z.gtb_spec parent_gas_used target); [lia|].
    assert (Hsub : sub64 target parent_gas_used = target - parent_gas_used).
    { unfold sub64, wrap64. apply Z.mod_small. lia. }
    rewrite Hsub.
    assert (Hm : mul64 base (target - parent_gas_used) = base * (target - parent_gas_used)).
    { unfold mul64, wrap64. apply Z.mod_small. split; [nia|lia]. }
    rewrite Hm.
    assert (Hd : 0 <= base * (target - parent_gas_used) / target / 8).
    { apply Z.div_pos; [|lia]. apply Z.div_pos; [nia|lia]. }
    assert (Hd8 : base * (target - parent_gas_used) / target / 8 <= base / 8).
    { apply Z.div_le_mono; [lia|]. apply Z.div_le_upper_bound; [lia|]. nia. }
    assert (H8 : base / 8 <= base /\ (0 < base -> base / 8 < base)).
    { split; [apply Z.div_le_upper_bound; lia|].
      intros ?. apply Z.div_lt_upper_bound; lia. }
    split; [|split; [lia|lia]].
    destruct (Z.geb_spec (base * (target - parent_gas_used) / target / 8) base)
      as [Hge|Hlt'].
    + f_equal. lia.
    + f_equal. unfold sub64, wrap64. apply Z.mod_small. lia.
Qed.

End BaseFee.

Lemma base_fee_rule_witness :
  BlockProcessor.calculate_base_fee FeeScenario.parent 30000000 = Some 1125000000
  /\ BlockProcessor.calculate_base_fee FeeScenario.parent 0 = Some 875000000.
Proof.
  destruct (base_fee_rule FeeScenario.parent 30000000) as (_ & _ & Hup & _);
    [split; by_evaluation..|].
  destruct (base_fee_rule FeeScenario.parent 0) as (_ & _ & _ & Hdown);
    [split; by_evaluation..|].
  destruct Hup as [Hup _]; [by_evaluation..|].
  destruct Hdown as [Hdown _]; [by_evaluation..|].
  split; [exact Hup|exact Hdown].
Defined.


(** ** Simulation (execution.cpp) *)

Section Simulation.
Context `{Crypto}.











End Simulation.


(** ** Merkle proofs (crypto.cpp) *)

Section MerkleProofs.
Context `{Crypto}.
Import Blake2b256.

Lemma length_next_level (current : list Hash256) :
  length (next_level current) = (length current / 2)%nat.
Proof.
  assert (Hn : forall n l, (length l < n)%nat ->
            length (next_level l) = (length l / 2)%nat).
  { clear current. induction n as [|n IH]; intros l Hl; [lia|].
    destruct l as [|a [|b rest]]; [reflexivity..|].
    cbn [next_level length]. rewrite IH by (cbn in Hl; lia).
    change (S (S (length rest))) with (2 + length rest)%nat.
    replace (2 + length rest)%nat with (length rest + 1 * 2)%nat by lia.
    rewrite Nat.div_add by lia. lia. }
  apply (Hn (S (length current))). lia.
Qed.

Lemma next_level_lookup (current : list Hash256) (k : nat) (a b : Hash256) :
  current !! (2 * k)%nat = Some a -> current !! (2 * k + 1)%nat = Some b ->
  next_level current !! k = Some (combine_hashes a b).
Proof.
  revert current. induction k as [|k IH]; intros current Ha Hb.
  - destruct current as [|a' [|b' rest]]; cbn in *; simplify_eq. reflexivity.
  - destruct current as [|a' [|b' rest]]; [done|done|].
    replace (2 * S k)%nat with (S (S (2 * k))) in Ha by lia.
    replace (2 * S k + 1)%nat with (S (S (2 * k + 1))) in Hb by lia.
    cbn [next_level]. cbn in Ha, Hb. rewrite lookup_cons. by apply IH.
Qed.

Lemma length_push_back_last (current : list Hash256) :
  current <> [] -> length (push_back_last current) = S (length current).
Proof.
  intros Hne. unfold push_back_last.
  destruct (last current) eqn:E.
  - rewrite length_app. cbn. lia.
  - by apply last_None in E.
Qed.

Lemma push_back_last_lookup (current : list Hash256) (i : nat) (h : Hash256) :
  current !! i = Some h -> push_back_last current !! i = Some h.
Proof.
  intros Hi. unfold push_back_last. destruct (last current); [|done].
  by apply lookup_app_l_Some.
Qed.

Lemma pad_level_lookup (current : list Hash256) (i : nat) (h : Hash256) :
  current !! i = Some h -> pad_level current !! i = Some h.
Proof.
  intros Hi. unfold pad_level. destruct (_ && _); [|done].
  by apply push_back_last_lookup.
Qed.

Lemma pad_level_ok (current : list Hash256) :
  (1 <= length current)%nat ->
  level_ok (pad_level current)
  /\ (length (pad_level current) <= S (length current))%nat
  /\ (length current = 1%nat -> length (pad_level current) = 1%nat).
Proof.
  intros Hlen. unfold pad_level, level_ok.
  destruct (Nat.ltb_spec 1 (length current)) as [Hgt|Hle]; cbn [andb].
  - destruct (Nat.odd (length current)) eqn:Hodd.
    + rewrite length_push_back_last by (intros ->; cbn in Hlen; lia).
      split; [|lia]. right. split; [lia|].
      rewrite Nat.even_succ. exact Hodd.
    + split; [|lia]. right. split; [lia|].
      rewrite <- Nat.negb_odd. by rewrite Hodd.
  - split; [left; lia|]. lia.
Qed.

Lemma proof_loop_acc (fuel : nat) :
  forall current idx proof,
    proof_loop fuel current idx proof = proof ++ proof_loop fuel current idx [].
Proof.
  induction fuel as [|fuel IH]; intros current idx proof; cbn [proof_loop].
  - by rewrite app_nil_r.
  - destruct (1 <? length current)%nat; [|by rewrite app_nil_r].
    cbn zeta. destruct (current !! _) as [sibling|].
    + rewrite (IH _ _ (proof ++ [sibling])), (IH _ _ ([] ++ [sibling])).
      by rewrite <- app_assoc.
    + apply IH.
Qed.

Lemma loops_agree (fuel : nat) :
  forall current idx leaf,
    level_ok current -> (length current <= fuel)%nat ->
    current !! idx = Some leaf ->
    exists root,
      root_loop fuel current = [root]
      /\ (foldl verify_step (leaf, idx) (proof_loop fuel current idx [])).1 = root.
Proof.
  induction fuel as [|fuel IH]; intros current idx leaf Hok Hfuel Hidx.
  { destruct Hok as [?|[? _]]; lia. }
  cbn [root_loop proof_loop].
  destruct Hok as [Hone|[Htwo Heven]].
  - destruct current as [|root [|]]; cbn in Hone; try lia.
    cbn. exists root. split; [done|].
    destruct idx; cbn in Hidx; [by injection Hidx as ->|done].
  - destruct (Nat.ltb_spec 1 (length current)) as [_|]; [|lia].
    cbn zeta.
    assert (Hlt : (idx < length current)%nat) by (by eapply lookup_lt_Some).
    apply Nat.even_spec in Heven as [n Hn].
    set (k := (idx / 2)%nat).
    assert (Hk : (k < n)%nat).
    { unfold k. apply Nat.Div0.div_lt_upper_bound. lia. }
    assert (Hnext : length (next_level current) = n).
    { rewrite length_next_level, Hn. replace (2 * n)%nat with (n * 2)%nat by lia.
      apply Nat.div_mul. lia. }
    assert (Hpair : exists a b,
               current !! (2 * k)%nat = Some a /\ current !! (2 * k + 1)%nat = Some b
               /\ (if Nat.even idx then (idx + 1)%nat else (idx - 1)%nat)
                  = (if Nat.even idx then (2 * k + 1)%nat else (2 * k)%nat)
               /\ idx = (if Nat.even idx then (2 * k)%nat else (2 * k + 1)%nat)).
    { destruct (lookup_lt_is_Some_2 current (2 * k)%nat) as [a Ha]; [lia|].
      destruct (lookup_lt_is_Some_2 current (2 * k + 1)%nat) as [b Hb]; [lia|].
      exists a, b. split; [done|]. split; [done|].
      pose proof (Nat.div_mod_eq idx 2) as Hdm. fold k in Hdm.
      destruct (Nat.even idx) eqn:He.
      - apply Nat.even_spec in He as [m Hm].
        assert (idx mod 2 = 0)%nat.
        { rewrite Hm. replace (2 * m)%nat with (m * 2)%nat by lia.
          apply Nat.Div0.mod_mul. }
        lia.
      - assert (Ho : Nat.odd idx = true) by (by rewrite <- Nat.negb_even, He).
        apply Nat.odd_spec in Ho as [m Hm].
        assert (idx mod 2 = 1)%nat.
        { rewrite Hm. replace (2 * m + 1)%nat with (1 + m * 2)%nat by lia.
          rewrite Nat.Div0.mod_add. reflexivity. }
        lia. }
    destruct Hpair as (a & b & Ha & Hb & Hsib & Hself).
    rewrite Hsib.
    assert (Hparent : pad_level (next_level current) !! k = Some (combine_hashes a b)).
    { apply pad_level_lookup. by apply next_level_lookup. }
    destruct (pad_level_ok (next_level current)) as (Hok' & Hlen' & Hone'); [lia|].
    assert (Hfuel' : (length (pad_level (next_level current)) <= fuel)%nat).
    { destruct (decide (n = 1%nat)) as [->|]; [rewrite Hone' by done; lia|lia]. }
    destruct (IH _ k _ Hok' Hfuel' Hparent) as (root & Hroot & Hverify).
    exists root. split; [done|].
    destruct (Nat.even idx) eqn:He.
    + rewrite Hb, proof_loop_acc. cbn [app foldl verify_step].
      rewrite He. fold k.
      rewrite Hself in Hidx. rewrite Ha in Hidx. injection Hidx as <-.
      exact Hverify.
    + rewrite Ha, proof_loop_acc. cbn [app foldl verify_step].
      rewrite He. fold k.
      rewrite Hself in Hidx. rewrite Hb in Hidx. injection Hidx as <-.
      exact Hverify.
Qed.

(** X28: the proof [merkle_proof] gives for a leaf of a tree with at least
    two leaves is accepted by [verify_merkle_proof] against [merkle_root].
    For a tree of one leaf it is not: the root is the leaf itself, the proof
    is the leaf once more, and the check compares the hash of the two with the
    leaf.  [merkle_proof] is empty for an index outside the leaves, and the
    root of no leaves is the zero hash. *)
Theorem merkle_proof_verifies (leaves : list Hash256) (index : nat) (leaf : Hash256) :
  leaves !! index = Some leaf ->
  ((2 <= length leaves)%nat ->
   verify_merkle_proof leaf (merkle_proof leaves index) index (merkle_root leaves)
   = true)
  /\ (length leaves = 1%nat ->
      merkle_root leaves = leaf /\ merkle_proof leaves index = [leaf]
      /\ verify_merkle_proof leaf (merkle_proof leaves index) index (merkle_root leaves)
         = bool_decide (combine_hashes leaf leaf = leaf))
  /\ (forall i, (length leaves <= i)%nat -> merkle_proof leaves i = [])
  /\ merkle_root [] = zero_bytes 32.
Proof.
  intros Hidx. split; [|split; [|split; [|done]]].
  - intros Hlen. unfold verify_merkle_proof, merkle_proof, merkle_root.
    assert (Hlt : (index < length leaves)%nat) by (by eapply lookup_lt_Some).
    rewrite (bool_decide_eq_false_2 (leaves = [])) by (intros ->; cbn in Hlen; lia).
    destruct (Nat.leb_spec (length leaves) index) as [|_]; [lia|]. cbn [orb].
    destruct leaves as [|l1 [|l2 rest]]; [cbn in Hlen; lia..|].
    set (leaves := l1 :: l2 :: rest) in *. cbn zeta.
    set (current := if Nat.odd (length leaves) then push_back_last leaves else leaves).
    assert (Hcur : level_ok current /\ current !! index = Some leaf).
    { unfold current. destruct (Nat.odd (length leaves)) eqn:Hodd.
      - split; [|by apply push_back_last_lookup].
        right. rewrite length_push_back_last by done. split; [lia|].
        by rewrite Nat.even_succ.
      - split; [|done]. right. split; [done|].
        by rewrite <- Nat.negb_odd, Hodd. }
    destruct Hcur as [Hok Hin].
    destruct (loops_agree (length current) current index leaf Hok (le_n _) Hin)
      as (root & Hroot & Hverify).
    rewrite Hroot. cbn [head default from_option id]. by apply bool_decide_eq_true_2.
  - intros Hlen. destruct leaves as [|l [|]]; cbn in Hlen; try lia.
    destruct index; cbn in Hidx; [|done]. injection Hidx as ->.
    split; [done|]. split; [by vm_compute|].
    unfold verify_merkle_proof. by vm_compute.
  - intros i Hi. unfold merkle_proof.
    destruct (Nat.leb_spec (length leaves) i) as [_|]; [|lia].
    by rewrite orb_true_r.
Qed.

End MerkleProofs.


(** ** The validity prover (execution.cpp) *)

Section Prover.
Context `{Crypto}.

(** X29: [verify_proof] accepts every proof [generate_proof] returns, for
    any list of blocks and receipts and any two state roots: the check
    recomputes the commitment and the proof hash from the proof's own fields
    and compares the first element of the state proof with the claimed
    pre-state root, so nothing ties the post-state root to the blocks.  A
    prover with another verification key rejects the proof. *)
Theorem generated_proof_verifies (z : ZKProver.t) (blocks : list Block.t)
  (pre_state_root post_state_root : Hash256)
  (receipts : list TransactionReceipt.t) :
  blocks <> [] ->
  exists proof,
    ZKProver.generate_proof z blocks pre_state_root post_state_root receipts
    = Some proof
    /\ ZKProver.verify_proof z proof = true
    /\ ValidityProof.pre_state_root proof = pre_state_root
    /\ ValidityProof.post_state_root proof = post_state_root
    /\ ValidityProof.execution_trace proof = TransactionReceipt.hash <$> receipts
    /\ (forall z', ZKProver.verification_key_ z' <> ZKProver.verification_key_ z ->
          ZKProver.verify_proof z' proof = false).
Proof.
  intros Hne. unfold ZKProver.generate_proof.
  destruct blocks as [|front rest]; [done|].
  destruct (last (front :: rest)) as [back|] eqn:Hlast;
    [|by apply last_None in Hlast].
  cbn zeta. eexists. split; [reflexivity|].
  cbn [ValidityProof.batch_id ValidityProof.start_block ValidityProof.end_block
       ValidityProof.pre_state_root ValidityProof.post_state_root
       ValidityProof.execution_trace].
  split; [|split; [done|split; [done|split; [done|]]]].
  - unfold ZKProver.verify_proof.
    cbn [ValidityProof.verification_key ValidityProof.commitment
         ValidityProof.proof_hash ValidityProof.execution_trace
         ValidityProof.state_proof ValidityProof.pre_state_root].
    rewrite (bool_decide_eq_false_2 (ZKProver.verification_key_ z <> _))
      by (intros Hk; by apply Hk).
    rewrite bool_decide_eq_false_2 by (intros Hk; by apply Hk).
    rewrite bool_decide_eq_false_2 by (intros Hk; by apply Hk).
    cbn. rewrite bool_decide_eq_false_2 by (intros Hk; by apply Hk). done.
  - intros z' Hz'. unfold ZKProver.verify_proof.
    cbn [ValidityProof.verification_key].
    by rewrite bool_decide_eq_true_2 by (intros E; by apply Hz').
Qed.

End Prover.

Lemma generated_proof_verifies_witness :
  exists proof,
    ZKProver.generate_proof ZKProver.create [WireScenario.block]
      ProofScenario.pre_root ProofScenario.post_root [] = Some proof
    /\ ZKProver.verify_proof ZKProver.create proof = true.
Proof.
  destruct (generated_proof_verifies ZKProver.create [WireScenario.block]
              ProofScenario.pre_root ProofScenario.post_root [])
    as (proof & Hgen & Hver & _); [done|].
  exists proof. by split.
Defined.

Lemma merkle_proof_verifies_witness :
  Blake2b256.verify_merkle_proof (replicate 32 3)
    (Blake2b256.merkle_proof ProofScenario.leaves 2) 2
    (Blake2b256.merkle_root ProofScenario.leaves) = true.
Proof.
  destruct (merkle_proof_verifies ProofScenario.leaves 2 (replicate 32 3))
    as [Hmany _]; [reflexivity|].
  apply Hmany. cbn. lia.
Defined.

(** ** Block execution (execution.cpp) *)

Section BlockExecution.
Context `{Crypto}.


Lemma gas_total_snoc (start : Z) (receipts : list TransactionReceipt.t)
  (r : TransactionReceipt.t) :
  gas_total start (receipts ++ [r])
  = add64 (gas_total start receipts) (TransactionReceipt.gas_used r).
Proof. unfold gas_total. by rewrite foldl_app. Qed.






End BlockExecution.

